(** * Stampede: a shallow embedding of the load generator's core

    The development follows the Go packages of the repository:
    [internal/util] (credential pool, token bucket), [internal/metrics]
    (metric sink and aggregator), [internal/script] (template expander),
    [internal/worker] (request construction, CSRF extraction) and
    [internal/orchestrator] (run and shutdown sequence).

    Go strings are byte sequences and are modelled as [list ascii]; Go's
    [int] and [int64] are modelled as [Z] with the 64-bit wrap-around
    written out where the code can reach it; a [float64] is a binary64
    number of the IEEE 754 standard, with the operations of the standard
    library's [SpecFloat]; a panic is [None], or [Panicked] in the code
    that also draws random numbers. *)

From Stdlib Require Import ZArith List Ascii String Lia Bool DecimalPos.
From Stdlib Require Import Floats.SpecFloat.
From stdpp Require Import gmap strings list.
Import ListNotations.

Abbreviation gostring := (list ascii) (only parsing).

(** A string literal of the source. *)
Definition str (s : string) : gostring := list_ascii_of_string s.

(** The double-quote byte; literals of the source that contain it are
    written with an apostrophe in its place and passed through [unq]. *)
Definition dquote : ascii := ascii_of_nat 34.

Definition unq (s : gostring) : gostring :=
  map (fun c => if Ascii.eqb c "'"%char then dquote else c) s.

(* ================================================================== *)
(** * The parts of the Go runtime and standard library the code calls  *)
(* ================================================================== *)

Module Go.

Local Open Scope Z_scope.

Definition minInt64 : Z := - 2 ^ 63.
Definition maxInt64 : Z := 2 ^ 63 - 1.

(** Wrap-around of signed 64-bit arithmetic ([int] is 64 bits wide on the
    platforms the tool is built for). *)
Definition wrap64 (z : Z) : Z := (z + 2 ^ 63) mod 2 ^ 64 - 2 ^ 63.

Definition inInt64 (z : Z) : bool := (minInt64 <=? z) && (z <=? maxInt64).

(** ** package time

    An instant is a count of nanoseconds, a [Duration] an [int64] count of
    nanoseconds. *)

Definition Time := Z.
Definition Duration := Z.

(** [t.Sub(u)]: the difference, saturated at the bounds of [Duration]. *)
Definition Sub (t u : Time) : Duration :=
  if t - u <? minInt64 then minInt64
  else if maxInt64 <? t - u then maxInt64
  else t - u.

(** [d.Microseconds()]: integer division, truncated toward zero. *)
Definition Microseconds (d : Duration) : Z := Z.quot d 1000.

Definition Millisecond : Duration := 1000000.
Definition Second : Duration := 1000000000.

(** The test [s == ""]. *)
Definition isEmpty (s : gostring) : bool :=
  match s with [] => true | _ :: _ => false end.

(** ** package strings *)

(** [strings.HasPrefix(s, prefix)] *)
Fixpoint HasPrefix (s prefix : gostring) {struct prefix} : bool :=
  match prefix, s with
  | [], _ => true
  | p :: prefix', c :: s' => Ascii.eqb p c && HasPrefix s' prefix'
  | _ :: _, [] => false
  end.

(** [strings.Index(s, substr)]: the byte offset of the first instance of
    [substr] in [s]; Go's [-1] is [None]. *)
Fixpoint Index (s substr : gostring) {struct s} : option nat :=
  if HasPrefix s substr then Some O
  else match s with
       | [] => None
       | _ :: s' => option_map S (Index s' substr)
       end.

(** [strings.Contains(s, substr)] is [Index(s, substr) >= 0]. *)
Definition Contains (s substr : gostring) : bool :=
  match Index s substr with Some _ => true | None => false end.

(** [strings.ReplaceAll(s, old, new)] for a non-empty [old]: the
    non-overlapping instances of [old], found from left to right, are
    replaced by [new]. [skip] counts the bytes of a replaced instance that
    are still to be passed over. Every call in the repository passes a
    non-empty literal for [old]; with an empty [old] Go inserts [new] at
    every rune boundary, which is outside this model. *)
Fixpoint replaceFrom (old new : gostring) (skip : nat) (s : gostring)
  : gostring :=
  match s with
  | [] => []
  | c :: s' =>
      match skip with
      | S k => replaceFrom old new k s'
      | O =>
          if HasPrefix s old
          then new ++ replaceFrom old new (Nat.pred (length old)) s'
          else c :: replaceFrom old new O s'
      end
  end.

Definition ReplaceAll (s old new : gostring) : gostring :=
  match old with
  | [] => s
  | _ :: _ => replaceFrom old new O s
  end.

(** [unicode.IsSpace] read off the UTF-8 bytes at the head of [s]: the
    width in bytes of the white-space rune [s] starts with, [0] when it
    starts with none. The ASCII ones are tab, line feed, vertical tab, form
    feed, carriage return and space; beyond ASCII: U+0085, U+00A0, U+1680,
    U+2000..U+200A, U+2028, U+2029, U+202F, U+205F and U+3000. *)
Definition spaceWidth (s : gostring) : nat :=
  match map nat_of_ascii (firstn 3 s) with
  | (9 | 10 | 11 | 12 | 13 | 32)%nat :: _ => 1
  | 194%nat :: (133 | 160)%nat :: _ => 2
  | 225%nat :: 154%nat :: 128%nat :: _ => 3
  | 226%nat :: 128%nat :: c :: _ =>
      if ((128 <=? c) && (c <=? 138))%nat || (c =? 168)%nat
         || (c =? 169)%nat || (c =? 175)%nat
      then 3 else 0
  | 226%nat :: 129%nat :: 159%nat :: _ => 3
  | 227%nat :: 128%nat :: 128%nat :: _ => 3
  | _ => 0
  end%nat.

Definition flushField (cur : gostring) : list gostring :=
  match cur with
  | [] => []
  | _ :: _ => [rev cur]
  end.

(** [strings.Fields(s)]: the maximal runs of non-space runes. [cur] is the
    field being read, most recent byte first. *)
Fixpoint fieldsFrom (skip : nat) (cur s : gostring) : list gostring :=
  match s with
  | [] => flushField cur
  | c :: s' =>
      match skip with
      | S k => fieldsFrom k cur s'
      | O =>
          match spaceWidth s with
          | O => fieldsFrom O (c :: cur) s'
          | S w => flushField cur ++ fieldsFrom w [] s'
          end
      end
  end.

Definition Fields (s : gostring) : list gostring := fieldsFrom O [] s.

(** ** package strconv *)

Definition isDigit (c : ascii) : bool :=
  (48 <=? nat_of_ascii c)%nat && (nat_of_ascii c <=? 57)%nat.

Definition digitVal (c : ascii) : Z := Z.of_nat (nat_of_ascii c) - 48.

Fixpoint parseDigits (acc : Z) (s : gostring) : option Z :=
  match s with
  | [] => Some acc
  | c :: s' =>
      if isDigit c then parseDigits (acc * 10 + digitVal c) s' else None
  end.

(** [strconv.Atoi(s)]: an optional sign and at least one decimal digit,
    nothing else; a value outside [int] is a range error. Any error is
    [None]. *)
Definition Atoi (s : gostring) : option Z :=
  let '(neg, ds) :=
    match s with
    | c :: r =>
        if Ascii.eqb c "-"%char then (true, r)
        else if Ascii.eqb c "+"%char then (false, r)
        else (false, s)
    | [] => (false, s)
    end in
  match ds with
  | [] => None
  | _ :: _ =>
      match parseDigits 0 ds with
      | None => None
      | Some n =>
          let v := if neg then - n else n in
          if inInt64 v then Some v else None
      end
  end.

Definition digitChar (d : nat) : ascii := ascii_of_nat (48 + d).

Fixpoint uintChars (u : Decimal.uint) : gostring :=
  match u with
  | Decimal.Nil => []
  | Decimal.D0 u' => digitChar 0 :: uintChars u'
  | Decimal.D1 u' => digitChar 1 :: uintChars u'
  | Decimal.D2 u' => digitChar 2 :: uintChars u'
  | Decimal.D3 u' => digitChar 3 :: uintChars u'
  | Decimal.D4 u' => digitChar 4 :: uintChars u'
  | Decimal.D5 u' => digitChar 5 :: uintChars u'
  | Decimal.D6 u' => digitChar 6 :: uintChars u'
  | Decimal.D7 u' => digitChar 7 :: uintChars u'
  | Decimal.D8 u' => digitChar 8 :: uintChars u'
  | Decimal.D9 u' => digitChar 9 :: uintChars u'
  end.

(** [strconv.Itoa(i)] and [strconv.FormatInt(i, 10)]: the decimal digits,
    most significant first, after a minus sign for a negative number. *)
Definition Itoa (i : Z) : gostring :=
  match i with
  | Z0 => [digitChar 0]
  | Zpos p => uintChars (Pos.to_uint p)
  | Zneg p => "-"%char :: uintChars (Pos.to_uint p)
  end.

(** ** package net/url *)

Definition isAlnum (c : ascii) : bool :=
  let n := nat_of_ascii c in
  ((48 <=? n) && (n <=? 57) || (65 <=? n) && (n <=? 90)
   || (97 <=? n) && (n <=? 122))%nat.

Definition upperhex (d : nat) : ascii :=
  if (d <? 10)%nat then ascii_of_nat (48 + d) else ascii_of_nat (55 + d).

(** [url.QueryEscape(s)]: letters, digits and [-_.~] stay, a space becomes
    [+], every other byte becomes [%XX]. *)
Definition escapeByte (c : ascii) : gostring :=
  if isAlnum c || Ascii.eqb c "-"%char || Ascii.eqb c "_"%char
     || Ascii.eqb c "."%char || Ascii.eqb c "~"%char
  then [c]
  else if Ascii.eqb c " "%char then ["+"%char]
  else ["%"%char; upperhex (nat_of_ascii c / 16);
        upperhex (nat_of_ascii c mod 16)].

Definition QueryEscape (s : gostring) : gostring := flat_map escapeByte s.

(** ** package sort *)

(** The order of strings: byte by byte, a proper prefix first. *)
Fixpoint lessString (a b : gostring) : bool :=
  match a, b with
  | _, [] => false
  | [], _ :: _ => true
  | x :: a', y :: b' =>
      (nat_of_ascii x <? nat_of_ascii y)%nat
      || ((nat_of_ascii x =? nat_of_ascii y)%nat && lessString a' b')
  end.

Fixpoint insertString (x : gostring) (l : list gostring)
  : list gostring :=
  match l with
  | [] => [x]
  | y :: l' => if lessString x y then x :: l else y :: insertString x l'
  end.

(** [sort.Strings(l)], as the list it leaves. *)
Definition sortStrings (l : list gostring) : list gostring :=
  fold_right insertString [] l.

(** ** package math/rand

    The process-wide source is an oracle: the sequence of raw draws and the
    number of draws taken so far. [rand.Intn(n)] panics for [n <= 0] and
    otherwise returns a number in [[0, n)]; every such number is the result
    for some oracle. *)
Record Rand := { draws : nat -> Z; drawn : nat }.

Definition Intn (r : Rand) (n : Z) : option (Z * Rand) :=
  if n <=? 0 then None
  else Some (draws r (drawn r) mod n,
             {| draws := draws r; drawn := S (drawn r) |}).

(** ** float64

    Binary64 numbers: 53 bits of precision, the largest exponent 1024,
    every operation rounded to the nearest number, ties to even. *)

Definition float64 := spec_float.

(** The conversion [float64(x)] of an integer. *)
Definition Float64 (x : Z) : float64 := binary_normalize 53 1024 x 0 false.

Definition fadd (x y : float64) : float64 := SFadd 53 1024 x y.
Definition fmul (x y : float64) : float64 := SFmul 53 1024 x y.
Definition fdiv (x y : float64) : float64 := SFdiv 53 1024 x y.

(** The processors the Makefile builds for. *)
Inductive GOARCH := amd64 | arm64.

(** The conversion [int(x)] of a number that has no [int]: Go leaves the
    result to the implementation. On amd64 the instruction gives the
    smallest [int]; on arm64 it gives the nearest [int]. *)
Definition unrepresentable (arch : GOARCH) (negative : bool) : Z :=
  match arch with
  | amd64 => minInt64
  | arm64 => if negative then minInt64 else maxInt64
  end.

(** The conversion [int(x)]: the fraction is discarded. *)
Definition toInt (arch : GOARCH) (x : float64) : Z :=
  match x with
  | S754_zero _ => 0
  | S754_finite s m e =>
      let magnitude :=
        if 0 <=? e then Z.pos m * 2 ^ e else Z.pos m / 2 ^ (- e) in
      let v := if s then - magnitude else magnitude in
      if (minInt64 <=? v) && (v <=? maxInt64) then v
      else unrepresentable arch s
  | S754_infinity s => unrepresentable arch s
  | S754_nan => match arch with amd64 => minInt64 | arm64 => 0 end
  end.

(** [d.Seconds()]: [sec := d / Second; nsec := d % Second;
    return float64(sec) + float64(nsec)/1e9]. *)
Definition Seconds (d : Duration) : float64 :=
  let sec := Z.quot d Second in
  let nsec := Z.rem d Second in
  fadd (Float64 sec) (fdiv (Float64 nsec) (Float64 1000000000)).

(** A number that is not above zero: a zero, a negative number, minus
    infinity, or not a number. *)
Definition notPositive (x : float64) : Prop :=
  match x with
  | S754_zero _ => True
  | S754_finite s _ _ => s = true
  | S754_infinity s => s = true
  | S754_nan => True
  end.

(** A number that is not below zero and not the negative zero. *)
Definition notNegative (x : float64) : Prop :=
  match x with
  | S754_zero s => s = false
  | S754_finite s _ _ => s = false
  | S754_infinity s => s = false
  | S754_nan => True
  end.

End Go.

(* ================================================================== *)
(** * internal/util: credential pool and rate limiter                  *)
(* ================================================================== *)

Module Util.

Import Go.
Local Open Scope Z_scope.

Record Credentials := { Username : gostring; Password : gostring }.

(** [CredentialsManager]: the loaded list and the round-robin cursor. The
    mutex serialises the calls; a call is one atomic step on this state. *)
Record CredentialsManager := {
  credentials : list Credentials;
  current : Z
}.

Definition len {A} (l : list A) : Z := Z.of_nat (length l).

(** Indexing a slice: out of range is a panic. *)
Definition at_index {A} (l : list A) (i : Z) : option A :=
  if (i <? 0) || (len l <=? i) then None else nth_error l (Z.to_nat i).

(** [GetCredentials]: the entry under the cursor; the cursor advances. The
    remainder by a zero length is a panic. *)
Definition GetCredentials (cm : CredentialsManager)
  : option (Credentials * CredentialsManager) :=
  match at_index (credentials cm) (current cm) with
  | None => None
  | Some creds =>
      if len (credentials cm) =? 0 then None
      else Some (creds,
                 {| credentials := credentials cm;
                    current := Z.rem (wrap64 (current cm + 1))
                                     (len (credentials cm)) |})
  end.

(** [GetCredentialsForUser]: Go's [%] is the truncated remainder [Z.rem];
    the manager is left as it was. *)
Definition GetCredentialsForUser (cm : CredentialsManager) (userID : Z)
  : option (Credentials * CredentialsManager) :=
  if len (credentials cm) =? 0 then None
  else
    let index := Z.rem userID (len (credentials cm)) in
    match at_index (credentials cm) index with
    | None => None
    | Some creds => Some (creds, cm)
    end.

Definition Count (cm : CredentialsManager) : Z := len (credentials cm).

(** The calls other goroutines may make on a shared manager. *)
Inductive call :=
| CallGetCredentials
| CallGetCredentialsForUser (userID : Z).

Definition runCall (cm : CredentialsManager) (c : call)
  : CredentialsManager :=
  match c with
  | CallGetCredentials =>
      match GetCredentials cm with Some (_, cm') => cm' | None => cm end
  | CallGetCredentialsForUser u =>
      match GetCredentialsForUser cm u with
      | Some (_, cm') => cm'
      | None => cm
      end
  end.

Definition runCalls (cm : CredentialsManager) (cs : list call)
  : CredentialsManager := fold_left runCall cs cm.

(** ** Token bucket *)

Record RateLimiter := {
  rate : Z;
  capacity : Z;
  tokens : Z;
  lastTime : Time
}.

Definition NewRateLimiter (rps : Z) (now : Time) : RateLimiter :=
  {| rate := rps; capacity := rps; tokens := rps; lastTime := now |}.

(** [int(elapsed.Seconds() * float64(rl.rate))], in [float64] as the
    source computes it. *)
Definition tokensToAdd (arch : GOARCH) (elapsed : Duration) (rate : Z)
  : Z :=
  toInt arch (fmul (Seconds elapsed) (Float64 rate)).

(** [Allow], given the processor and the reading of the clock it
    takes. *)
Definition Allow (arch : GOARCH) (now : Time) (rl : RateLimiter)
  : bool * RateLimiter :=
  let elapsed := Sub now (lastTime rl) in
  let toAdd := tokensToAdd arch elapsed (rate rl) in
  let rl1 :=
    if 0 <? toAdd then
      let t := wrap64 (tokens rl + toAdd) in
      {| rate := rate rl; capacity := capacity rl;
         tokens := if capacity rl <? t then capacity rl else t;
         lastTime := now |}
    else rl in
  if 0 <? tokens rl1
  then (true, {| rate := rate rl1; capacity := capacity rl1;
                 tokens := tokens rl1 - 1; lastTime := lastTime rl1 |})
  else (false, rl1).

(** [Wait]: [for !rl.Allow() { time.Sleep(10ms) }]. [clock i] is the [i]-th
    reading of the clock; [fuel] bounds the number of calls of [Allow].
    [Some] is a return, with the limiter and the number of readings taken;
    [None] says that [Wait] is still in its loop after [fuel] calls. *)
Fixpoint Wait (arch : GOARCH) (fuel : nat) (clock : nat -> Time)
  (i : nat) (rl : RateLimiter) : option (RateLimiter * nat) :=
  match fuel with
  | O => None
  | S fuel' =>
      let '(ok, rl') := Allow arch (clock i) rl in
      if ok then Some (rl', S i) else Wait arch fuel' clock (S i) rl'
  end.

End Util.

(* ================================================================== *)
(** * The latency histogram the collector records into                  *)
(* ================================================================== *)

(** [github.com/HdrHistogram/hdrhistogram-go] is a dependency of the
    repository, not part of it. The collector calls its [New] and
    [RecordValue]; the model below follows the library: a histogram is an
    array of counters indexed by bucket and sub-bucket, and [RecordValue]
    reports an error, and records nothing, for a value whose index lies
    outside the array. *)
Module Hdr.

Import Go.
Local Open Scope Z_scope.

Definition wrap32 (z : Z) : Z := (z + 2 ^ 31) mod 2 ^ 32 - 2 ^ 31.

Record Histogram := {
  lowestDiscernibleValue : Z;
  highestTrackableValue : Z;
  unitMagnitude : Z;
  significantFigures : Z;
  subBucketHalfCountMagnitude : Z;
  subBucketHalfCount : Z;
  subBucketMask : Z;
  subBucketCount : Z;
  bucketCount : Z;
  countsLen : Z;
  totalCount : Z;
  counts : list Z
}.

(** The doubling loop of [New] that counts the buckets needed to reach the
    highest trackable value; 64 doublings exhaust an [int64]. *)
Fixpoint bucketsNeededFrom (fuel : nat) (smallestUntrackableValue highest
  bucketsNeeded : Z) : Z :=
  match fuel with
  | O => bucketsNeeded
  | S fuel' =>
      if smallestUntrackableValue <? highest
      then bucketsNeededFrom fuel' (wrap64 (smallestUntrackableValue * 2))
             highest (bucketsNeeded + 1)
      else bucketsNeeded
  end.

(** [hdrhistogram.New(lowest, highest, sigfigs)] for [1 <= sigfigs <= 5].
    The library takes the two magnitudes with [math.Log2], rounded up and
    down; [Z.log2_up] and [Z.log2] are their integer counterparts. *)
Definition New (lowest highest sigfigs : Z) : Histogram :=
  let largestValueWithSingleUnitResolution := 2 * 10 ^ sigfigs in
  let subBucketCountMagnitude :=
    Z.log2_up largestValueWithSingleUnitResolution in
  let halfMagnitude := Z.max subBucketCountMagnitude 1 - 1 in
  let unitMag := Z.max (Z.log2 lowest) 0 in
  let subCount := 2 ^ (halfMagnitude + 1) in
  let buckets :=
    bucketsNeededFrom 64 (Z.shiftl subCount unitMag) highest 1 in
  let len := (buckets + 1) * (subCount / 2) in
  {| lowestDiscernibleValue := lowest;
     highestTrackableValue := highest;
     unitMagnitude := unitMag;
     significantFigures := sigfigs;
     subBucketHalfCountMagnitude := halfMagnitude;
     subBucketHalfCount := subCount / 2;
     subBucketMask := Z.shiftl (subCount - 1) unitMag;
     subBucketCount := subCount;
     bucketCount := buckets;
     countsLen := len;
     totalCount := 0;
     counts := replicate (Z.to_nat len) 0 |}.

(** [64 - bits.LeadingZeros64(x)] for an unsigned 64-bit [x]. *)
Definition bitLen64 (x : Z) : Z := if x =? 0 then 0 else Z.log2 x + 1.

Definition getBucketIndex (h : Histogram) (v : Z) : Z :=
  let pow2Ceiling := bitLen64 (Z.lor v (subBucketMask h) mod 2 ^ 64) in
  wrap32 (pow2Ceiling - unitMagnitude h
          - (subBucketHalfCountMagnitude h + 1)).

Definition getSubBucketIdx (h : Histogram) (v idx : Z) : Z :=
  wrap32 (Z.shiftr v (idx + unitMagnitude h)).

Definition countsIndex (h : Histogram) (bucketIdx subBucketIdx : Z) : Z :=
  let bucketBaseIdx :=
    wrap32 (Z.shiftl (bucketIdx + 1) (subBucketHalfCountMagnitude h)) in
  let offsetInBucket := wrap32 (subBucketIdx - subBucketHalfCount h) in
  wrap32 (bucketBaseIdx + offsetInBucket).

Definition countsIndexFor (h : Histogram) (v : Z) : Z :=
  let bucketIdx := getBucketIndex h v in
  countsIndex h bucketIdx (getSubBucketIdx h v bucketIdx).

Definition withCounts (h : Histogram) (total : Z) (cs : list Z)
  : Histogram :=
  {| lowestDiscernibleValue := lowestDiscernibleValue h;
     highestTrackableValue := highestTrackableValue h;
     unitMagnitude := unitMagnitude h;
     significantFigures := significantFigures h;
     subBucketHalfCountMagnitude := subBucketHalfCountMagnitude h;
     subBucketHalfCount := subBucketHalfCount h;
     subBucketMask := subBucketMask h;
     subBucketCount := subBucketCount h;
     bucketCount := bucketCount h;
     countsLen := countsLen h;
     totalCount := total;
     counts := cs |}.

(** [h.RecordValues(v, n)]: the histogram afterwards and whether an error
    was returned. *)
Definition RecordValues (h : Histogram) (v n : Z) : Histogram * bool :=
  let idx := countsIndexFor h v in
  if (idx <? 0) || (countsLen h <=? idx) then (h, true)
  else (withCounts h (wrap64 (totalCount h + n))
          (alter (fun c => wrap64 (c + n)) (Z.to_nat idx) (counts h)),
        false).

Definition RecordValue (h : Histogram) (v : Z) : Histogram * bool :=
  RecordValues h v 1.

Definition TotalCount (h : Histogram) : Z := totalCount h.

End Hdr.

(* ================================================================== *)
(** * internal/metrics: the sink and the aggregator                     *)
(* ================================================================== *)

Module Metrics.

Import Go.
Local Open Scope Z_scope.

Record RequestMetric := {
  Name : gostring;
  Method : gostring;
  URL : gostring;
  StartTime : Time;
  EndTime : Time;
  StatusCode : Z;
  BytesRead : Z;
  Error : gostring
}.

(** [ActionStats]; its name field is [StatsName] here, [Name] being the
    field of [RequestMetric]. *)
Record ActionStats := {
  StatsName : gostring;
  TotalOK : Z;
  TotalErrors : Z;
  Histogram : Hdr.Histogram;
  BytesTotal : Z
}.

(** [Collector]: the buffered channel, oldest event first, and the map of
    statistics. The map holds pointers in the source; an update in place is
    the insertion of the updated record. *)
Record Collector := {
  metrics : list RequestMetric;
  actions : gmap gostring ActionStats
}.

(** The capacity of the channel. *)
Definition capacity : Z := 10000.

Definition NewCollector : Collector := {| metrics := []; actions := ∅ |}.

(** [Record] ([Record_] here, the name being a keyword): a send that does
    not block; with a full buffer the event is dropped. The result says
    whether the event was taken. *)
Definition Record_ (c : Collector) (metric : RequestMetric)
  : Collector * bool :=
  if Z.of_nat (length (metrics c)) <? capacity
  then ({| metrics := metrics c ++ [metric]; actions := actions c |}, true)
  else (c, false).

(** The condition of the [if] in [collect]. *)
Definition isSuccess (metric : RequestMetric) : bool :=
  isEmpty (Error metric)
  && (200 <=? StatusCode metric) && (StatusCode metric <? 400).

Definition latencyMicros (metric : RequestMetric) : Z :=
  Microseconds (Sub (EndTime metric) (StartTime metric)).

Definition newStats (name : gostring) : ActionStats :=
  {| StatsName := name; TotalOK := 0; TotalErrors := 0;
     Histogram := Hdr.New 1 60000000 3; BytesTotal := 0 |}.

(** The statistics of [metric.Name], created on its first event. *)
Definition statsFor (acts : gmap gostring ActionStats) (name : gostring)
  : ActionStats :=
  match acts !! name with
  | Some stats => stats
  | None => newStats name
  end.

(** The update of one [ActionStats] by one event; the error that
    [RecordValue] may return is discarded, as in the source. *)
Definition update (stats : ActionStats) (metric : RequestMetric)
  : ActionStats :=
  let counted :=
    if isSuccess metric
    then {| StatsName := StatsName stats;
            TotalOK := wrap64 (TotalOK stats + 1);
            TotalErrors := TotalErrors stats;
            Histogram :=
              fst (Hdr.RecordValue (Histogram stats) (latencyMicros metric));
            BytesTotal := BytesTotal stats |}
    else {| StatsName := StatsName stats;
            TotalOK := TotalOK stats;
            TotalErrors := wrap64 (TotalErrors stats + 1);
            Histogram := Histogram stats;
            BytesTotal := BytesTotal stats |} in
  {| StatsName := StatsName counted;
     TotalOK := TotalOK counted;
     TotalErrors := TotalErrors counted;
     Histogram := Histogram counted;
     BytesTotal := wrap64 (BytesTotal counted + BytesRead metric) |}.

(** One iteration of the loop of [collect], on the event received. *)
Definition collectOne (acts : gmap gostring ActionStats)
  (metric : RequestMetric) : gmap gostring ActionStats :=
  <[Name metric := update (statsFor acts (Name metric)) metric]> acts.

(** The aggregator receives one event, when one is queued. *)
Definition receive (c : Collector) : Collector :=
  match metrics c with
  | [] => c
  | metric :: rest =>
      {| metrics := rest; actions := collectOne (actions c) metric |}
  end.

(** [Stop]: the channel is closed and [collect] runs until it has received
    every queued event. *)
Definition Stop (c : Collector) : Collector :=
  {| metrics := []; actions := fold_left collectOne (metrics c) (actions c) |}.

(** [GetStats]: a new map with the entries of the collector's map. The
    entries are pointers: what [GetStats] gives is the names that have
    statistics at that moment, and the statistics read through them later
    are those the collector has then. The names come in the order of
    [map_to_list]. *)
Definition GetStats (c : Collector) : list gostring :=
  map fst (map_to_list (actions c)).

(** A read of the statistics of [name] through its pointer, when the
    collector is [c]. *)
Definition live (c : Collector) (name : gostring) : ActionStats :=
  statsFor (actions c) name.

(** A run of the sink: workers send, the aggregator receives, in any
    interleaving. *)
Inductive step :=
| Send (metric : RequestMetric)
| Receive.

Definition runStep (c : Collector) (s : step) : Collector :=
  match s with
  | Send metric => fst (Record_ c metric)
  | Receive => receive c
  end.

Definition run (c : Collector) (sched : list step) : Collector :=
  fold_left runStep sched c.

(** The events of a schedule that the sink took, in the order sent. *)
Fixpoint accepted (c : Collector) (sched : list step) : list RequestMetric :=
  match sched with
  | [] => []
  | Send metric :: sched' =>
      if snd (Record_ c metric)
      then metric :: accepted (runStep c (Send metric)) sched'
      else accepted (runStep c (Send metric)) sched'
  | Receive :: sched' => accepted (runStep c Receive) sched'
  end.

Definition okCount (acts : gmap gostring ActionStats) (name : gostring) : Z :=
  match acts !! name with Some stats => TotalOK stats | None => 0 end.

Definition errCount (acts : gmap gostring ActionStats) (name : gostring)
  : Z :=
  match acts !! name with Some stats => TotalErrors stats | None => 0 end.

Definition recorded (acts : gmap gostring ActionStats) (name : gostring)
  : Z :=
  match acts !! name with
  | Some stats => Hdr.TotalCount (Histogram stats)
  | None => 0
  end.

End Metrics.

(* ================================================================== *)
(** * internal/script: the template expander                            *)
(* ================================================================== *)

Module Script.

Import Go.
Local Open Scope Z_scope.

(** Code that draws from the random source and may panic. [OutOfFuel] is
    the answer of a loop cut off by its bound on the number of iterations;
    [expandString_total] shows that [expandString] never gives it. *)
Inductive outcome (A : Type) :=
| Done (a : A)
| Panicked
| OutOfFuel.

Arguments Done {A} a.
Arguments Panicked {A}.
Arguments OutOfFuel {A}.

Definition M (A : Type) : Type := Rand -> outcome (A * Rand).

Definition ret {A} (a : A) : M A := fun r => Done (a, r).

Definition bind {A B} (m : M A) (f : A -> M B) : M B :=
  fun r =>
    match m r with
    | Done (a, r') => f a r'
    | Panicked => Panicked
    | OutOfFuel => OutOfFuel
    end.

Notation "'let*' x ':=' m 'in' k" := (bind m (fun x => k))
  (at level 10, x name, m at level 100, k at level 200).

Definition randIntn (n : Z) : M Z :=
  fun r =>
    match Intn r n with
    | Some (v, r') => Done (v, r')
    | None => Panicked
    end.

Record Action := {
  Name : gostring;
  Method : gostring;
  URL : gostring;
  JSONBody : gostring;
  Body : gostring;
  Headers : gmap gostring gostring;
  ExpectStatus : Z;
  Timeout : gostring;
  Delay : gostring;
  DelayMin : gostring;
  DelayMax : gostring
}.

Record Script := { Actions : list Action }.

(** The slice expression [s[lo:hi]]; out of range is a panic. *)
Definition slice (s : gostring) (lo hi : nat) : option gostring :=
  if ((lo <=? hi) && (hi <=? length s))%nat
  then Some (firstn (hi - lo) (skipn lo s))
  else None.

(** What replaces one [{{randInt ...}}] or [{{randDelay ...}}] expression,
    from the fields between the keyword and the closing braces. The
    subtraction, the increment and the addition are [int] arithmetic. *)
Definition replacement (fallback : gostring) (parts : list gostring)
  : M gostring :=
  match parts with
  | [p0; p1] =>
      match Atoi p0, Atoi p1 with
      | Some min, Some max =>
          if min <? max
          then let* randVal :=
                 randIntn (wrap64 (wrap64 (max - min) + 1)) in
               ret (Itoa (wrap64 (randVal + min)))
          else ret fallback
      | _, _ => ret fallback
      end
  | _ => ret fallback
  end.

(** The two loops of [expandString], [for strings.Contains(result,
    keyword) { ... }], which differ in the keyword ([{{randInt],
    [{{randDelay]) and in the text put in for an expression that is not
    valid ([1], [1000]). [fuel] bounds the number of iterations. *)
Fixpoint expandRand (keyword fallback : gostring) (fuel : nat)
  (result : gostring) : M gostring :=
  match fuel with
  | O => fun _ => OutOfFuel
  | S fuel' =>
      if negb (Contains result keyword) then ret result
      else
        match Index result keyword with
        | None => ret result
        | Some start =>
            match Index (skipn start result) (str "}}") with
            | None => ret result
            | Some e =>
                let end_ := (e + start + 2)%nat in
                match slice result start end_ with
                | None => fun _ => Panicked
                | Some expr =>
                    match slice expr (length keyword) (length expr - 2) with
                    | None => fun _ => Panicked
                    | Some args =>
                        let* repl := replacement fallback (Fields args) in
                        expandRand keyword fallback fuel'
                          (firstn start result ++ repl
                           ++ skipn end_ result)
                    end
                end
            end
        end
  end.

(** The loop over [{{randInt min max}}] and the loop over
    [{{randDelay min max}}]. An iteration removes at least the keyword and
    the closing braces, so a bound above the length of the string is never
    reached. *)
Definition expandRandInt (result : gostring) : M gostring :=
  expandRand (str "{{randInt") (str "1") (S (length result)) result.

Definition expandRandDelay (result : gostring) : M gostring :=
  expandRand (str "{{randDelay") (str "1000") (S (length result)) result.

Definition movieList : list gostring :=
  [str "movie1"; str "movie2"; str "movie3"; str "movie4"; str "movie5"].

(** [time.Now().UnixMilli()] *)
Definition UnixMilli (now : Time) : Z := now / 1000000.

(** [expandString(s, userID)], given the reading of the clock. *)
Definition expandString (now : Time) (s : gostring) (userID : Z)
  : M gostring :=
  let result := s in
  let result := ReplaceAll result (str "{{userId}}") (Itoa userID) in
  let result :=
    ReplaceAll result (str "{{epochms}}") (Itoa (UnixMilli now)) in
  let* result := expandRandInt result in
  let* result :=
    (if Contains result (str "{{pick movies}}")
     then let* i := randIntn (Z.of_nat (length movieList)) in
          ret (ReplaceAll result (str "{{pick movies}}")
                 (nth (Z.to_nat i) movieList []))
     else ret result) in
  expandRandDelay result.

(** The loop over [a.Headers]. Go ranges over a map in an unspecified
    order; the model takes the entries in the order of [map_to_list]. *)
Fixpoint expandHeaders (now : Time) (userID : Z)
  (entries : list (gostring * gostring))
  (acc : gmap gostring gostring) : M (gmap gostring gostring) :=
  match entries with
  | [] => ret acc
  | (key, value) :: entries' =>
      let* v := expandString now value userID in
      expandHeaders now userID entries' (<[key := v]> acc)
  end.

Definition ExpandTemplates (now : Time) (a : Action) (userID : Z)
  : M Action :=
  let* url := expandString now (URL a) userID in
  let* json := expandString now (JSONBody a) userID in
  let* body := expandString now (Body a) userID in
  let* headers := expandHeaders now userID (map_to_list (Headers a)) ∅ in
  ret {| Name := Name a; Method := Method a; URL := url;
         JSONBody := json; Body := body; Headers := headers;
         ExpectStatus := ExpectStatus a; Timeout := Timeout a;
         Delay := Delay a; DelayMin := DelayMin a;
         DelayMax := DelayMax a |}.

End Script.

(* ================================================================== *)
(** * The regular expressions of the worker                             *)
(* ================================================================== *)

(** Package [regexp] for the expressions [worker.go] compiles: sequences
    of literal text, [[^c]*] and one capturing group [([^c]+)]. A match
    begins as early as possible and is the one a backtracking search finds
    first, the repetitions being greedy. The expressions name only ASCII
    bytes, so matching bytes and matching runes agree. *)
Module Regexp.

Import Go.

Inductive node :=
| Lit (text : gostring)
| StarNot (c : ascii)
| GroupPlusNot (c : ascii).

Definition Regexp := list node.

(** As many bytes other than [c] as possible, then [k] on the rest, giving
    back a byte at a time while [k] fails: the number of bytes taken and
    the answer of [k]. *)
Fixpoint greedy {R} (c : ascii) (k : gostring -> option R) (s : gostring)
  : option (nat * R) :=
  match s with
  | x :: s' =>
      if Ascii.eqb x c then option_map (pair O) (k s)
      else
        match greedy c k s' with
        | Some (n, r) => Some (S n, r)
        | None => option_map (pair O) (k s)
        end
  | [] => option_map (pair O) (k [])
  end.

(** A match of [re] at the head of [s]: its length and the text of the
    group. *)
Fixpoint matchHere (re : Regexp) (s : gostring) {struct re}
  : option (nat * gostring) :=
  match re with
  | [] => Some (O, [])
  | Lit text :: re' =>
      if HasPrefix s text
      then match matchHere re' (skipn (length text) s) with
           | Some (n, group) => Some ((length text + n)%nat, group)
           | None => None
           end
      else None
  | StarNot c :: re' =>
      match greedy c (matchHere re') s with
      | Some (n, (m, group)) => Some ((n + m)%nat, group)
      | None => None
      end
  | GroupPlusNot c :: re' =>
      match greedy c (matchHere re') s with
      | Some (S n, (m, _)) => Some ((S n + m)%nat, firstn (S n) s)
      | _ => None
      end
  end.

(** [re.FindStringSubmatch(s)]: the text of the leftmost match and of its
    group; [nil] is [None]. *)
Fixpoint FindStringSubmatch (re : Regexp) (s : gostring)
  : option (list gostring) :=
  match matchHere re s with
  | Some (n, group) => Some [firstn n s; group]
  | None =>
      match s with
      | [] => None
      | _ :: s' => FindStringSubmatch re s'
      end
  end.

End Regexp.

(* ================================================================== *)
(** * internal/worker                                                   *)
(* ================================================================== *)

Module Worker.

Import Go Regexp.
Local Open Scope Z_scope.

(** The session state of a worker and what it reads of its
    configuration. *)
Record Worker := {
  id : Z;
  rateLimiter : Util.RateLimiter;
  loginHeader : gostring;
  sessionHeaders : gmap gostring gostring;
  csrfToken : gostring;
  credentials : option Util.CredentialsManager
}.

Definition replaceCredentialPlaceholders (content : gostring)
  (creds : Util.Credentials) : gostring :=
  if isEmpty content then content
  else
    let content :=
      ReplaceAll content (str "{{username}}") (Util.Username creds) in
    let content :=
      ReplaceAll content (str "{{password}}") (Util.Password creds) in
    let content :=
      ReplaceAll content (str "{{email}}") (Util.Username creds) in
    content.

Definition withBodies (a : Script.Action) (body json : gostring)
  : Script.Action :=
  {| Script.Name := Script.Name a; Script.Method := Script.Method a;
     Script.URL := Script.URL a; Script.JSONBody := json;
     Script.Body := body; Script.Headers := Script.Headers a;
     Script.ExpectStatus := Script.ExpectStatus a;
     Script.Timeout := Script.Timeout a; Script.Delay := Script.Delay a;
     Script.DelayMin := Script.DelayMin a;
     Script.DelayMax := Script.DelayMax a |}.

(** [executeAction], first part: the action expanded for this worker, with
    the credential placeholders replaced when a credential pool is
    loaded. *)
Definition expandedAction (w : Worker) (now : Time) (action : Script.Action)
  : Script.M Script.Action :=
  Script.bind (Script.ExpandTemplates now action (id w)) (fun expanded =>
    match credentials w with
    | None => Script.ret expanded
    | Some cm =>
        match Util.GetCredentialsForUser cm (id w) with
        | None => fun _ => Script.Panicked
        | Some (creds, _) =>
            let body :=
              replaceCredentialPlaceholders (Script.Body expanded) creds in
            let json :=
              replaceCredentialPlaceholders (Script.JSONBody expanded)
                creds in
            Script.ret (withBodies expanded body json)
        end
    end).

(** [executeAction], second part: the body handed to
    [http.NewRequestWithContext]; [None] is the [nil] reader. *)
Definition requestBody (w : Worker) (expanded : Script.Action)
  : option gostring :=
  if negb (isEmpty (Script.JSONBody expanded))
  then Some (Script.JSONBody expanded)
  else if negb (isEmpty (Script.Body expanded))
  then
    let bodyContent := Script.Body expanded in
    let bodyContent :=
      if negb (isEmpty (csrfToken w))
      then
        let encodedToken := QueryEscape (csrfToken w) in
        ReplaceAll bodyContent (str "CSRF_TOKEN_PLACEHOLDER") encodedToken
      else bodyContent in
    Some bodyContent
  else None.

(** The three expressions, with an apostrophe for the double quote:
    [<meta name="csrf-token" content="([^"]+)"],
    [<input[^>]*name="authenticity_token"[^>]*value="([^"]+)"] and
    [authenticity_token"[^>]*value="([^"]+)"]. *)
Definition metaPattern : Regexp :=
  [Lit (unq (str "<meta name='csrf-token' content='"));
   GroupPlusNot dquote; Lit [dquote]].

Definition formPattern : Regexp :=
  [Lit (str "<input"); StarNot ">"%char;
   Lit (unq (str "name='authenticity_token'")); StarNot ">"%char;
   Lit (unq (str "value='")); GroupPlusNot dquote; Lit [dquote]].

Definition authPattern : Regexp :=
  [Lit (unq (str "authenticity_token'")); StarNot ">"%char;
   Lit (unq (str "value='")); GroupPlusNot dquote; Lit [dquote]].

Definition withToken (w : Worker) (token : gostring) : Worker :=
  {| id := id w; rateLimiter := rateLimiter w;
     loginHeader := loginHeader w; sessionHeaders := sessionHeaders w;
     csrfToken := token; credentials := credentials w |}.

(** One [if matches := p.FindStringSubmatch(htmlContent); len(matches) > 1]
    of [extractCSRFTokenFromHTML]: the token to store, if any. *)
Definition submatch (p : Regexp) (htmlContent : gostring)
  : option gostring :=
  match FindStringSubmatch p htmlContent with
  | Some matches =>
      if (1 <? length matches)%nat then nth_error matches 1 else None
  | None => None
  end.

(** [extractCSRFTokenFromHTML]: the worker afterwards, and the expressions
    that were matched against the content, in order. *)
Definition extractCSRFTokenFromHTML (w : Worker) (htmlContent : gostring)
  : Worker * list Regexp :=
  match submatch metaPattern htmlContent with
  | Some token => (withToken w token, [metaPattern])
  | None =>
      match submatch formPattern htmlContent with
      | Some token => (withToken w token, [metaPattern; formPattern])
      | None =>
          match submatch authPattern htmlContent with
          | Some token =>
              (withToken w token, [metaPattern; formPattern; authPattern])
          | None => (w, [metaPattern; formPattern; authPattern])
          end
      end
  end.

End Worker.

(* ================================================================== *)
(** * internal/orchestrator: the run and its shutdown                   *)
(* ================================================================== *)

Module Orchestrator.

Local Open Scope Z_scope.

Record Config := {
  Users : Z;
  OutputFile : gostring
}.

(** The user ids of the workers [Run] starts: [i + 1] for [i] from 0 below
    [cfg.Users]. *)
Definition userIDs (cfg : Config) : list Z :=
  map (fun i => Z.of_nat i + 1) (seq 0 (Z.to_nat (Users cfg))).

(** The calls [Run] makes, by the line of the source that makes them. *)
Inductive op :=
| CollectorStart        (* o.collector.Start() *)
| CollectorStop         (* o.collector.Stop() *)
| StartLiveReporting    (* o.reporter.StartLiveReporting() *)
| WithTimeout           (* context.WithTimeout(...) *)
| Cancel                (* cancel() *)
| StartWorkers          (* the loop of go func(userID int) {...}(i + 1) *)
| AwaitDeadline         (* <-ctx.Done() *)
| WaitWorkers           (* wg.Wait() *)
| PrintFinalReport      (* o.reporter.PrintFinalReport() *)
| SaveReport.           (* o.reporter.SaveReport(o.cfg.OutputFile) *)

Inductive stmt :=
| Call (o : op)
| Defer (o : op).

(** The body of [Run], statement by statement. *)
Definition RunBody (cfg : Config) : list stmt :=
  [Call CollectorStart; Defer CollectorStop;
   Call StartLiveReporting;
   Call WithTimeout; Defer Cancel;
   Call StartWorkers;
   Call AwaitDeadline;
   Call WaitWorkers;
   Call PrintFinalReport]
  ++ (if Go.isEmpty (OutputFile cfg) then [] else [Call SaveReport]).

(** The calls of a function body in the order they are made: a deferred
    call is made when the function returns, the last deferred first. *)
Fixpoint callsOf (body : list stmt) (deferred : list op) : list op :=
  match body with
  | [] => deferred
  | Call o :: body' => o :: callsOf body' deferred
  | Defer o :: body' => callsOf body' (o :: deferred)
  end.

Definition Run (cfg : Config) : list op := callsOf (RunBody cfg) [].

(** What the goroutines do meanwhile: the sends of the workers and the
    receives of the aggregator until the last worker has returned; the
    number of events the aggregator receives between the return of
    [wg.Wait] and the call of [GetStats] by the first report, and between
    the last read of the first report and the call of [GetStats] by the
    second; and, for each report, the number of events the aggregator
    receives before each of its reads of a counter, the reads numbered
    from 0. *)
Record Schedule := {
  whileWorkersRun : list Metrics.step;
  beforePrint : nat;
  duringPrint : nat -> nat;
  beforeSave : nat;
  duringSave : nat -> nat
}.

(** What a report shows of an action: its success count and its error
    count. The other columns are not modelled. *)
Record Row := { shownOK : Z; shownErr : Z }.

Record System := {
  collector : Metrics.Collector;
  printed : option (gmap gostring Row);
  saved : option (gmap gostring Row)
}.

Definition receiveN (n : nat) (c : Metrics.Collector) : Metrics.Collector :=
  Nat.iter n Metrics.receive c.

(** The loop of a report over the actions. A report reads the counters
    through the pointers [GetStats] gave it, row after row and in a row
    the success count before the error count, while the aggregator, not
    yet stopped, goes on receiving: [gaps k] events before read [k]. The
    result is the rows read and the collector after the last read. *)
Fixpoint readRows (names : list gostring) (gaps : nat -> nat) (k : nat)
  (c : Metrics.Collector)
  : list (gostring * Row) * Metrics.Collector :=
  match names with
  | [] => ([], c)
  | name :: names' =>
      let c1 := receiveN (gaps k) c in
      let ok := Metrics.TotalOK (Metrics.live c1 name) in
      let c2 := receiveN (gaps (S k)) c1 in
      let err := Metrics.TotalErrors (Metrics.live c2 name) in
      let '(rows, c3) := readRows names' gaps (S (S k)) c2 in
      ((name, {| shownOK := ok; shownErr := err |}) :: rows, c3)
  end.

(** [PrintFinalReport] takes the names in the order of [sort.Strings],
    [SaveReport] in the order of the map. *)
Definition report (sorted : bool) (before : nat) (gaps : nat -> nat)
  (c : Metrics.Collector) : gmap gostring Row * Metrics.Collector :=
  let c0 := receiveN before c in
  let names := Metrics.GetStats c0 in
  let names := if sorted then Go.sortStrings names else names in
  let '(rows, c1) := readRows names gaps 0 c0 in
  (list_to_map rows, c1).

Definition exec (sched : Schedule) (sys : System) (o : op) : System :=
  match o with
  | WaitWorkers =>
      {| collector := Metrics.run (collector sys) (whileWorkersRun sched);
         printed := printed sys; saved := saved sys |}
  | PrintFinalReport =>
      let '(rows, c) :=
        report true (beforePrint sched) (duringPrint sched)
          (collector sys) in
      {| collector := c; printed := Some rows; saved := saved sys |}
  | SaveReport =>
      let '(rows, c) :=
        report false (beforeSave sched) (duringSave sched)
          (collector sys) in
      {| collector := c; printed := printed sys; saved := Some rows |}
  | CollectorStop =>
      {| collector := Metrics.Stop (collector sys);
         printed := printed sys; saved := saved sys |}
  | _ => sys
  end.

Definition initial : System :=
  {| collector := Metrics.NewCollector; printed := None; saved := None |}.

Definition runSystem (cfg : Config) (sched : Schedule) : System :=
  fold_left (exec sched) (Run cfg) initial.

End Orchestrator.

(* ================================================================== *)
(** * Counting events, and sample inputs                                *)
(* ================================================================== *)

Module Sample.

Local Open Scope Z_scope.

(** The credentials file of scenario S4 of the specification. *)
Definition twoCredentials : Util.CredentialsManager :=
  {| Util.credentials :=
       [ {| Util.Username := str "a@x"; Util.Password := str "pw1" |};
         {| Util.Username := str "b@x"; Util.Password := str "pw2" |} ];
     Util.current := 0 |}.

(** An event of the action [Ping]. *)
Definition ping (start finish status : Z) (err : gostring)
  : Metrics.RequestMetric :=
  {| Metrics.Name := str "Ping"; Metrics.Method := str "GET";
     Metrics.URL := str "https://example/ping";
     Metrics.StartTime := start; Metrics.EndTime := finish;
     Metrics.StatusCode := status; Metrics.BytesRead := 5;
     Metrics.Error := err |}.

End Sample.

Module Tally.

Import Metrics.

(** The events of [evs] that bear the name [name]. *)
Definition named (name : gostring) (evs : list RequestMetric)
  : list RequestMetric :=
  List.filter (fun m => bool_decide (Name m = name)) evs.

Definition successes (name : gostring) (evs : list RequestMetric) : nat :=
  length (List.filter isSuccess (named name evs)).

Definition failures (name : gostring) (evs : list RequestMetric) : nat :=
  length (List.filter (fun m => negb (isSuccess m)) (named name evs)).

End Tally.

Module Scenario.

Local Open Scope Z_scope.

(** A worker with no session state yet and no credential pool. *)
Definition freshWorker (userID : Z) : Worker.Worker :=
  {| Worker.id := userID;
     Worker.rateLimiter := Util.NewRateLimiter 1 0;
     Worker.loginHeader := [];
     Worker.sessionHeaders := ∅;
     Worker.csrfToken := [];
     Worker.credentials := None |}.

(** The login page of scenario S2 of the specification. *)
Definition loginPage : gostring :=
  unq (str "<html><head><meta name='csrf-token' content='TKN1'></head>").

(** A post with a form body and no JSON body. *)
Definition formPost (url body : gostring) : Script.Action :=
  {| Script.Name := str "Submit"; Script.Method := str "POST";
     Script.URL := url; Script.JSONBody := []; Script.Body := body;
     Script.Headers := ∅; Script.ExpectStatus := 0;
     Script.Timeout := []; Script.Delay := [];
     Script.DelayMin := []; Script.DelayMax := [] |}.

(** A run in which a worker sends the event of its last request just
    before it returns, and the aggregator is not scheduled again before
    the reports read the statistics. *)
Definition lastEventQueued : Orchestrator.Schedule :=
  {| Orchestrator.whileWorkersRun :=
       [Metrics.Send (Sample.ping 0 1000000 200 [])];
     Orchestrator.beforePrint := 0;
     Orchestrator.duringPrint := fun _ => O;
     Orchestrator.beforeSave := 0;
     Orchestrator.duringSave := fun _ => O |}.

Definition withOutputFile : Orchestrator.Config :=
  {| Orchestrator.Users := 1; Orchestrator.OutputFile := str "report.json" |}.

End Scenario.

(** A request body read as pieces: stretches of other text and the three
    credential placeholders. *)
Module Pieces.

Import Go.

Inductive field := Username | Password | Email.

Inductive piece :=
| Text (t : gostring)
| Field (f : field).

Definition tag (f : field) : gostring :=
  match f with
  | Username => str "{{username}}"
  | Password => str "{{password}}"
  | Email => str "{{email}}"
  end.

Definition renderPiece (p : piece) : gostring :=
  match p with
  | Text t => t
  | Field f => tag f
  end.

(** The body a list of pieces stands for. *)
Definition render (ps : list piece) : gostring := flat_map renderPiece ps.

(** What a piece becomes with a credential filled in. *)
Definition fill (creds : Util.Credentials) (p : piece) : gostring :=
  match p with
  | Text t => t
  | Field Username => Util.Username creds
  | Field Password => Util.Password creds
  | Field Email => Util.Username creds
  end.

Definition isOpen (c : ascii) : bool := Ascii.eqb c "{"%char.

(** Text that cannot be taken for the start of a placeholder: an opening
    brace in it is followed, in it, by a byte that is not one. *)
Fixpoint plain (t : gostring) : bool :=
  match t with
  | [] => true
  | c :: t' =>
      if isOpen c
      then match t' with
           | [] => false
           | c2 :: _ => negb (isOpen c2) && plain t'
           end
      else plain t'
  end.

Definition plainPiece (p : piece) : bool :=
  match p with
  | Text t => plain t
  | Field _ => true
  end.

(** No opening brace at all. *)
Definition braceFree (s : gostring) : bool :=
  forallb (fun c => negb (isOpen c)) s.

(** The piece [Field f] replaced by the text [v]. *)
Definition subst (f : field) (v : gostring) (p : piece) : piece :=
  match p with
  | Text t => Text t
  | Field g =>
      match f, g with
      | Username, Username | Password, Password | Email, Email => Text v
      | _, _ => Field g
      end
  end.

End Pieces.

(** A worker of scenario S4 and an action that names the user in its URL,
    in a header and in its form body. *)
Module ScenarioS4.

Local Open Scope Z_scope.

Definition worker1 : Worker.Worker :=
  Worker.withToken
    {| Worker.id := 1;
       Worker.rateLimiter := Util.NewRateLimiter 1 0;
       Worker.loginHeader := [];
       Worker.sessionHeaders := ∅;
       Worker.csrfToken := [];
       Worker.credentials := Some Sample.twoCredentials |} [].

Definition profile : Script.Action :=
  {| Script.Name := str "Profile"; Script.Method := str "POST";
     Script.URL := str "https://example/users/{{username}}";
     Script.JSONBody := [];
     Script.Body := str "u={{username}}&p={{password}}&e={{email}}";
     Script.Headers := {[ str "X-User" := str "{{username}}" ]};
     Script.ExpectStatus := 200;
     Script.Timeout := []; Script.Delay := [];
     Script.DelayMin := []; Script.DelayMax := [] |}.

Definition noDraws : Go.Rand := {| Go.draws := fun _ => 0; Go.drawn := 0 |}.

End ScenarioS4.

(** What the histogram of the collector keeps. *)
Module Trackable.

Import Go.
Local Open Scope Z_scope.

(** The parameters of [hdrhistogram.New(1, 60000000, 3)]: 16 buckets of
    2048 sub-buckets over 17408 counters. *)
Definition collectorShape (h : Hdr.Histogram) : Prop :=
  Hdr.unitMagnitude h = 0 /\ Hdr.subBucketHalfCountMagnitude h = 10
  /\ Hdr.subBucketHalfCount h = 1024 /\ Hdr.subBucketMask h = 2047
  /\ Hdr.countsLen h = 17408.

(** The largest value that has a counter: [2 ^ 26 - 1] microseconds, a
    little over 67 seconds. *)
Definition largest : Z := 67108863.

Definition trackable (m : Metrics.RequestMetric) : bool :=
  (0 <=? Metrics.latencyMicros m) && (Metrics.latencyMicros m <=? largest).

(** The successes of an action whose latency has a counter. *)
Definition trackableSuccesses (name : gostring)
  (evs : list Metrics.RequestMetric) : nat :=
  length (List.filter trackable
            (List.filter Metrics.isSuccess (Tally.named name evs))).

End Trackable.

(** What the proofs about the two loops of [expandString] speak of. *)
Module Loop.

Import Go Script.

(** The closing braces an expression is read up to. *)
Definition closing : gostring := str "}}".

(** An outcome with [x] put before the text it gives. *)
Definition prepend (x : gostring) (o : outcome (gostring * Rand))
  : outcome (gostring * Rand) :=
  match o with
  | Done (out, r) => Done (x ++ out, r)
  | Panicked => Panicked
  | OutOfFuel => OutOfFuel
  end.

(** A byte that [strconv.Itoa] can write. *)
Definition numeric (c : ascii) : bool := isDigit c || Ascii.eqb c "-"%char.

(** A keyword of a loop: not empty, and with no byte that a number or the
    closing braces are written with. *)
Definition keywordOK (keyword : gostring) : bool :=
  match keyword with
  | [] => false
  | _ :: _ =>
      forallb (fun c => negb (numeric c) && negb (Ascii.eqb c "}"%char))
        keyword
  end.

(** The text put in for an expression that is not valid: digits. *)
Definition fallbackOK (fallback : gostring) : bool :=
  match fallback with
  | [] => false
  | _ :: _ => forallb isDigit fallback
  end.

(** The arguments of an expression for which the fallback is written:
    not two fields, a field that is not an [int], or [min >= max]. *)
Definition invalidArgs (args : gostring) : Prop :=
  match Fields args with
  | [p0; p1] =>
      match Atoi p0, Atoi p1 with
      | Some min, Some max => (max <= min)%Z
      | _, _ => True
      end
  | _ => True
  end.

End Loop.

(** The expression [{{randInt A B}}] as a scenario writes it. *)
Module RandInt.

Import Go.

Definition keyword : gostring := str "{{randInt".

Definition arguments (A B : Z) : gostring :=
  str " " ++ Itoa A ++ str " " ++ Itoa B.

Definition expression (A B : Z) : gostring :=
  keyword ++ arguments A B ++ Loop.closing.

(** The oracle after one draw. *)
Definition afterDraw (r : Rand) : Rand :=
  {| draws := draws r; drawn := S (drawn r) |}.

End RandInt.

(* ================================================================== *)
(** * More of the standard library: trimming and splitting              *)
(* ================================================================== *)

Module GoText.

Import Go.

(** [unicode.IsSpace] at the end of a string, read off its bytes in
    reverse order: the width of the white-space rune the string ends
    with, [0] when it ends with none. *)
Definition spaceWidthRev (r : gostring) : nat :=
  match map nat_of_ascii (firstn 3 r) with
  | (9 | 10 | 11 | 12 | 13 | 32)%nat :: _ => 1
  | (133 | 160)%nat :: 194%nat :: _ => 2
  | 128%nat :: 154%nat :: 225%nat :: _ => 3
  | c :: 128%nat :: 226%nat :: _ =>
      if ((128 <=? c) && (c <=? 138))%nat || (c =? 168)%nat
         || (c =? 169)%nat || (c =? 175)%nat
      then 3 else 0
  | 159%nat :: 129%nat :: 226%nat :: _ => 3
  | 128%nat :: 128%nat :: 227%nat :: _ => 3
  | _ => 0
  end%nat.

(** The string without the white space found by [width] at its head;
    [skip] counts the bytes of a white-space rune still to be dropped. *)
Fixpoint trimWith (width : gostring -> nat) (skip : nat) (s : gostring)
  : gostring :=
  match s with
  | [] => []
  | _ :: s' =>
      match skip with
      | S k => trimWith width k s'
      | O =>
          match width s with
          | O => s
          | S w => trimWith width w s'
          end
      end
  end.

Definition TrimLeftSpace (s : gostring) : gostring := trimWith spaceWidth O s.

Definition TrimRightSpace (s : gostring) : gostring :=
  rev (trimWith spaceWidthRev O (rev s)).

(** [strings.TrimSpace(s)]: [s] without leading and trailing white
    space. *)
Definition TrimSpace (s : gostring) : gostring :=
  TrimRightSpace (TrimLeftSpace s).

(** [strings.Split(s, sep)] for a separator of one byte, as every call in
    the repository has it: the stretches between the separators, one more
    than there are separators. [cur] is the stretch being read, most
    recent byte first. *)
Fixpoint splitFrom (sep : ascii) (cur s : gostring) : list gostring :=
  match s with
  | [] => [rev cur]
  | c :: s' =>
      if Ascii.eqb c sep then rev cur :: splitFrom sep [] s'
      else splitFrom sep (c :: cur) s'
  end.

Definition Split (s : gostring) (sep : ascii) : list gostring :=
  splitFrom sep [] s.

(** [strings.SplitN(s, sep, 2)] for a separator of one byte: [s] cut at
    the first separator, or [s] alone when it has none. *)
Definition SplitN2 (s : gostring) (sep : ascii) : list gostring :=
  match Index s [sep] with
  | None => [s]
  | Some i => [firstn i s; skipn (S i) s]
  end.

End GoText.

(* ================================================================== *)
(** * internal/util: loading the credentials file                       *)
(* ================================================================== *)

Module Loader.

Import Go GoText Util.
Local Open Scope Z_scope.

(** What [os.Open] and the [bufio.Scanner] give: no file, or the lines of
    the file (line ends removed) and whether the scanner stopped on an
    error. *)
Record File := { lines : list gostring; scanFailed : bool }.

(** The errors of [LoadCredentials], by the [fmt.Errorf] that makes
    them. *)
Inductive loadError :=
| OpenFailed
| InvalidFormat (lineNum : Z) (line : gostring)
| EmptyField (lineNum : Z)
| ReadFailed
| NoCredentials.

(** A line that the loop skips: empty after trimming, or a comment. *)
Definition skipped (text : gostring) : bool :=
  isEmpty (TrimSpace text) || HasPrefix (TrimSpace text) (str "#").

(** The loop [for scanner.Scan() { ... }] on the lines still to read. *)
Fixpoint scanLines (todo : list gostring) (lineNum : Z)
  (credentials : list Credentials) : loadError + list Credentials :=
  match todo with
  | [] => inr credentials
  | text :: todo' =>
      let lineNum := lineNum + 1 in
      let line := TrimSpace text in
      if isEmpty line || HasPrefix line (str "#")
      then scanLines todo' lineNum credentials
      else
        match Split line ","%char with
        | [p0; p1] =>
            let username := TrimSpace p0 in
            let password := TrimSpace p1 in
            if isEmpty username || isEmpty password
            then inl (EmptyField lineNum)
            else scanLines todo' lineNum
                   (credentials
                    ++ [{| Username := username; Password := password |}])
        | _ => inl (InvalidFormat lineNum line)
        end
  end.

Definition LoadCredentials (file : option File)
  : loadError + CredentialsManager :=
  match file with
  | None => inl OpenFailed
  | Some f =>
      match scanLines (lines f) 0 [] with
      | inl e => inl e
      | inr credentials =>
          if scanFailed f then inl ReadFailed
          else if len credentials =? 0 then inl NoCredentials
          else inr {| credentials := credentials; current := 0 |}
      end
  end.

(** [Validate]: the error, if any. *)
Definition Validate (cm : CredentialsManager) (userCount : Z)
  : option gostring :=
  if len (credentials cm) <? userCount
  then Some (str "requested " ++ Itoa userCount
             ++ str " users but only " ++ Itoa (len (credentials cm))
             ++ str " credentials available. Users will be assigned credentials in round-robin fashion")
  else None.

(** [n] calls of [GetCredentials] in a row: the credentials handed out, in
    order, and the manager afterwards. *)
Fixpoint GetCredentialsTimes (n : nat) (cm : CredentialsManager)
  : option (list Credentials * CredentialsManager) :=
  match n with
  | O => Some ([], cm)
  | S n' =>
      match GetCredentials cm with
      | None => None
      | Some (creds, cm') =>
          match GetCredentialsTimes n' cm' with
          | None => None
          | Some (rest, cm'') => Some (creds :: rest, cm'')
          end
      end
  end.

(** [n] calls of [Allow] in a row: the answers, in order, and the limiter
    afterwards. [clock i] is the reading of the clock of call [i]. *)
Fixpoint AllowTimes (arch : GOARCH) (n : nat) (clock : nat -> Time)
  (i : nat)
  (rl : RateLimiter) : list bool * RateLimiter :=
  match n with
  | O => ([], rl)
  | S n' =>
      let '(ok, rl') := Allow arch (clock i) rl in
      let '(rest, rl'') := AllowTimes arch n' clock (S i) rl' in
      (ok :: rest, rl'')
  end.

End Loader.

(** What is said of a loaded credentials file. *)
Module Loaded.

Import Go Util Loader.

(** A credential with a user name and a password, neither with a comma in
    it. *)
Definition wellFormed (c : Credentials) : Prop :=
  Username c <> [] /\ Password c <> []
  /\ ~ In ","%char (Username c) /\ ~ In ","%char (Password c).

(** The credentials of a result of [LoadCredentials], if it is not an
    error. *)
Definition credentialsOf (r : loadError + CredentialsManager)
  : option (list Credentials) :=
  match r with
  | inl _ => None
  | inr cm => Some (credentials cm)
  end.

Definition fileOf (ls : list gostring) (failed : bool) : option File :=
  Some {| lines := ls; scanFailed := failed |}.

End Loaded.

(** A credentials file with a comment, a blank line and padded fields. *)
Module SampleFile.

Definition usersFile : list gostring :=
  [str "# test users"; str "a@x,pw1"; str ""; str "  b@x , pw2  "].

Definition brokenFile : list gostring :=
  [str "# test users"; str "a@x,pw1"; str "b@x;pw2"].

(** A clock that stands still. *)
Definition frozen : nat -> Go.Time := fun _ => 0%Z.

Definition threeUsers : Orchestrator.Config :=
  {| Orchestrator.Users := 3; Orchestrator.OutputFile := [] |}.

End SampleFile.

(* ================================================================== *)
(** * internal/reporter: totals and names                               *)
(* ================================================================== *)

Module Reporter.

Import Go Metrics.
Local Open Scope Z_scope.

(** The three sums of [PrintFinalReport] and of [SaveReport]. *)
Record Totals := { totalOK : Z; totalErr : Z; totalBytes : Z }.

(** The body of [for _, stat := range stats]. *)
Definition addStat (stat : ActionStats) (t : Totals) : Totals :=
  {| totalOK := wrap64 (totalOK t + TotalOK stat);
     totalErr := wrap64 (totalErr t + TotalErrors stat);
     totalBytes := wrap64 (totalBytes t + BytesTotal stat) |}.

(** The loop over the statistics; the order of the entries is that of
    the map. *)
Definition totals (stats : gmap gostring ActionStats) : Totals :=
  map_fold (fun _ stat t => addStat stat t)
    {| totalOK := 0; totalErr := 0; totalBytes := 0 |} stats.

(** [totalRequests := totalOK + totalErr] *)
Definition totalRequests (t : Totals) : Z :=
  wrap64 (totalOK t + totalErr t).

(** [truncateString(s, maxLen)]; the slice [s[:maxLen-3]] panics when
    [maxLen - 3] is negative. *)
Definition truncateString (s : gostring) (maxLen : Z) : option gostring :=
  if Util.len s <=? maxLen then Some s
  else if (maxLen - 3 <? 0) || (Util.len s <? maxLen - 3) then None
  else Some (firstn (Z.to_nat (maxLen - 3)) s ++ str "...").

End Reporter.

(** Counting what a schedule sends. *)
Module Sink.

Import Go Metrics.
Local Open Scope Z_scope.

(** The events the workers send in a schedule, taken or not. *)
Fixpoint sends (sched : list step) : list RequestMetric :=
  match sched with
  | [] => []
  | Send metric :: sched' => metric :: sends sched'
  | Receive :: sched' => sends sched'
  end.

(** The bytes read by the events of [evs] that bear the name [name]. *)
Definition bytesRead (name : gostring) (evs : list RequestMetric) : Z :=
  fold_right Z.add 0 (map BytesRead (Tally.named name evs)).

Definition bytesTotal (acts : gmap gostring ActionStats) (name : gostring)
  : Z :=
  match acts !! name with Some stats => BytesTotal stats | None => 0 end.

(** The successes among all events, and the bytes read by all. *)
Definition allSuccesses (evs : list RequestMetric) : nat :=
  length (List.filter isSuccess evs).

Definition allFailures (evs : list RequestMetric) : nat :=
  length (List.filter (fun m => negb (isSuccess m)) evs).

Definition allBytes (evs : list RequestMetric) : Z :=
  fold_right Z.add 0 (map BytesRead evs).

End Sink.

(** How far the aggregator has come in a sequence of events. *)
Module Progress.

Import Metrics.

(** The aggregator has drained the first [k] events of [evs] and the
    others are queued. *)
Definition drained (evs : list RequestMetric) (k : nat) (c : Collector)
  : Prop :=
  actions c = fold_left collectOne (firstn k evs) ∅
  /\ metrics c = skipn k evs.

(** The rows of a report that called [GetStats] when the first [k] events
    of [evs] were drained: a row for each action with an event among
    them and for no other; in a row, the success count as it was after
    some [k1 >= k] of the events and the error count as it was after some
    [k2 >= k] of them. The reads of a report take no lock, so nothing is
    said of the order of [k1] and [k2]. *)
Definition shows (evs : list RequestMetric) (k : nat)
  (rows : gmap gostring Orchestrator.Row) : Prop :=
  forall name,
    match rows !! name with
    | Some row =>
        In name (map Name (firstn k evs))
        /\ exists k1 k2,
             (k <= k1 <= length evs)%nat /\ (k <= k2 <= length evs)%nat
             /\ Orchestrator.shownOK row
                = Go.wrap64 (Z.of_nat (Tally.successes name (firstn k1 evs)))
             /\ Orchestrator.shownErr row
                = Go.wrap64 (Z.of_nat (Tally.failures name (firstn k2 evs)))
    | None => ~ In name (map Name (firstn k evs))
    end.

End Progress.

(* ================================================================== *)
(** * internal/script: templates and delays                             *)
(* ================================================================== *)

(** A template as a scenario writes it: text, and the placeholders that
    take no argument. *)
Module Template.

Import Go Script.

Inductive tag := UserId | EpochMs | PickMovies.

Inductive piece :=
| Text (t : gostring)
| Tag (g : tag).

Definition tagText (g : tag) : gostring :=
  match g with
  | UserId => str "{{userId}}"
  | EpochMs => str "{{epochms}}"
  | PickMovies => str "{{pick movies}}"
  end.

Definition renderPiece (p : piece) : gostring :=
  match p with
  | Text t => t
  | Tag g => tagText g
  end.

Definition render (ps : list piece) : gostring := flat_map renderPiece ps.

Definition plainPiece (p : piece) : bool :=
  match p with
  | Text t => Pieces.plain t
  | Tag _ => true
  end.

Definition isPick (p : piece) : bool :=
  match p with
  | Tag PickMovies => true
  | _ => false
  end.

(** What a piece becomes for a user, a reading of the clock and a
    movie. *)
Definition fill (userID : Z) (now : Time) (movie : gostring) (p : piece)
  : gostring :=
  match p with
  | Text t => t
  | Tag UserId => Itoa userID
  | Tag EpochMs => Itoa (UnixMilli now)
  | Tag PickMovies => movie
  end.

(** The piece [Tag g] replaced by the text [v]. *)
Definition subst (g : tag) (v : gostring) (p : piece) : piece :=
  match p with
  | Text t => Text t
  | Tag h =>
      match g, h with
      | UserId, UserId | EpochMs, EpochMs | PickMovies, PickMovies => Text v
      | _, _ => Tag h
      end
  end.

(** The movie of the draw that follows. *)
Definition nextMovie (r : Rand) : gostring :=
  nth (Z.to_nat (draws r (drawn r) mod 5)) movieList [].

End Template.

(** The expression [{{randDelay A B}}]. *)
Module RandDelay.

Import Go.

Definition keyword : gostring := str "{{randDelay".

Definition expression (A B : Z) : gostring :=
  keyword ++ RandInt.arguments A B ++ Loop.closing.

End RandDelay.

Module Delay.

Import Go Script.
Local Open Scope Z_scope.

Section Parser.

(** [time.ParseDuration]; [None] is an error. *)
Variable ParseDuration : gostring -> option Duration.

(** [GetDelay]; [rand.Int63n(n)] draws from [[0, n)] and panics for
    [n <= 0], as [rand.Intn] does. *)
Definition GetDelay (a : Action) : M Duration :=
  match (if negb (isEmpty (Delay a)) then ParseDuration (Delay a)
         else None) with
  | Some delay => ret delay
  | None =>
      if negb (isEmpty (DelayMin a)) && negb (isEmpty (DelayMax a))
      then
        match ParseDuration (DelayMin a), ParseDuration (DelayMax a) with
        | Some minDelay, Some maxDelay =>
            if minDelay <? maxDelay
            then
              let minNanos := minDelay in
              let maxNanos := maxDelay in
              let* randomNanos :=
                randIntn (wrap64 (wrap64 (maxNanos - minNanos) + 1)) in
              ret (wrap64 (randomNanos + minNanos))
            else ret 0
        | _, _ => ret 0
        end
      else ret 0
  end.

End Parser.

End Delay.

(* ================================================================== *)
(** * internal/worker: the request and the response                     *)
(* ================================================================== *)

(** [net/http]: headers and responses. *)
Module Http.

Import Go.

(** [http.Header] *)
Abbreviation Header := (gmap gostring (list gostring)).

Section Canonical.

(** [textproto.CanonicalMIMEHeaderKey], the form of a key under which
    [Set] stores and [Get] looks up. *)
Variable canonical : gostring -> gostring.

(** [h.Set(key, value)] ([Set_] here, the name being a keyword). *)
Definition Set_ (h : Header) (key value : gostring) : Header :=
  <[canonical key := [value]]> h.

(** [h.Get(key)]: the first value, the empty string when there is none. *)
Definition Get (h : Header) (key : gostring) : gostring :=
  match h !! canonical key with
  | Some (v :: _) => v
  | _ => []
  end.

End Canonical.

(** What the code reads of an [http.Response]: the status code, the
    headers ([Header_] here, the name being that of the type) and the
    bytes that [io.ReadAll] read of the body. *)
Record Response := {
  StatusCode : Z;
  Header_ : Header;
  Body : gostring
}.

End Http.

Module Exchange.

Import Go GoText Http Worker.
Local Open Scope Z_scope.

(** The header of [--login-header], [key: value]: what
    [strings.SplitN(w.loginHeader, ":", 2)] and the two [TrimSpace] give,
    [None] when no header is set. *)
Definition loginPair (loginHeader : gostring)
  : option (gostring * gostring) :=
  if isEmpty loginHeader then None
  else
    match SplitN2 loginHeader ":"%char with
    | [p0; p1] => Some (TrimSpace p0, TrimSpace p1)
    | _ => None
    end.

Definition withSession (w : Worker) (headers : gmap gostring gostring)
  (token : gostring) : Worker :=
  {| id := id w; rateLimiter := rateLimiter w;
     loginHeader := loginHeader w; sessionHeaders := headers;
     csrfToken := token; credentials := credentials w |}.

(** The check of the expected status in [executeAction]. *)
Definition statusError (expanded : Script.Action) (statusCode : Z)
  : gostring :=
  if (0 <? Script.ExpectStatus expanded)
     && negb (statusCode =? Script.ExpectStatus expanded)
  then str "expected status " ++ Itoa (Script.ExpectStatus expanded)
       ++ str ", got " ++ Itoa statusCode
  else [].

(** [recordMetric]: the event handed to [collector.Record]. *)
Definition recordMetric (action : Script.Action) (start end_ : Time)
  (statusCode bytesRead : Z) (errorMsg : gostring)
  : Metrics.RequestMetric :=
  {| Metrics.Name := Script.Name action;
     Metrics.Method := Script.Method action;
     Metrics.URL := Script.URL action;
     Metrics.StartTime := start;
     Metrics.EndTime := end_;
     Metrics.StatusCode := statusCode;
     Metrics.BytesRead := bytesRead;
     Metrics.Error := errorMsg |}.

(** The event of an action whose request got a response, and of one
    whose request failed with the error [err]. *)
Definition responseMetric (expanded : Script.Action) (start end_ : Time)
  (resp : Response) : Metrics.RequestMetric :=
  recordMetric expanded start end_ (StatusCode resp)
    (Util.len (Body resp)) (statusError expanded (StatusCode resp)).

Definition failureMetric (expanded : Script.Action) (start end_ : Time)
  (err : gostring) : Metrics.RequestMetric :=
  recordMetric expanded start end_ 0 0 err.

Section Canonical.

Variable canonical : gostring -> gostring.

(** [extractSessionHeaders] *)
Definition extractSessionHeaders (w : Worker) (resp : Response) : Worker :=
  let csrf := Get canonical (Header_ resp) (str "X-CSRF-Token") in
  let w :=
    if negb (isEmpty csrf)
    then withSession w (<[str "X-CSRF-Token" := csrf]> (sessionHeaders w))
           csrf
    else w in
  let authHeader := Get canonical (Header_ resp) (str "Authorization") in
  if negb (isEmpty authHeader)
  then withSession w (<[str "Authorization" := authHeader]>
                        (sessionHeaders w)) (csrfToken w)
  else w.

(** [executeAction], after the body of the response is read: the token
    of a login page, then the session headers. *)
Definition handleResponse (w : Worker) (expanded : Script.Action)
  (resp : Response) : Worker :=
  let w :=
    if Contains (Script.URL expanded) (str "sign_in")
       || Contains (Script.URL expanded) (str "login")
    then fst (extractCSRFTokenFromHTML w (Body resp))
    else w in
  extractSessionHeaders w resp.

(** The responses of a run of actions, handled one after the other. *)
Definition handleResponses (w : Worker)
  (exchanges : list (Script.Action * Response)) : Worker :=
  fold_left (fun w e => handleResponse w (fst e) (snd e)) exchanges w.

(** One iteration of the loop over [expandedAction.Headers]. *)
Definition setScriptHeader (h : Header) (entry : gostring * gostring)
  : Header :=
  if bool_decide (fst entry = str "Accept-Encoding") then h
  else Set_ canonical h (fst entry) (snd entry).

Definition setSessionHeader (h : Header) (entry : gostring * gostring)
  : Header :=
  Set_ canonical h (fst entry) (snd entry).

(** [executeAction], from the creation of the request to [client.Do]:
    the headers of the request. Go ranges over a map in an unspecified
    order; the model takes the entries in the order of [map_to_list]. *)
Definition requestHeaders (w : Worker) (expanded : Script.Action)
  : Header :=
  let h : Header := ∅ in
  let h :=
    if negb (isEmpty (Script.JSONBody expanded))
    then Set_ canonical h (str "Content-Type") (str "application/json")
    else h in
  let h :=
    fold_left setScriptHeader (map_to_list (Script.Headers expanded)) h in
  let h :=
    fold_left setSessionHeader (map_to_list (sessionHeaders w)) h in
  let h :=
    if negb (isEmpty (csrfToken w))
    then Set_ canonical h (str "X-CSRF-Token") (csrfToken w)
    else h in
  match loginPair (loginHeader w) with
  | Some (key, value) => Set_ canonical h key value
  | None => h
  end.

End Canonical.

(** Every header has one value, as [Set] leaves it. *)
Definition singleValued (h : Header) : Prop :=
  forall key values, h !! key = Some values -> exists v, values = [v].

(** A worker as [New] makes it. *)
Definition New (id_ : Z) (rps : Z) (now : Time) (loginHeader_ : gostring)
  (credentials_ : option Util.CredentialsManager) : Worker :=
  {| id := id_; rateLimiter := Util.NewRateLimiter rps now;
     loginHeader := loginHeader_; sessionHeaders := ∅;
     csrfToken := []; credentials := credentials_ |}.

End Exchange.

(** Exchanges and templates to try the properties on. *)
Module SampleExchange.

Import Go.
Local Open Scope Z_scope.

(** A canonical form that leaves a key as it is written. *)
Definition asWritten (key : gostring) : gostring := key.

(** A response that carries a token in its headers. *)
Definition tokenResponse : Http.Response :=
  {| Http.StatusCode := 200;
     Http.Header_ := {[ str "X-CSRF-Token" := [str "T1"] ]};
     Http.Body := [] |}.

(** A URL with the user id and a movie in it. *)
Definition catalog : list Template.piece :=
  [Template.Text (str "https://example/users/"); Template.Tag Template.UserId;
   Template.Text (str "/movies/"); Template.Tag Template.PickMovies].

(** Two requests, the first counted before the second is sent. *)
Definition twoPings : list Metrics.step :=
  [Metrics.Send (Sample.ping 0 1000000 200 []); Metrics.Receive;
   Metrics.Send (Sample.ping 2000000 3000000 500 [])].

(** A success of the action [name]. *)
Definition hit (name : gostring) : Metrics.RequestMetric :=
  {| Metrics.Name := name; Metrics.Method := str "GET";
     Metrics.URL := str "https://example/"; Metrics.StartTime := 0;
     Metrics.EndTime := 1000000; Metrics.StatusCode := 200;
     Metrics.BytesRead := 5; Metrics.Error := [] |}.

(** Four events of two actions, and a first report that reads its second
    row two events later than its first. *)
Definition interleaved : Orchestrator.Schedule :=
  {| Orchestrator.whileWorkersRun :=
       [Metrics.Send (hit (str "A")); Metrics.Send (hit (str "B"));
        Metrics.Send (hit (str "A")); Metrics.Send (hit (str "B"))];
     Orchestrator.beforePrint := 2;
     Orchestrator.duringPrint := fun k => if (k =? 2)%nat then 2%nat else O;
     Orchestrator.beforeSave := 0;
     Orchestrator.duringSave := fun _ => O |}.

End SampleExchange.

(** Pages with a token, as the three expressions read them. *)
Module CsrfPage.

Import Go Regexp.

(** The literal texts of the expressions. *)
Definition metaLit : gostring :=
  unq (str "<meta name='csrf-token' content='").
Definition inputLit : gostring := str "<input".
Definition nameLit : gostring := unq (str "name='authenticity_token'").
Definition valueLit : gostring := unq (str "value='").
Definition authLit : gostring := unq (str "authenticity_token'").

(** A token as the group of an expression takes it: not empty and with no
    double quote. *)
Definition isToken (tok : gostring) : Prop := tok <> [] /\ ~ In dquote tok.

(** The text [p] begins at the head of [s ++ ...] and nowhere later in
    [s]. *)
Definition onlyAtHead (p s : gostring) : Prop := Index (skipn 1 s) p = None.

(** A page whose first meta tag for the token is the literal followed by
    [tok] and a double quote. *)
Definition metaPage (pre tok post : gostring) : gostring :=
  pre ++ metaLit ++ tok ++ dquote :: post.

(** A tag from its value on: the literal, [tok], a double quote and
    [a3]. *)
Definition valueAttr (tok a3 : gostring) : gostring :=
  valueLit ++ tok ++ dquote :: a3.

(** A page whose first input tag reads: [a1], the name, [a2], the value
    [tok], [a3], and the [>] that closes it. *)
Definition inputPage (pre a1 a2 tok a3 post : gostring) : gostring :=
  pre ++ inputLit ++ a1 ++ (nameLit ++ a2 ++ valueAttr tok a3)
  ++ ">"%char :: post.

(** A page where the first instance of the name with its closing quote
    is followed, in its tag, by [a2], the value [tok] and [a3]. *)
Definition authPage (pre a2 tok a3 post : gostring) : gostring :=
  pre ++ authLit ++ (a2 ++ valueAttr tok a3) ++ ">"%char :: post.

(** No [>] in a text. *)
Definition inTag (s : gostring) : Prop := ~ In ">"%char s.

End CsrfPage.

(* ================================================================== *)
(** * Properties                                                        *)
(* ================================================================== *)

Local Open Scope Z_scope.

Section CredentialPool.

Import Go Util.
Local Open Scope Z_scope.

Lemma at_index_nth {A} (l : list A) (i : Z) :
  0 <= i < len l -> at_index l i = nth_error l (Z.to_nat i).
Proof.
  intros [Hlo Hhi]. unfold at_index.
  destruct (Z.ltb_spec i 0); [lia|].
  destruct (Z.leb_spec (len l) i); [lia|]. reflexivity.
Qed.

Lemma GetCredentials_keeps_list cm creds cm' :
  GetCredentials cm = Some (creds, cm') -> credentials cm' = credentials cm.
Proof.
  unfold GetCredentials. destruct (at_index _ _); [|discriminate].
  destruct (len _ =? 0); [discriminate|].
  intros [= _ <-]. reflexivity.
Qed.

Lemma runCall_keeps_list cm c : credentials (runCall cm c) = credentials cm.
Proof.
  destruct c as [|u]; simpl.
  - destruct (GetCredentials cm) as [[creds cm']|] eqn:E; [|reflexivity].
    eapply GetCredentials_keeps_list; eassumption.
  - unfold GetCredentialsForUser.
    destruct (len _ =? 0); [reflexivity|].
    destruct (at_index _ _); reflexivity.
Qed.

Lemma runCalls_keeps_list cs : forall cm,
  credentials (runCalls cm cs) = credentials cm.
Proof.
  induction cs as [|c cs IH]; intros cm; [reflexivity|].
  unfold runCalls in *; simpl. rewrite IH. apply runCall_keeps_list.
Qed.

Lemma GetCredentialsForUser_at (cm : CredentialsManager) (u : Z) creds :
  0 < len (credentials cm) -> 0 <= u ->
  nth_error (credentials cm) (Z.to_nat (u mod len (credentials cm)))
    = Some creds ->
  GetCredentialsForUser cm u = Some (creds, cm).
Proof.
  intros Hlen Hu E. unfold GetCredentialsForUser.
  destruct (Z.eqb_spec (len (credentials cm)) 0); [lia|].
  rewrite Z.rem_mod_nonneg by lia.
  rewrite at_index_nth by (apply Z.mod_pos_bound; exact Hlen).
  rewrite E. reflexivity.
Qed.

Lemma credential_exists (cm : CredentialsManager) (u : Z) :
  0 < len (credentials cm) ->
  exists creds,
    nth_error (credentials cm) (Z.to_nat (u mod len (credentials cm)))
      = Some creds.
Proof.
  intros Hlen.
  pose proof (Z.mod_pos_bound u _ Hlen) as Hidx.
  destruct (nth_error (credentials cm)
              (Z.to_nat (u mod len (credentials cm)))) as [creds|] eqn:E.
  - eauto.
  - apply nth_error_None in E. unfold len in *.
    remember (u mod Z.of_nat (length (credentials cm))) as k. lia.
Qed.

(** The user ids the orchestrator hands out are positive. *)
Lemma userIDs_positive (cfg : Orchestrator.Config) (u : Z) :
  In u (Orchestrator.userIDs cfg) -> 1 <= u.
Proof.
  unfold Orchestrator.userIDs. rewrite in_map_iff.
  intros (i & <- & _). lia.
Qed.

(** For a negative user id Go's remainder is negative and the index is out
    of range: the call panics. *)
Example GetCredentialsForUser_negative :
  GetCredentialsForUser Sample.twoCredentials (-1) = None.
Proof. reflexivity. Qed.

(** C7. With a loaded list of [N >= 1] credentials, the credential returned
    for a user id [u] (user ids are the positive numbers the orchestrator
    hands out) is the entry at index [u mod N]; the call leaves the manager
    as it was, and the answer is the same after any sequence of calls that
    other workers made on the shared manager before. *)
Theorem GetCredentialsForUser_mod (cm : CredentialsManager) (u : Z)
  (cs : list call) :
  (1 <= length (credentials cm))%nat ->
  0 <= u ->
  exists creds,
    nth_error (credentials cm) (Z.to_nat (u mod len (credentials cm)))
      = Some creds
    /\ GetCredentialsForUser cm u = Some (creds, cm)
    /\ GetCredentialsForUser (runCalls cm cs) u
       = Some (creds, runCalls cm cs).
Proof.
  intros HN Hu.
  assert (Hlen : 0 < len (credentials cm)) by (unfold len; lia).
  destruct (credential_exists cm u Hlen) as [creds E].
  exists creds. split; [exact E|]. split.
  - apply GetCredentialsForUser_at; assumption.
  - apply GetCredentialsForUser_at;
      rewrite ?runCalls_keeps_list; assumption.
Qed.

End CredentialPool.

Lemma GetCredentialsForUser_mod_witness :
  exists creds,
    nth_error (Util.credentials Sample.twoCredentials)
      (Z.to_nat (3 mod Util.len (Util.credentials Sample.twoCredentials)))
      = Some creds
    /\ Util.GetCredentialsForUser Sample.twoCredentials 3
       = Some (creds, Sample.twoCredentials)
    /\ Util.GetCredentialsForUser
         (Util.runCalls Sample.twoCredentials
            [Util.CallGetCredentials; Util.CallGetCredentialsForUser 2])
         3
       = Some (creds,
               Util.runCalls Sample.twoCredentials
                 [Util.CallGetCredentials;
                  Util.CallGetCredentialsForUser 2]).
Proof.
  apply (GetCredentialsForUser_mod Sample.twoCredentials 3
           [Util.CallGetCredentials; Util.CallGetCredentialsForUser 2]).
  - simpl. lia.
  - lia.
Defined.

Section Float64Sign.

Import Go.
Local Open Scope Z_scope.

(** Rounding keeps the sign. *)
Lemma round_aux_sign (s : bool) (m e : Z) (l : location) :
  match binary_round_aux 53 1024 s m e l with
  | S754_zero s' | S754_finite s' _ _ | S754_infinity s' => s' = s
  | S754_nan => True
  end.
Proof.
  unfold binary_round_aux.
  destruct (shr_fexp 53 1024 m e l) as [mrs' e'].
  destruct (shr_fexp 53 1024 _ e' loc_Exact) as [mrs'' e''].
  destruct (shr_m mrs''); [reflexivity| |exact I].
  destruct (e'' <=? 1024 - 53); reflexivity.
Qed.

Lemma round_sign (s : bool) (m : positive) (e : Z) :
  match binary_round 53 1024 s m e with
  | S754_zero s' | S754_finite s' _ _ | S754_infinity s' => s' = s
  | S754_nan => True
  end.
Proof.
  unfold binary_round. destruct (shl_align _ _ _) as [mz ez].
  apply round_aux_sign.
Qed.

Lemma Float64_notPositive (z : Z) : z <= 0 -> notPositive (Float64 z).
Proof.
  intros Hz. unfold Float64, binary_normalize. destruct z as [|p|p];
    [exact I | lia |].
  pose proof (round_sign true p 0) as H. unfold notPositive.
  destruct (binary_round 53 1024 true p 0); auto.
Qed.

Lemma Float64_notNegative (z : Z) : 0 <= z -> notNegative (Float64 z).
Proof.
  intros Hz. unfold Float64, binary_normalize. destruct z as [|p|p];
    [reflexivity | | lia].
  pose proof (round_sign false p 0) as H. unfold notNegative.
  destruct (binary_round 53 1024 false p 0); auto.
Qed.

Lemma fdiv_notPositive (x : float64) (m : positive) (e : Z) :
  notPositive x -> notPositive (fdiv x (S754_finite false m e)).
Proof.
  unfold fdiv. destruct x as [s|s| |s mx ex]; intros H.
  - exact I.
  - simpl in *. by subst.
  - exact I.
  - simpl in H. subst s. unfold SFdiv.
    destruct (SFdiv_core_binary 53 1024 (Z.pos mx) ex (Z.pos m) e)
      as [[mz ez] lz].
    pose proof (round_aux_sign (xorb true false) mz ez lz) as H.
    destruct (binary_round_aux 53 1024 (xorb true false) mz ez lz);
      simpl in *; auto.
Qed.

Lemma fadd_notPositive (x y : float64) :
  notPositive x -> notPositive y -> notPositive (fadd x y).
Proof.
  unfold fadd. destruct x as [sx|sx| |sx mx ex], y as [sy|sy| |sy my ey];
    intros Hx Hy; try exact I; try exact Hx; try exact Hy.
  - by destruct sx, sy.
  - simpl in Hx, Hy. subst sx sy. reflexivity.
  - simpl in Hx, Hy. subst sx sy. unfold SFadd.
    destruct (shl_align mx ex (Z.min ex ey)) as [a ea].
    destruct (shl_align my ey (Z.min ex ey)) as [b eb].
    change (cond_Zopp true (Z.pos (fst (a, ea)))
            + cond_Zopp true (Z.pos (fst (b, eb))))
      with (Z.neg (a + b)).
    unfold binary_normalize.
    pose proof (round_sign true (a + b) (Z.min ex ey)) as H.
    destruct (binary_round 53 1024 true (a + b) (Z.min ex ey));
      simpl in *; auto.
Qed.

Lemma fmul_notPositive (x y : float64) :
  notPositive x -> notNegative y -> notPositive (fmul x y).
Proof.
  unfold fmul. destruct x as [sx|sx| |sx mx ex], y as [sy|sy| |sy my ey];
    intros Hx Hy; try exact I; simpl in Hx, Hy; subst;
    try reflexivity.
  unfold SFmul.
  pose proof (round_aux_sign (xorb true false) (Z.pos (mx * my))
                (ex + ey) loc_Exact) as H.
  destruct (binary_round_aux 53 1024 (xorb true false)
              (Z.pos (mx * my)) (ex + ey) loc_Exact); simpl in *; auto.
Qed.

(** The [int] of a number that is not above zero is not above zero, on
    either processor. *)
Lemma toInt_notPositive (arch : GOARCH) (x : float64) :
  notPositive x -> toInt arch x <= 0.
Proof.
  assert (Hmin : minInt64 <= 0) by (unfold minInt64; lia).
  destruct x as [s|s| |s m e]; intros Hx.
  - simpl. lia.
  - simpl in *. subst s. destruct arch; simpl; lia.
  - simpl. destruct arch; lia.
  - simpl in Hx. subst s. unfold toInt.
    assert (Hmag : 0 <= (if 0 <=? e then Z.pos m * 2 ^ e
                         else Z.pos m / 2 ^ (- e))).
    { destruct (Z.leb_spec 0 e).
      - apply Z.mul_nonneg_nonneg; [lia|]. apply Z.pow_nonneg. lia.
      - apply Z.div_pos; [lia|]. apply Z.pow_pos_nonneg; lia. }
    cbv zeta.
    destruct ((minInt64 <=? - (if 0 <=? e then Z.pos m * 2 ^ e
                                else Z.pos m / 2 ^ (- e)))
              && (- (if 0 <=? e then Z.pos m * 2 ^ e
                     else Z.pos m / 2 ^ (- e)) <=? maxInt64)); [lia|].
    destruct arch; simpl; lia.
Qed.

Lemma Seconds_notPositive (d : Duration) : d <= 0 -> notPositive (Seconds d).
Proof.
  intros Hd. unfold Seconds. cbv zeta. apply fadd_notPositive.
  - apply Float64_notPositive. unfold Second.
    apply Z.quot_le_upper_bound; lia.
  - change (Float64 1000000000)
      with (S754_finite false 8388608000000000 (-23)).
    apply fdiv_notPositive, Float64_notPositive.
    pose proof (Z.rem_nonpos d Second ltac:(unfold Second; lia) Hd). lia.
Qed.

End Float64Sign.

Section TokenBucket.

Import Go Util.
Local Open Scope Z_scope.

(** At rate 0 the product is a zero, or not a number: no token is
    added. *)
Lemma tokensToAdd_zero_rate (arch : GOARCH) (elapsed : Duration) :
  tokensToAdd arch elapsed 0 <= 0.
Proof.
  unfold tokensToAdd, fmul. change (Float64 0) with (S754_zero false).
  assert (Hmin : minInt64 <= 0) by (unfold minInt64; lia).
  destruct (Seconds elapsed) as [s|s| |s m e]; simpl;
    destruct arch; lia.
Qed.

Lemma Allow_empty_bucket (arch : GOARCH) (now : Time) (rl : RateLimiter) :
  rate rl = 0 -> tokens rl = 0 -> Allow arch now rl = (false, rl).
Proof.
  intros Hrate Htok. unfold Allow. rewrite Hrate.
  pose proof (tokensToAdd_zero_rate arch (Sub now (lastTime rl))) as H.
  destruct (Z.ltb_spec 0 (tokensToAdd arch (Sub now (lastTime rl)) 0));
    [lia|].
  rewrite Htok. reflexivity.
Qed.

Lemma Wait_empty_bucket (arch : GOARCH) (clock : nat -> Time)
  (rl : RateLimiter) :
  rate rl = 0 -> tokens rl = 0 ->
  forall fuel i, Wait arch fuel clock i rl = None.
Proof.
  intros Hrate Htok. induction fuel as [|fuel IH]; intros i; simpl.
  - reflexivity.
  - rewrite (Allow_empty_bucket _ _ _ Hrate Htok). apply IH.
Qed.

(** C1, as the code has it. A limiter made with [R = 0] has an empty bucket
    of capacity 0 that no refill fills: every [Allow] answers [false] and
    leaves the limiter as it was (no token is consumed), and [Wait] has not
    returned after any number of rounds of its loop, whatever the clock
    reads and on either processor. [R = 0] is not an unlimited mode. *)
Theorem Wait_zero_rate_never_returns (arch : GOARCH) (t0 : Time)
  (clock : nat -> Time) (i fuel : nat) :
  Allow arch (clock i) (NewRateLimiter 0 t0) = (false, NewRateLimiter 0 t0)
  /\ Wait arch fuel clock i (NewRateLimiter 0 t0) = None.
Proof.
  split.
  - apply Allow_empty_bucket; reflexivity.
  - apply Wait_empty_bucket; reflexivity.
Qed.

(** C1 fails: with readings of the clock 10 ms apart, [Wait] on a limiter
    made with [R = 0] at time 0 never returns. *)
Lemma Wait_zero_rate_blocks :
  ~ exists arch fuel r,
      Wait arch fuel (fun i => Z.of_nat i * (10 * Millisecond)) 0
        (NewRateLimiter 0 0) = Some r.
Proof.
  intros (arch & fuel & r & H).
  rewrite Wait_empty_bucket in H by reflexivity. discriminate.
Qed.

End TokenBucket.

Section Aggregator.

Import Go Metrics Tally.
Local Open Scope Z_scope.

Lemma wrap64_small (z : Z) : minInt64 <= z <= maxInt64 -> wrap64 z = z.
Proof.
  unfold minInt64, maxInt64, wrap64. intros H.
  rewrite Z.mod_small by lia. lia.
Qed.

Lemma wrap64_add_l (a b : Z) : wrap64 (wrap64 a + b) = wrap64 (a + b).
Proof.
  unfold wrap64.
  replace ((a + 2 ^ 63) mod 2 ^ 64 - 2 ^ 63 + b + 2 ^ 63)
    with ((a + 2 ^ 63) mod 2 ^ 64 + b) by lia.
  rewrite Zplus_mod_idemp_l. f_equal. f_equal. lia.
Qed.

Lemma statsFor_collectOne_same acts m :
  statsFor (collectOne acts m) (Name m) = update (statsFor acts (Name m)) m.
Proof. unfold collectOne, statsFor at 1. by rewrite lookup_insert_eq. Qed.

Lemma statsFor_collectOne_other acts m name :
  Name m ≠ name -> statsFor (collectOne acts m) name = statsFor acts name.
Proof.
  intros Hne. unfold collectOne, statsFor.
  by rewrite lookup_insert_ne.
Qed.

Lemma isSuccess_spec m :
  isSuccess m = true
  <-> Error m = [] /\ 200 <= StatusCode m < 400.
Proof.
  unfold isSuccess, isEmpty. destruct (Error m) as [|c e]; simpl.
  - rewrite andb_true_iff, Z.leb_le, Z.ltb_lt. intuition lia.
  - split; [discriminate | intros [H _]; discriminate].
Qed.

(** One event drained: how it is classified, and what becomes of the two
    counters, of the histogram and of the byte total of its action. *)
Lemma collectOne_counters (acts : gmap gostring ActionStats)
  (m : RequestMetric) :
  let before := statsFor acts (Name m) in
  let after := statsFor (collectOne acts m) (Name m) in
  (isSuccess m = true <-> Error m = [] /\ 200 <= StatusCode m < 400)
  /\ (if isSuccess m
      then TotalOK after = wrap64 (TotalOK before + 1)
           /\ TotalErrors after = TotalErrors before
           /\ Histogram after
              = fst (Hdr.RecordValue (Histogram before)
                       (Z.quot (Sub (EndTime m) (StartTime m)) 1000))
      else TotalErrors after = wrap64 (TotalErrors before + 1)
           /\ TotalOK after = TotalOK before
           /\ Histogram after = Histogram before)
  /\ BytesTotal after = wrap64 (BytesTotal before + BytesRead m).
Proof.
  intros before after. subst before after.
  rewrite statsFor_collectOne_same.
  split; [apply isSuccess_spec|].
  unfold update. destruct (isSuccess m); simpl; auto.
Qed.

Lemma okCount_statsFor acts name :
  okCount acts name = TotalOK (statsFor acts name).
Proof. unfold okCount, statsFor. destruct (acts !! name); reflexivity. Qed.

Lemma errCount_statsFor acts name :
  errCount acts name = TotalErrors (statsFor acts name).
Proof. unfold errCount, statsFor. destruct (acts !! name); reflexivity. Qed.

Lemma fold_collectOne_snoc evs m acts :
  fold_left collectOne (evs ++ [m]) acts
  = collectOne (fold_left collectOne evs acts) m.
Proof. by rewrite fold_left_app. Qed.

Lemma named_snoc name evs m :
  named name (evs ++ [m])
  = named name evs ++ (if bool_decide (Name m = name) then [m] else []).
Proof. unfold named. rewrite List.filter_app. reflexivity. Qed.

(** Both counters of an action, after the aggregator has drained [evs]
    into an empty map: the tallies of the events of that name, in 64-bit
    arithmetic. *)
Lemma counters_after_drain name evs :
  let acts := fold_left collectOne evs ∅ in
  okCount acts name = wrap64 (Z.of_nat (successes name evs))
  /\ errCount acts name = wrap64 (Z.of_nat (failures name evs)).
Proof.
  simpl. rewrite okCount_statsFor, errCount_statsFor.
  induction evs as [|m evs IH] using rev_ind.
  - split; reflexivity.
  - rewrite fold_collectOne_snoc. unfold successes, failures in *.
    rewrite named_snoc, !List.filter_app, !length_app.
    case_bool_decide as Hname.
    + subst name. rewrite statsFor_collectOne_same.
      destruct IH as [IHok IHerr]. unfold update. simpl.
      destruct (isSuccess m); simpl; rewrite ?Nat.add_0_r.
      * rewrite IHok, wrap64_add_l. split; [f_equal; lia | exact IHerr].
      * rewrite IHerr, wrap64_add_l. split; [exact IHok | f_equal; lia].
    + rewrite statsFor_collectOne_other by exact Hname.
      simpl. rewrite !Nat.add_0_r. exact IH.
Qed.

Lemma filter_split_length {A} (f : A -> bool) (l : list A) :
  (length (List.filter f l) + length (List.filter (fun x => negb (f x)) l)
   = length l)%nat.
Proof.
  induction l as [|x l IH]; simpl; [reflexivity|].
  destruct (f x); simpl; lia.
Qed.

Lemma named_length name evs : (length (named name evs) <= length evs)%nat.
Proof. unfold named. apply List.filter_length_le. Qed.

(** The aggregator takes the events in the order they were queued, and
    [Stop] makes it take all that are left: at the end it has drained the
    events queued at the start and then every event the sink took. *)
Lemma Stop_run_drains sched : forall c,
  actions (Stop (run c sched))
  = fold_left collectOne (metrics c ++ accepted c sched) (actions c).
Proof.
  induction sched as [|s sched IH]; intros c.
  - simpl. by rewrite app_nil_r.
  - change (run c (s :: sched)) with (run (runStep c s) sched).
    rewrite IH. destruct s as [m|]; simpl.
    + unfold Record_.
      destruct (Z.of_nat (length (metrics c)) <? capacity); simpl.
      * by rewrite <- app_assoc.
      * reflexivity.
    + destruct c as [[|m0 rest] acts]; reflexivity.
Qed.

Lemma accepted_length sched : forall c,
  (length (accepted c sched) <= length sched)%nat.
Proof.
  induction sched as [|s sched IH]; intros c; simpl; [lia|].
  destruct s as [m|].
  - destruct (snd (Record_ c m)); simpl;
      specialize (IH (fst (Record_ c m))); lia.
  - specialize (IH (receive c)). lia.
Qed.

(** C6. Workers send events and the aggregator receives them in any
    interleaving; the sink is then closed and drained. For every action
    name, the success count plus the error count equals the number of
    events of that name that the sink took (those not dropped): each
    drained event raises exactly one of the two counters. The bound keeps
    the 64-bit counters from wrapping. *)
Theorem ok_plus_err_counts_accepted (sched : list step) (name : gostring) :
  Z.of_nat (length sched) < 2 ^ 63 ->
  let final := actions (Stop (run NewCollector sched)) in
  okCount final name + errCount final name
  = Z.of_nat (length (named name (accepted NewCollector sched))).
Proof.
  intros Hbound final. subst final. rewrite Stop_run_drains. simpl.
  destruct (counters_after_drain name (accepted NewCollector sched))
    as [Hok Herr].
  simpl in Hok, Herr. rewrite Hok, Herr.
  pose proof (accepted_length sched NewCollector) as Hacc.
  pose proof (named_length name (accepted NewCollector sched)) as Hnamed.
  pose proof (filter_split_length isSuccess
                (named name (accepted NewCollector sched))) as Hsplit.
  unfold successes, failures in *.
  rewrite !wrap64_small by (unfold minInt64, maxInt64; lia).
  lia.
Qed.

End Aggregator.

Lemma ok_plus_err_counts_accepted_witness :
  Metrics.okCount
    (Metrics.actions
       (Metrics.Stop
          (Metrics.run Metrics.NewCollector
             [Metrics.Send (Sample.ping 0 1000 200 []);
              Metrics.Receive;
              Metrics.Send (Sample.ping 0 1000 500 []);
              Metrics.Send (Sample.ping 0 1000 0 (str "timeout"))])))
    (str "Ping")
  + Metrics.errCount
      (Metrics.actions
         (Metrics.Stop
            (Metrics.run Metrics.NewCollector
               [Metrics.Send (Sample.ping 0 1000 200 []);
                Metrics.Receive;
                Metrics.Send (Sample.ping 0 1000 500 []);
                Metrics.Send (Sample.ping 0 1000 0 (str "timeout"))])))
      (str "Ping")
  = 3.
Proof.
  apply (ok_plus_err_counts_accepted
           [Metrics.Send (Sample.ping 0 1000 200 []);
            Metrics.Receive;
            Metrics.Send (Sample.ping 0 1000 500 []);
            Metrics.Send (Sample.ping 0 1000 0 (str "timeout"))]
           (str "Ping")).
  simpl. lia.
Defined.

Section CsrfToken.

Import Go Regexp Worker.

Lemma FindStringSubmatch_shape (re : Regexp) : forall s l,
  FindStringSubmatch re s = Some l -> exists whole group, l = [whole; group].
Proof.
  induction s as [|c s IH]; intros l; simpl.
  - destruct (matchHere re []) as [[n group]|]; [|discriminate].
    intros [= <-]. eauto.
  - destruct (matchHere re (c :: s)) as [[n group]|]; [|apply IH].
    intros [= <-]. eauto.
Qed.

Lemma submatch_found re s whole group :
  FindStringSubmatch re s = Some [whole; group] -> submatch re s = Some group.
Proof. unfold submatch. intros ->. reflexivity. Qed.

Lemma submatch_none re s :
  FindStringSubmatch re s = None -> submatch re s = None.
Proof. unfold submatch. intros ->. reflexivity. Qed.

(** Scenario S2: the token of the login page. *)
Example extract_login_page :
  csrfToken (fst (extractCSRFTokenFromHTML (Scenario.freshWorker 1)
                    Scenario.loginPage))
  = str "TKN1".
Proof. vm_compute. reflexivity. Qed.

(** A page with both a meta tag and a form input: the meta tag wins and
    the other two expressions are not tried. A page with only the input:
    the second expression gives the token. *)
Example extract_first_wins :
  let both :=
    unq (str "<meta name='csrf-token' content='M1'><input type='hidden' name='authenticity_token' value='F2'>") in
  let input :=
    unq (str "<form><input type='hidden' name='authenticity_token' value='F2'></form>") in
  (csrfToken (fst (extractCSRFTokenFromHTML (Scenario.freshWorker 1) both)),
   snd (extractCSRFTokenFromHTML (Scenario.freshWorker 1) both))
  = (str "M1", [metaPattern])
  /\ (csrfToken (fst (extractCSRFTokenFromHTML (Scenario.freshWorker 1)
                        input)),
      snd (extractCSRFTokenFromHTML (Scenario.freshWorker 1) input))
     = (str "F2", [metaPattern; formPattern]).
Proof. split; vm_compute; reflexivity. Qed.

(** C10. The body of a request. A JSON body, when there is one, is sent
    as it is, whatever the token. Otherwise a form body is sent: verbatim,
    [CSRF_TOKEN_PLACEHOLDER] included, when the worker's token is empty,
    and with every [CSRF_TOKEN_PLACEHOLDER] replaced by the URL-encoded
    token when the token is not empty. With neither body there is none. *)
Theorem requestBody_csrf_placeholder (w : Worker)
  (expanded : Script.Action) :
  (Script.JSONBody expanded <> [] ->
   requestBody w expanded = Some (Script.JSONBody expanded))
  /\ (Script.JSONBody expanded = [] -> Script.Body expanded <> [] ->
      csrfToken w = [] ->
      requestBody w expanded = Some (Script.Body expanded))
  /\ (Script.JSONBody expanded = [] -> Script.Body expanded <> [] ->
      csrfToken w <> [] ->
      requestBody w expanded
      = Some (ReplaceAll (Script.Body expanded)
                (str "CSRF_TOKEN_PLACEHOLDER")
                (QueryEscape (csrfToken w))))
  /\ (Script.JSONBody expanded = [] -> Script.Body expanded = [] ->
      requestBody w expanded = None).
Proof.
  unfold requestBody.
  destruct (Script.JSONBody expanded) as [|j js];
    destruct (Script.Body expanded) as [|b bs];
    destruct (csrfToken w) as [|t ts]; simpl; repeat split;
    intros; congruence.
Qed.

(** Scenario S2, second request: before a token is known the placeholder
    goes out as it is; with the token [TKN1] it is replaced. *)
Example form_body_placeholder :
  requestBody (Scenario.freshWorker 1)
    (Scenario.formPost (str "https://example/submit")
       (str "authenticity_token=CSRF_TOKEN_PLACEHOLDER"))
  = Some (str "authenticity_token=CSRF_TOKEN_PLACEHOLDER")
  /\ requestBody (withToken (Scenario.freshWorker 1) (str "TKN1"))
       (Scenario.formPost (str "https://example/submit")
          (str "authenticity_token=CSRF_TOKEN_PLACEHOLDER"))
     = Some (str "authenticity_token=TKN1").
Proof. split; vm_compute; reflexivity. Qed.

End CsrfToken.

Section Shutdown.

Import Metrics Orchestrator.

(** In every run the collector is stopped after the reports are made: the
    deferred [Stop] is the last call of [Run]. *)
Lemma Run_stops_collector_last (cfg : Config) :
  exists before between,
    Run cfg = before ++ [PrintFinalReport] ++ between ++ [CollectorStop].
Proof.
  unfold Run, RunBody.
  destruct (Go.isEmpty (OutputFile cfg)); simpl.
  - exists [CollectorStart; StartLiveReporting; WithTimeout; StartWorkers;
            AwaitDeadline; WaitWorkers], [Cancel]. reflexivity.
  - exists [CollectorStart; StartLiveReporting; WithTimeout; StartWorkers;
            AwaitDeadline; WaitWorkers], [SaveReport; Cancel]. reflexivity.
Qed.

(** C3 on a run whose last event is still queued when the workers have
    returned. [Run] prints and saves the report and only then, on its
    return, stops the collector: the event was taken by the sink and is
    counted in the end, and neither report has it. *)
Theorem Run_reports_before_drain :
  let sys := runSystem Scenario.withOutputFile Scenario.lastEventQueued in
  Run Scenario.withOutputFile
  = [CollectorStart; StartLiveReporting; WithTimeout; StartWorkers;
     AwaitDeadline; WaitWorkers; PrintFinalReport; SaveReport; Cancel;
     CollectorStop]
  /\ accepted NewCollector (whileWorkersRun Scenario.lastEventQueued)
     = [Sample.ping 0 1000000 200 []]
  /\ printed sys = Some ∅
  /\ saved sys = Some ∅
  /\ okCount (actions (collector sys)) (str "Ping") = 1.
Proof. vm_compute. repeat split; reflexivity. Qed.

End Shutdown.

Section CredentialPlaceholders.

Import Go Pieces Worker.

Lemma HasPrefix_cons (p c : ascii) (s old : gostring) :
  HasPrefix (c :: s) (p :: old) = Ascii.eqb p c && HasPrefix s old.
Proof. reflexivity. Qed.

Lemma HasPrefix_not_open (c : ascii) (s old : gostring) :
  isOpen c = false -> HasPrefix (c :: s) ("{"%char :: old) = false.
Proof.
  unfold isOpen. intros H.
  rewrite HasPrefix_cons, Ascii.eqb_sym, H. reflexivity.
Qed.

Lemma replaceFrom_cons (old new : gostring) (c : ascii) (s : gostring) :
  replaceFrom old new O (c :: s)
  = if HasPrefix (c :: s) old
    then new ++ replaceFrom old new (Nat.pred (length old)) s
    else c :: replaceFrom old new O s.
Proof. reflexivity. Qed.

Lemma tag_shape (f : field) :
  exists old, tag f = "{"%char :: "{"%char :: old.
Proof. destruct f; eexists; reflexivity. Qed.

(** A stretch of plain text is copied: no instance of a placeholder starts
    in it. *)
Lemma replaceFrom_plain (f : field) (v : gostring) :
  forall t rest,
    plain t = true ->
    replaceFrom (tag f) v O (t ++ rest) = t ++ replaceFrom (tag f) v O rest.
Proof.
  destruct (tag_shape f) as [old ->].
  induction t as [|c t IH]; intros rest Hplain; [reflexivity|].
  simpl in Hplain.
  rewrite <- !app_comm_cons, replaceFrom_cons.
  destruct (isOpen c) eqn:Hc.
  - destruct t as [|c2 t']; [discriminate|].
    apply andb_true_iff in Hplain as [Hc2 Ht].
    apply negb_true_iff in Hc2.
    rewrite HasPrefix_cons, <- app_comm_cons,
      (HasPrefix_not_open c2 _ _ Hc2), andb_false_r.
    f_equal. rewrite app_comm_cons. apply IH. exact Ht.
  - rewrite (HasPrefix_not_open c _ _ Hc). f_equal. apply IH. exact Hplain.
Qed.

(** A placeholder is replaced when it is the one looked for, and copied
    when it is another one. *)
Lemma replaceFrom_field (f g : field) (v rest : gostring) :
  replaceFrom (tag f) v O (tag g ++ rest)
  = renderPiece (subst f v (Field g)) ++ replaceFrom (tag f) v O rest.
Proof. destruct f, g; reflexivity. Qed.

Lemma ReplaceAll_pieces (f : field) (v : gostring) (ps : list piece) :
  forallb plainPiece ps = true ->
  ReplaceAll (render ps) (tag f) v = render (map (subst f v) ps).
Proof.
  intros Hps.
  assert (Hdef : forall s, ReplaceAll s (tag f) v = replaceFrom (tag f) v O s)
    by (intros s; destruct f; reflexivity).
  rewrite Hdef. clear Hdef.
  induction ps as [|p ps IH]; [reflexivity|].
  simpl in Hps. apply andb_true_iff in Hps as [Hp Hps].
  change (render (p :: ps)) with (renderPiece p ++ render ps).
  change (render (map (subst f v) (p :: ps)))
    with (renderPiece (subst f v p) ++ render (map (subst f v) ps)).
  destruct p as [t|g].
  - simpl. rewrite replaceFrom_plain by exact Hp. by rewrite IH.
  - change (renderPiece (Field g)) with (tag g).
    rewrite replaceFrom_field. by rewrite IH.
Qed.

Lemma braceFree_plain (v : gostring) : braceFree v = true -> plain v = true.
Proof.
  induction v as [|c v IH]; [reflexivity|]. simpl.
  intros H. apply andb_true_iff in H as [Hc Hv].
  apply negb_true_iff in Hc. rewrite Hc. by apply IH.
Qed.

Lemma subst_plain (f : field) (v : gostring) (ps : list piece) :
  braceFree v = true ->
  forallb plainPiece ps = true ->
  forallb plainPiece (map (subst f v) ps) = true.
Proof.
  intros Hv. induction ps as [|p ps IH]; [reflexivity|]. simpl.
  intros H. apply andb_true_iff in H as [Hp Hps].
  rewrite IH by exact Hps. rewrite andb_true_r.
  destruct p as [t|g]; [exact Hp|].
  destruct f, g; simpl; auto using braceFree_plain.
Qed.

Lemma render_filled (creds : Util.Credentials) (ps : list piece) :
  render (map (subst Email (Util.Username creds))
            (map (subst Password (Util.Password creds))
               (map (subst Username (Util.Username creds)) ps)))
  = flat_map (fill creds) ps.
Proof.
  induction ps as [|p ps IH]; [reflexivity|].
  simpl. unfold render in IH. rewrite <- IH.
  destruct p as [t|[]]; reflexivity.
Qed.

(** On a body made of plain text and placeholders, with a credential that
    has no opening brace in it, the three replacements put the credential
    in the place of every placeholder and leave the rest as it is. *)
Lemma replaceCredentialPlaceholders_pieces (creds : Util.Credentials)
  (ps : list piece) :
  braceFree (Util.Username creds) = true ->
  braceFree (Util.Password creds) = true ->
  forallb plainPiece ps = true ->
  replaceCredentialPlaceholders (render ps) creds
  = flat_map (fill creds) ps.
Proof.
  intros HU HP Hps.
  assert (Hall : replaceCredentialPlaceholders (render ps) creds
                 = ReplaceAll
                     (ReplaceAll
                        (ReplaceAll (render ps) (tag Username)
                           (Util.Username creds))
                        (tag Password) (Util.Password creds))
                     (tag Email) (Util.Username creds)).
  { unfold replaceCredentialPlaceholders.
    destruct (render ps); reflexivity. }
  rewrite Hall.
  rewrite (ReplaceAll_pieces Username) by exact Hps.
  rewrite (ReplaceAll_pieces Password) by (apply subst_plain; assumption).
  rewrite (ReplaceAll_pieces Email)
    by (apply subst_plain; [|apply subst_plain]; assumption).
  apply render_filled.
Qed.

(** C4, as the code has it. For a worker with a loaded credential pool
    (at least one entry, user id not negative), the credential of the
    worker, entry [id mod N], is put into the form body and the JSON body
    of the expanded action and nowhere else: the URL and the header values
    stay as the template expansion left them. In a body made of plain text
    and placeholders, with a credential free of opening braces, every
    [{{username}}] and every [{{email}}] becomes the user name and every
    [{{password}}] the password. *)
Theorem expandedAction_credentials (w : Worker) (now : Time)
  (action : Script.Action) (rng : Rand) (cm : Util.CredentialsManager) :
  credentials w = Some cm ->
  (1 <= length (Util.credentials cm))%nat ->
  0 <= id w ->
  exists creds,
    nth_error (Util.credentials cm)
      (Z.to_nat (id w mod Util.len (Util.credentials cm))) = Some creds
    /\ match Script.ExpandTemplates now action (id w) rng,
             expandedAction w now action rng with
       | Script.Done (e, r), Script.Done (a, r') =>
           r' = r
           /\ Script.URL a = Script.URL e
           /\ Script.Headers a = Script.Headers e
           /\ Script.Body a
              = replaceCredentialPlaceholders (Script.Body e) creds
           /\ Script.JSONBody a
              = replaceCredentialPlaceholders (Script.JSONBody e) creds
           /\ (braceFree (Util.Username creds) = true ->
               braceFree (Util.Password creds) = true ->
               forall ps, forallb plainPiece ps = true ->
                 (Script.Body e = render ps ->
                  Script.Body a = flat_map (fill creds) ps)
                 /\ (Script.JSONBody e = render ps ->
                     Script.JSONBody a = flat_map (fill creds) ps))
       | Script.Panicked, Script.Panicked => True
       | Script.OutOfFuel, Script.OutOfFuel => True
       | _, _ => False
       end.
Proof.
  intros Hcm HN Hid.
  assert (Hlen : 0 < Util.len (Util.credentials cm))
    by (unfold Util.len; lia).
  destruct (credential_exists cm (id w) Hlen) as [creds E].
  exists creds. split; [exact E|].
  unfold expandedAction, Script.bind.
  destruct (Script.ExpandTemplates now action (id w) rng)
    as [[e r]| |]; [|exact I|exact I].
  rewrite Hcm, (GetCredentialsForUser_at cm (id w) creds Hlen Hid E).
  unfold Script.ret. simpl.
  repeat split; try reflexivity.
  - intros ->. by apply replaceCredentialPlaceholders_pieces.
  - intros ->. by apply replaceCredentialPlaceholders_pieces.
Qed.

(** C4 fails: for user 1 of scenario S4, the placeholders in the form body
    are replaced and those in the URL and in a header value are not. *)
Lemma expandedAction_leaves_url_and_headers :
  exists a r,
    expandedAction ScenarioS4.worker1 0 ScenarioS4.profile
      ScenarioS4.noDraws = Script.Done (a, r)
    /\ Script.Body a = str "u=b@x&p=pw2&e=b@x"
    /\ Script.URL a = str "https://example/users/{{username}}"
    /\ Script.Headers a !! str "X-User" = Some (str "{{username}}").
Proof.
  eexists _, _. split; [vm_compute; reflexivity|].
  repeat split; vm_compute; reflexivity.
Qed.

End CredentialPlaceholders.
Section HistogramRange.

Import Go Hdr Trackable.

Lemma New_collectorShape : collectorShape (New 1 60000000 3).
Proof. repeat split; vm_compute; reflexivity. Qed.

Lemma wrap32_small (z : Z) : - 2 ^ 31 <= z < 2 ^ 31 -> wrap32 z = z.
Proof. unfold wrap32. intros H. rewrite Z.mod_small by lia. lia. Qed.

Lemma lor_2047 (v : Z) : Z.lor v 2047 = v + 2047 - v mod 2048.
Proof.
  pose proof (Z.add_lor_land v 2047) as H.
  change 2047 with (Z.ones 11) in H at 2.
  rewrite Z.land_ones in H by lia.
  change (2 ^ 11) with 2048 in H. lia.
Qed.

Lemma countsIndexFor_nonneg (h : Histogram) (v : Z) :
  collectorShape h -> 0 <= v < 2 ^ 63 ->
  let L := Z.max (Z.log2 v) 10 in
  countsIndexFor h v = (L - 10) * 1024 + v / 2 ^ (L - 10)
  /\ 0 <= v / 2 ^ (L - 10) < 2048
  /\ (11 <= Z.log2 v -> 1024 <= v / 2 ^ (L - 10)).
Proof.
  intros (Hu & Hm & Hc & Hmask & Hlen) Hv L.
  assert (HL : 10 <= L <= 62).
  { subst L. split; [lia|]. apply Z.max_lub; [|lia].
    destruct (Z.eq_dec v 0) as [->|]; [simpl; lia|].
    assert (Z.log2 v < 63) by (apply Z.log2_lt_pow2; lia). lia. }
  assert (Hvlt : v < 2 ^ (L + 1)).
  { destruct (Z.eq_dec v 0) as [->|]; [apply Z.pow_pos_nonneg; lia|].
    pose proof (Z.log2_spec v ltac:(lia)) as [_ Hs].
    eapply Z.lt_le_trans; [exact Hs|].
    apply Z.pow_le_mono_r; subst L; lia. }
  assert (Hpow : 0 < 2 ^ (L - 10)) by (apply Z.pow_pos_nonneg; lia).
  assert (Hsplit : 2 ^ (L + 1) = 2 ^ (L - 10) * 2048).
  { replace (L + 1) with ((L - 10) + 11) by lia.
    rewrite Z.pow_add_r by lia. reflexivity. }
  assert (Hsub : 0 <= v / 2 ^ (L - 10) < 2048).
  { split; [apply Z.div_pos; lia|].
    apply Z.div_lt_upper_bound; lia. }
  assert (Hlog : Z.log2 (Z.lor v 2047) = L).
  { subst L. rewrite Z.log2_lor by lia. reflexivity. }
  assert (Hlor : 0 < Z.lor v 2047 < 2 ^ 64).
  { rewrite lor_2047.
    pose proof (Z.mod_pos_bound v 2048 ltac:(lia)).
    pose proof (Z.div_mod v 2048 ltac:(lia)). lia. }
  split; [|split].
  - unfold countsIndexFor, countsIndex, getSubBucketIdx, getBucketIndex,
      bitLen64.
    rewrite Hu, Hm, Hc, Hmask.
    rewrite (Z.mod_small (Z.lor v 2047)) by lia.
    destruct (Z.eqb_spec (Z.lor v 2047) 0); [lia|].
    rewrite Hlog.
    replace (L + 1 - 0 - (10 + 1)) with (L - 10) by lia.
    rewrite (wrap32_small (L - 10)) by lia.
    rewrite Z.add_0_r, Z.shiftr_div_pow2 by lia.
    rewrite (wrap32_small (v / 2 ^ (L - 10))) by lia.
    rewrite Z.shiftl_mul_pow2 by lia. change (2 ^ 10) with 1024.
    rewrite (wrap32_small ((L - 10 + 1) * 1024)) by lia.
    rewrite (wrap32_small (v / 2 ^ (L - 10) - 1024)) by lia.
    rewrite wrap32_small by lia. lia.
  - exact Hsub.
  - intros H11.
    assert (Hv0 : 0 < v).
    { destruct (Z.eq_dec v 0) as [->|]; [simpl in H11; lia|lia]. }
    pose proof (Z.log2_spec v Hv0) as [Hs _].
    assert (L = Z.log2 v) by (subst L; lia).
    apply Z.div_le_lower_bound; [lia|].
    replace (2 ^ (L - 10) * 1024) with (2 ^ L).
    + rewrite H. exact Hs.
    + replace L with ((L - 10) + 10) at 1 by lia.
      rewrite Z.pow_add_r by lia. reflexivity.
Qed.

Lemma countsIndexFor_negative (h : Histogram) (v : Z) :
  collectorShape h -> - 2 ^ 63 <= v < 0 ->
  17408 <= countsIndexFor h v.
Proof.
  intros (Hu & Hm & Hc & Hmask & Hlen) Hv.
  assert (Hlor : - 2 ^ 63 <= Z.lor v 2047 < 0).
  { rewrite lor_2047.
    pose proof (Z.mod_pos_bound v 2048 ltac:(lia)).
    pose proof (Z.div_mod v 2048 ltac:(lia)) as Hdm.
    assert (- 2 ^ 52 <= v / 2048).
    { apply Z.div_le_lower_bound; lia. }
    lia. }
  assert (Hmod : Z.lor v 2047 mod 2 ^ 64 = Z.lor v 2047 + 2 ^ 64).
  { symmetry. apply Z.mod_unique with (q := -1); lia. }
  assert (Hlog : Z.log2 (Z.lor v 2047 + 2 ^ 64) = 63).
  { apply Z.log2_unique; lia. }
  assert (Hsub : - 1024 <= v / 2 ^ 53 < 0).
  { split.
    - apply Z.div_le_lower_bound; lia.
    - apply Z.div_lt_upper_bound; lia. }
  unfold countsIndexFor, countsIndex, getSubBucketIdx, getBucketIndex,
    bitLen64.
  rewrite Hu, Hm, Hc, Hmask, Hmod.
  destruct (Z.eqb_spec (Z.lor v 2047 + 2 ^ 64) 0); [lia|].
  rewrite Hlog.
  change (wrap32 (63 + 1 - 0 - (10 + 1))) with 53.
  rewrite Z.add_0_r, Z.shiftr_div_pow2 by lia.
  rewrite (wrap32_small (v / 2 ^ 53)) by lia.
  change (wrap32 (Z.shiftl (53 + 1) 10)) with 55296.
  rewrite (wrap32_small (v / 2 ^ 53 - 1024)) by lia.
  rewrite wrap32_small by lia. lia.
Qed.


(** [RecordValue] on the histogram of the collector: a value from 0 to
    [2 ^ 26 - 1] is counted, at the index of that very value; any other
    value is refused and the histogram stays as it was. *)
Lemma RecordValue_collector (h : Histogram) (v : Z) :
  collectorShape h -> minInt64 <= v <= maxInt64 ->
  if (0 <=? v) && (v <=? largest)
  then RecordValue h v
       = (withCounts h (wrap64 (totalCount h + 1))
            (alter (fun c => wrap64 (c + 1))
               (Z.to_nat (countsIndexFor h v)) (counts h)),
          false)
  else RecordValue h v = (h, true).
Proof.
  intros Hshape Hv. unfold minInt64, maxInt64, largest in *.
  pose proof Hshape as (_ & _ & _ & _ & Hlen).
  unfold RecordValue, RecordValues. rewrite Hlen.
  destruct (Z.leb_spec 0 v) as [H0|H0]; simpl.
  - pose proof (countsIndexFor_nonneg h v Hshape ltac:(lia))
      as (Hidx & Hsub & Hbig).
    simpl in Hidx, Hsub, Hbig.
    destruct (Z.leb_spec v 67108863) as [H1|H1].
    + assert (Z.log2 v <= 25).
      { destruct (Z.eq_dec v 0) as [->|]; [simpl; lia|].
        assert (Z.log2 v < 26) by (apply Z.log2_lt_pow2; lia). lia. }
      destruct (Z.ltb_spec (countsIndexFor h v) 0); [lia|].
      destruct (Z.leb_spec 17408 (countsIndexFor h v)); [lia|].
      reflexivity.
    + assert (26 <= Z.log2 v) by (apply Z.log2_le_pow2; lia).
      specialize (Hbig ltac:(lia)).
      destruct (Z.leb_spec 17408 (countsIndexFor h v)); [|lia].
      rewrite orb_true_r. reflexivity.
  - pose proof (countsIndexFor_negative h v Hshape ltac:(lia)).
    destruct (Z.leb_spec 17408 (countsIndexFor h v)); [|lia].
    rewrite orb_true_r. reflexivity.
Qed.

End HistogramRange.

Section HistogramCounts.

Import Go Metrics Tally Trackable.

Lemma latencyMicros_range (m : RequestMetric) :
  minInt64 <= latencyMicros m <= maxInt64.
Proof.
  unfold latencyMicros, Microseconds.
  assert (Hsub : minInt64 <= Sub (EndTime m) (StartTime m) <= maxInt64).
  { unfold Sub, minInt64, maxInt64.
    destruct (Z.ltb_spec (EndTime m - StartTime m) (- 2 ^ 63)); [lia|].
    destruct (Z.ltb_spec (2 ^ 63 - 1) (EndTime m - StartTime m)); lia. }
  set (d := Sub (EndTime m) (StartTime m)) in *.
  unfold minInt64, maxInt64 in *.
  destruct (Z.le_gt_cases 0 d) as [Hd|Hd].
  - pose proof (Z.quot_pos d 1000 Hd ltac:(lia)).
    pose proof (Z.quot_le_upper_bound d 1000 d ltac:(lia) ltac:(lia)). lia.
  - pose proof (Z.quot_le_lower_bound d 1000 d ltac:(lia) ltac:(lia)).
    pose proof (Z.quot_le_upper_bound d 1000 0 ltac:(lia) ltac:(lia)). lia.
Qed.

Lemma recorded_statsFor acts name :
  recorded acts name = Hdr.TotalCount (Histogram (statsFor acts name)).
Proof.
  unfold recorded, statsFor. destruct (acts !! name); [reflexivity|].
  vm_compute. reflexivity.
Qed.

(** One success, on statistics whose histogram is the collector's: the
    histogram counts the latency itself when it is trackable and is left
    alone when it is not. *)
Lemma update_histogram (stats : ActionStats) (m : RequestMetric) :
  collectorShape (Histogram stats) -> isSuccess m = true ->
  Histogram (update stats m)
  = if trackable m
    then Hdr.withCounts (Histogram stats)
           (wrap64 (Hdr.totalCount (Histogram stats) + 1))
           (alter (fun c => wrap64 (c + 1))
              (Z.to_nat (Hdr.countsIndexFor (Histogram stats)
                           (latencyMicros m)))
              (Hdr.counts (Histogram stats)))
    else Histogram stats.
Proof.
  intros Hshape Hok. unfold update. rewrite Hok. simpl.
  pose proof (RecordValue_collector (Histogram stats) (latencyMicros m)
                Hshape (latencyMicros_range m)) as H.
  unfold trackable. destruct (_ && _); rewrite H; reflexivity.
Qed.

Lemma histogram_after_drain name evs :
  let acts := fold_left collectOne evs ∅ in
  collectorShape (Histogram (statsFor acts name))
  /\ Hdr.TotalCount (Histogram (statsFor acts name))
     = wrap64 (Z.of_nat (trackableSuccesses name evs)).
Proof.
  simpl. induction evs as [|m evs IH] using rev_ind.
  - split; [apply New_collectorShape | vm_compute; reflexivity].
  - rewrite fold_collectOne_snoc. unfold trackableSuccesses in *.
    rewrite named_snoc, !List.filter_app, !length_app.
    destruct IH as [IHshape IHcount].
    case_bool_decide as Hname.
    + subst name. rewrite statsFor_collectOne_same.
      destruct (isSuccess m) eqn:Hok.
      * rewrite update_histogram by assumption.
        simpl. rewrite Hok. simpl.
        destruct (trackable m); simpl.
        -- split; [exact IHshape|].
           unfold Hdr.TotalCount in *. rewrite IHcount, wrap64_add_l.
           f_equal. lia.
        -- rewrite Nat.add_0_r. split; assumption.
      * unfold update. rewrite Hok. simpl. rewrite Hok. simpl.
        rewrite Nat.add_0_r. split; assumption.
    + rewrite statsFor_collectOne_other by exact Hname.
      simpl. rewrite Nat.add_0_r. split; assumption.
Qed.

(** The histogram of an action, in whatever state the aggregator is,
    has the shape of the collector's and one counter for each index. *)
Lemma histogram_shape_after_drain name evs :
  let stats := statsFor (fold_left collectOne evs ∅) name in
  collectorShape (Histogram stats)
  /\ Z.of_nat (length (Hdr.counts (Histogram stats))) = 17408.
Proof.
  simpl. induction evs as [|m evs IH] using rev_ind.
  - split; [apply New_collectorShape | vm_compute; reflexivity].
  - rewrite fold_collectOne_snoc. destruct IH as [IHshape IHlen].
    destruct (decide (Name m = name)) as [<-|Hname].
    + rewrite statsFor_collectOne_same.
      destruct (isSuccess m) eqn:Hok.
      * rewrite update_histogram by assumption.
        destruct (trackable m); [|by split].
        split; [exact IHshape|]. simpl. by rewrite length_alter.
      * unfold update. rewrite Hok. simpl. by split.
    + rewrite statsFor_collectOne_other by exact Hname. by split.
Qed.

(** C2, as the code has it. The aggregator hands the latency of a success,
    unclamped, to [RecordValue] and discards the error it may return. The
    histogram made by [New(1, 60000000, 3)] has a counter for the values 0
    to [2 ^ 26 - 1] microseconds, and such a latency is counted at the
    index of its own value; a success with any other latency is counted
    as a success and not recorded. So the total count of the histogram is
    the number of successes with a latency from 0 to [2 ^ 26 - 1]
    microseconds, which is at most the success count. *)
Theorem histogram_counts_trackable_successes (sched : list step)
  (name : gostring) :
  Z.of_nat (length sched) < 2 ^ 63 ->
  let evs := accepted NewCollector sched in
  let final := actions (Stop (run NewCollector sched)) in
  recorded final name = Z.of_nat (trackableSuccesses name evs)
  /\ okCount final name = Z.of_nat (successes name evs)
  /\ recorded final name <= okCount final name
  /\ (forall stats m,
        collectorShape (Histogram stats) -> isSuccess m = true ->
        Histogram (update stats m)
        = if trackable m
          then Hdr.withCounts (Histogram stats)
                 (wrap64 (Hdr.totalCount (Histogram stats) + 1))
                 (alter (fun c => wrap64 (c + 1))
                    (Z.to_nat (Hdr.countsIndexFor (Histogram stats)
                                 (latencyMicros m)))
                    (Hdr.counts (Histogram stats)))
          else Histogram stats).
Proof.
  intros Hbound evs final. subst evs final.
  rewrite Stop_run_drains. simpl.
  set (evs := accepted NewCollector sched).
  destruct (histogram_after_drain name evs) as [_ Hrec].
  destruct (counters_after_drain name evs) as [Hok _].
  simpl in Hrec, Hok.
  rewrite recorded_statsFor, Hrec, Hok.
  pose proof (accepted_length sched NewCollector) as Hacc. fold evs in Hacc.
  pose proof (named_length name evs) as Hnamed.
  assert (Hle : (trackableSuccesses name evs <= successes name evs)%nat)
    by apply List.filter_length_le.
  assert (Hle2 : (successes name evs <= length (named name evs))%nat)
    by apply List.filter_length_le.
  rewrite !wrap64_small by (unfold minInt64, maxInt64; lia).
  repeat split; try lia.
  intros stats m. apply update_histogram.
Qed.

(** C5, as the code has it. For every event the aggregator drains, in
    whatever state it is: the event is a success exactly when its error
    descriptor is empty and its status code is in [200, 400). On a success
    the success count of the action goes up by one and the latency, end
    minus start in whole microseconds, is handed to [RecordValue]: for a
    latency from 0 to [2 ^ 26 - 1] microseconds the histogram records it,
    its total count and the counter at the index of that value going up
    by one; for any other latency the histogram is left as it was.
    Otherwise the error count goes up by one and the histogram is left as
    it was. The bytes of the event are added to the byte total either
    way. *)
Theorem collect_classifies (evs : list RequestMetric) (m : RequestMetric) :
  let acts := fold_left collectOne evs ∅ in
  let before := statsFor acts (Name m) in
  let after := statsFor (collectOne acts m) (Name m) in
  (isSuccess m = true <-> Error m = [] /\ 200 <= StatusCode m < 400)
  /\ latencyMicros m = Z.quot (Sub (EndTime m) (StartTime m)) 1000
  /\ (if isSuccess m
      then TotalOK after = wrap64 (TotalOK before + 1)
           /\ TotalErrors after = TotalErrors before
           /\ (if (0 <=? latencyMicros m) && (latencyMicros m <=? 67108863)
               then Hdr.TotalCount (Histogram after)
                    = wrap64 (Hdr.TotalCount (Histogram before) + 1)
                    /\ Hdr.counts (Histogram after)
                       = alter (fun c => wrap64 (c + 1))
                           (Z.to_nat (Hdr.countsIndexFor (Histogram before)
                                        (latencyMicros m)))
                           (Hdr.counts (Histogram before))
                    /\ (Z.to_nat (Hdr.countsIndexFor (Histogram before)
                                    (latencyMicros m))
                        < length (Hdr.counts (Histogram before)))%nat
               else Histogram after = Histogram before)
      else TotalErrors after = wrap64 (TotalErrors before + 1)
           /\ TotalOK after = TotalOK before
           /\ Histogram after = Histogram before)
  /\ BytesTotal after = wrap64 (BytesTotal before + BytesRead m).
Proof.
  intros acts before after.
  destruct (collectOne_counters acts m) as (Hclass & Hcount & Hbytes).
  fold before after in Hcount, Hbytes.
  split; [exact Hclass|]. split; [reflexivity|]. split; [|exact Hbytes].
  destruct (isSuccess m) eqn:Hok; [|exact Hcount].
  destruct Hcount as (HOK & HErr & _).
  split; [exact HOK|]. split; [exact HErr|].
  destruct (histogram_shape_after_drain (Name m) evs) as [Hshape Hlen].
  fold acts before in Hshape, Hlen.
  assert (Hafter : Histogram after = Histogram (update before m)).
  { subst after before. by rewrite statsFor_collectOne_same. }
  rewrite Hafter, (update_histogram before m Hshape Hok).
  change ((0 <=? latencyMicros m) && (latencyMicros m <=? 67108863))
    with (trackable m).
  destruct (trackable m) eqn:Htr; [|reflexivity].
  split; [reflexivity|]. split; [reflexivity|].
  pose proof (RecordValue_collector (Histogram before) (latencyMicros m)
                Hshape (latencyMicros_range m)) as Hrec.
  unfold trackable in Htr. rewrite Htr in Hrec.
  pose proof Hshape as (_ & _ & _ & _ & HcountsLen).
  unfold Hdr.RecordValue, Hdr.RecordValues in Hrec.
  rewrite HcountsLen in Hrec.
  destruct (Z.ltb_spec (Hdr.countsIndexFor (Histogram before)
                          (latencyMicros m)) 0);
    [simpl in Hrec; apply (f_equal snd) in Hrec; discriminate|].
  destruct (Z.leb_spec 17408 (Hdr.countsIndexFor (Histogram before)
                                (latencyMicros m)));
    [simpl in Hrec; apply (f_equal snd) in Hrec; discriminate|].
  lia.
Qed.

(** C5 fails: a success that took 67,108,864 microseconds, the first
    latency beyond the counters of the histogram, is counted as a success
    and its latency is not recorded: the histogram of the action is as it
    was made, with a total count of 0. One microsecond less is recorded. *)
Lemma slow_success_counted_not_recorded :
  let slow := Sample.ping 0 67108864000 200 [] in
  let after := statsFor (collectOne ∅ slow) (str "Ping") in
  let fast := Sample.ping 0 67108863000 200 [] in
  isSuccess slow = true
  /\ latencyMicros slow = 67108864
  /\ TotalOK after = 1
  /\ Histogram after = Hdr.New 1 60000000 3
  /\ Hdr.TotalCount (Histogram after) = 0
  /\ Hdr.TotalCount
       (Histogram (statsFor (collectOne ∅ fast) (str "Ping"))) = 1.
Proof. vm_compute. repeat split; reflexivity. Qed.

(** C2 fails: a success that took 70 seconds is counted as a success and
    is not in the histogram, whose total count stays 0; and a success that
    took 61 seconds is counted at the index of 61 seconds, which is not the
    index of the bound of 60 seconds. *)
Lemma slow_success_not_clamped :
  let slow := Sample.ping 0 70000000000 200 [] in
  let final := actions (Stop (run NewCollector [Send slow])) in
  isSuccess slow = true
  /\ latencyMicros slow = 70000000
  /\ okCount final (str "Ping") = 1
  /\ recorded final (str "Ping") = 0
  /\ Hdr.countsIndexFor (Hdr.New 1 60000000 3) 61000000
     <> Hdr.countsIndexFor (Hdr.New 1 60000000 3) 60000000
  /\ snd (Hdr.RecordValue (Hdr.New 1 60000000 3) 61000000) = false.
Proof. vm_compute. repeat split; try reflexivity. discriminate. Qed.

End HistogramCounts.

Lemma histogram_counts_trackable_successes_witness :
  Metrics.recorded
    (Metrics.actions
       (Metrics.Stop
          (Metrics.run Metrics.NewCollector
             [Metrics.Send (Sample.ping 0 1000 200 []);
              Metrics.Send (Sample.ping 0 70000000000 200 [])])))
    (str "Ping")
  = Z.of_nat
      (Trackable.trackableSuccesses (str "Ping")
         (Metrics.accepted Metrics.NewCollector
            [Metrics.Send (Sample.ping 0 1000 200 []);
             Metrics.Send (Sample.ping 0 70000000000 200 [])])).
Proof.
  apply (histogram_counts_trackable_successes
           [Metrics.Send (Sample.ping 0 1000 200 []);
            Metrics.Send (Sample.ping 0 70000000000 200 [])]
           (str "Ping")).
  simpl. lia.
Defined.

Section StringSearch.

Import Go.

Lemma HasPrefix_nil_r (s : gostring) : HasPrefix s [] = true.
Proof. destruct s; reflexivity. Qed.

Lemma HasPrefix_app_self (p t : gostring) : HasPrefix (p ++ t) p = true.
Proof.
  induction p as [|c p IH]; [apply HasPrefix_nil_r|].
  simpl. rewrite Ascii.eqb_refl. exact IH.
Qed.

Lemma HasPrefix_true (p : gostring) : forall s,
  HasPrefix s p = true -> s = p ++ drop (length p) s.
Proof.
  induction p as [|c p IH]; intros s H; [reflexivity|].
  destruct s as [|x s]; [discriminate|].
  simpl in H. apply andb_true_iff in H as [Hc Hp].
  apply Ascii.eqb_eq in Hc. subst x. simpl. f_equal. by apply IH.
Qed.

(** A match that needs no more than [s] does not depend on what follows
    [s]. *)
Lemma HasPrefix_app_long (p : gostring) : forall s t,
  (length p <= length s)%nat -> HasPrefix (s ++ t) p = HasPrefix s p.
Proof.
  induction p as [|c p IH]; intros s t Hlen.
  - by rewrite !HasPrefix_nil_r.
  - destruct s as [|x s]; [simpl in Hlen; lia|].
    simpl. f_equal. apply IH. simpl in Hlen. lia.
Qed.

Lemma HasPrefix_app_l (p : gostring) : forall s t,
  HasPrefix s p = true -> HasPrefix (s ++ t) p = true.
Proof.
  induction p as [|c p IH]; intros s t H; [apply HasPrefix_nil_r|].
  destruct s as [|x s]; [discriminate|].
  simpl in *. apply andb_true_iff in H as [Hc Hp].
  rewrite Hc. simpl. by apply IH.
Qed.

(** A match that reaches beyond [a] goes through the first byte after
    [a]. *)
Lemma HasPrefix_straddle (a : gostring) : forall p x t,
  HasPrefix (a ++ x :: t) p = true ->
  HasPrefix a p = true \/ In x p.
Proof.
  induction a as [|c a IH]; intros p x t H.
  - destruct p as [|q p]; [left; reflexivity|].
    simpl in H. apply andb_true_iff in H as [Hq _].
    apply Ascii.eqb_eq in Hq. right. left. exact Hq.
  - destruct p as [|q p]; [left; reflexivity|].
    simpl in H. apply andb_true_iff in H as [Hq Hp].
    destruct (IH _ _ _ Hp) as [Ha|Hin].
    + left. simpl. by rewrite Hq, Ha.
    + right. right. exact Hin.
Qed.

Lemma Index_cons (c : ascii) (s p : gostring) :
  Index (c :: s) p
  = if HasPrefix (c :: s) p then Some O else option_map S (Index s p).
Proof. reflexivity. Qed.

Lemma Index_here (s p : gostring) : HasPrefix s p = true -> Index s p = Some O.
Proof. intros H. destruct s; simpl; rewrite H; reflexivity. Qed.

(** The bytes of [x] cannot begin an instance of [p]: the search passes
    over them. *)
Lemma Index_pass (p : gostring) (x : gostring) : forall y,
  (forall i, (i < length x)%nat -> HasPrefix (drop i (x ++ y)) p = false) ->
  Index (x ++ y) p = option_map (Nat.add (length x)) (Index y p).
Proof.
  induction x as [|c x IH]; intros y H.
  - simpl. by destruct (Index y p).
  - rewrite <- app_comm_cons, Index_cons.
    pose proof (H O ltac:(simpl; lia)) as H0. simpl in H0. rewrite H0.
    rewrite IH.
    + by destruct (Index y p).
    + intros i Hi. apply (H (S i)). simpl. lia.
Qed.

(** What [Index] finds: the text before the instance, the instance, and
    the rest; and no instance begins earlier. *)
Lemma Index_Some (p : gostring) : forall s n,
  Index s p = Some n ->
  s = take n s ++ p ++ drop (n + length p) s
  /\ Index (take n s ++ p) p = Some n
  /\ (n <= length s)%nat.
Proof.
  induction s as [|c s IH]; intros n H.
  - simpl in H. destruct (HasPrefix [] p) eqn:Hp; [|discriminate].
    injection H as <-. destruct p; [|discriminate]. by repeat split.
  - rewrite Index_cons in H.
    destruct (HasPrefix (c :: s) p) eqn:Hp.
    + injection H as <-. split; [|split].
      * simpl. by apply HasPrefix_true.
      * simpl (take 0 _ ++ p). apply Index_here.
        rewrite <- (app_nil_r p) at 1. apply HasPrefix_app_self.
      * lia.
    + destruct (Index s p) as [n'|] eqn:E; [|discriminate].
      injection H as <-. destruct (IH n' eq_refl) as (Hs & Hfirst & Hle).
      split; [|split].
      * simpl. f_equal. exact Hs.
      * simpl (take (S n') (c :: s)). rewrite <- app_comm_cons, Index_cons.
        destruct (HasPrefix (c :: take n' s ++ p) p) eqn:Hq.
        -- apply (HasPrefix_app_l _ _ (drop (n' + length p) s)) in Hq.
           rewrite <- app_comm_cons, <- app_assoc, <- Hs in Hq. congruence.
        -- by rewrite Hfirst.
      * simpl length. lia.
Qed.

(** The first instance in [pre ++ p] is the first instance in
    [pre ++ p ++ rest]. *)
Lemma Index_first_app (p : gostring) : forall pre rest,
  Index (pre ++ p) p = Some (length pre) ->
  Index (pre ++ p ++ rest) p = Some (length pre).
Proof.
  induction pre as [|c pre IH]; intros rest H.
  - simpl. apply Index_here, HasPrefix_app_self.
  - rewrite <- app_comm_cons, Index_cons in *.
    destruct (HasPrefix (c :: pre ++ p) p) eqn:Hp; [discriminate|].
    assert (Hlong : HasPrefix (c :: pre ++ p ++ rest) p = false).
    { rewrite <- Hp.
      change (c :: pre ++ p ++ rest) with ((c :: pre) ++ p ++ rest).
      change (c :: pre ++ p) with ((c :: pre) ++ p).
      rewrite app_assoc. apply HasPrefix_app_long.
      rewrite length_app. lia. }
    rewrite Hlong.
    destruct (Index (pre ++ p) p) as [n|] eqn:E; [|discriminate].
    injection H as ->. rewrite IH by reflexivity. reflexivity.
Qed.


(** No byte of [x] is the first byte of [p]: no instance of [p] begins in
    [x]. *)
Lemma no_instance_in_bytes (q : ascii) (p x : gostring) :
  Forall (fun c => c <> q) x ->
  forall y i, (i < length x)%nat ->
    HasPrefix (drop i (x ++ y)) (q :: p) = false.
Proof.
  intros Hx y. induction Hx as [|c x Hc Hx IH]; intros i Hi.
  - simpl in Hi. lia.
  - destruct i as [|i].
    + simpl. destruct (Ascii.eqb_spec q c) as [->|]; [congruence|reflexivity].
    + simpl. apply IH. simpl in Hi. lia.
Qed.

(** [pre] ends before the first instance of [p], and [x] is a non-empty
    text none of whose bytes is in [p]: then no instance of [p] begins in
    [pre ++ x], whatever follows. *)
Lemma no_instance_in_prefix (p x : gostring) :
  p <> [] -> x <> [] -> Forall (fun c => ~ In c p) x ->
  forall pre,
    Index (pre ++ p) p = Some (length pre) ->
    forall y i, (i < length (pre ++ x))%nat ->
      HasPrefix (drop i ((pre ++ x) ++ y)) p = false.
Proof.
  intros Hp Hne Hx. induction pre as [|c pre IH]; intros Hfirst y i Hi.
  - destruct p as [|q p]; [congruence|].
    apply no_instance_in_bytes; [|exact Hi].
    eapply Forall_impl; [exact Hx|]. intros a Ha ->. apply Ha. by left.
  - rewrite <- app_comm_cons, Index_cons in Hfirst.
    destruct (HasPrefix (c :: pre ++ p) p) eqn:Hhere; [discriminate|].
    destruct (Index (pre ++ p) p) as [n|] eqn:E; [|discriminate].
    injection Hfirst as ->.
    destruct i as [|i].
    + simpl. destruct x as [|x0 x]; [congruence|].
      destruct (HasPrefix (c :: (pre ++ x0 :: x) ++ y) p) eqn:Hq;
        [|reflexivity].
      exfalso.
      assert (Hq' : HasPrefix ((c :: pre) ++ x0 :: x ++ y) p = true).
      { rewrite <- Hq. simpl. by rewrite <- app_assoc. }
      apply HasPrefix_straddle in Hq' as [Hq'|Hin].
      * apply (HasPrefix_app_l _ _ p) in Hq'. simpl in Hq'. congruence.
      * inversion Hx; subst. contradiction.
    + simpl. apply IH; [reflexivity|]. simpl in Hi. lia.
Qed.

End StringSearch.

Section Numbers.

Import Go Loop.

Lemma uintChars_digits (u : Decimal.uint) :
  Forall (fun c => isDigit c = true) (uintChars u).
Proof. induction u; simpl; constructor; auto. Qed.

Lemma uintChars_nil (u : Decimal.uint) : uintChars u = [] -> u = Decimal.Nil.
Proof. destruct u; simpl; congruence. Qed.

Lemma digit_numeric (c : ascii) : isDigit c = true -> numeric c = true.
Proof. unfold numeric. intros ->. reflexivity. Qed.

(** What [Itoa] writes is not empty and is made of digits and the minus
    sign. *)
Lemma Itoa_numeric (z : Z) :
  Itoa z <> [] /\ Forall (fun c => numeric c = true) (Itoa z).
Proof.
  destruct z as [|p|p]; simpl.
  - split; [discriminate|]. constructor; [reflexivity|constructor].
  - split.
    + intros H. apply uintChars_nil in H.
      exact (Unsigned.to_uint_nonnil p H).
    + eapply Forall_impl; [apply uintChars_digits|].
      intros c. apply digit_numeric.
  - split; [discriminate|]. constructor; [reflexivity|].
    eapply Forall_impl; [apply uintChars_digits|].
    intros c. apply digit_numeric.
Qed.

Lemma fallback_numeric (fb : gostring) :
  fallbackOK fb = true ->
  fb <> [] /\ Forall (fun c => numeric c = true) fb.
Proof.
  destruct fb as [|c fb]; [discriminate|]. unfold fallbackOK.
  intros H. split; [discriminate|].
  apply Forall_forall. intros x Hx.
  apply digit_numeric. rewrite forallb_forall in H. apply H.
  apply list_elem_of_In. exact Hx.
Qed.

Lemma keyword_bytes (K : gostring) :
  keywordOK K = true ->
  K <> []
  /\ Forall (fun c => numeric c = false /\ c <> "}"%char) K.
Proof.
  destruct K as [|k K]; [discriminate|]. unfold keywordOK.
  intros H. split; [discriminate|].
  apply Forall_forall. intros x Hx. rewrite forallb_forall in H.
  specialize (H x ltac:(apply list_elem_of_In; exact Hx)).
  apply andb_true_iff in H as [Hn Hc].
  apply negb_true_iff in Hn. apply negb_true_iff in Hc.
  split; [exact Hn|]. intros ->. discriminate.
Qed.

Lemma numeric_not_in_keyword (K x : gostring) :
  keywordOK K = true ->
  Forall (fun c => numeric c = true) x ->
  Forall (fun c => ~ In c K) x.
Proof.
  intros HK Hx. destruct (keyword_bytes K HK) as [_ HKb].
  eapply Forall_impl; [exact Hx|]. intros c Hc Hin. simpl in Hc.
  rewrite Forall_forall in HKb.
  destruct (HKb c ltac:(apply list_elem_of_In; exact Hin)) as [Hn _].
  congruence.
Qed.

End Numbers.

Section ExpandLoop.

Import Go Script Loop.

Variables keyword fallback : gostring.
Hypothesis keyword_ok : keywordOK keyword = true.
Hypothesis fallback_ok : fallbackOK fallback = true.

Lemma expandRand_S (fuel : nat) (result : gostring) :
  expandRand keyword fallback (S fuel) result
  = if negb (Contains result keyword) then ret result
    else
      match Index result keyword with
      | None => ret result
      | Some start =>
          match Index (drop start result) closing with
          | None => ret result
          | Some e =>
              match slice result start (e + start + 2) with
              | None => fun _ => Panicked
              | Some expr =>
                  match slice expr (length keyword) (length expr - 2) with
                  | None => fun _ => Panicked
                  | Some args =>
                      let* repl := replacement fallback (Fields args) in
                      expandRand keyword fallback fuel
                        (take start result ++ repl
                         ++ drop (e + start + 2) result)
                  end
              end
          end
      end.
Proof. reflexivity. Qed.

Lemma length_closing : length closing = 2%nat.
Proof. reflexivity. Qed.

Lemma slice_middle (a b c : gostring) (lo hi : nat) :
  lo = length a -> hi = (length a + length b)%nat ->
  slice (a ++ b ++ c) lo hi = Some b.
Proof.
  intros -> ->. unfold slice.
  assert (Hle : (length a <= length a + length b)%nat) by lia.
  apply Nat.leb_le in Hle. rewrite Hle.
  assert (Hle2 : (length a + length b <= length (a ++ b ++ c))%nat)
    by (rewrite !length_app; lia).
  apply Nat.leb_le in Hle2. rewrite Hle2. simpl.
  rewrite drop_app_length.
  replace (length a + length b - length a)%nat with (length b) by lia.
  by rewrite take_app_length.
Qed.

(** What is written for an expression is not empty and numeric; the
    choice of it never runs out of fuel. *)
Lemma replacement_numeric (parts : list gostring) (rng : Rand) :
  match replacement fallback parts rng with
  | Done (repl, _) => repl <> [] /\ Forall (fun c => numeric c = true) repl
  | Panicked => True
  | OutOfFuel => False
  end.
Proof.
  pose proof (fallback_numeric fallback fallback_ok) as Hfb.
  unfold replacement.
  destruct parts as [|p0 [|p1 [|p2 parts]]]; try exact Hfb.
  destruct (Atoi p0) as [min|]; [|exact Hfb].
  destruct (Atoi p1) as [max|]; [|exact Hfb].
  destruct (min <? max); [|exact Hfb].
  unfold bind, randIntn. destruct (Intn rng _) as [[v rng']|]; [|exact I].
  apply Itoa_numeric.
Qed.

(** The closing braces are looked for after the keyword: none of its bytes
    is a brace. *)
Lemma Index_closing_after_keyword (rest : gostring) :
  Index (keyword ++ rest) closing
  = option_map (Nat.add (length keyword)) (Index rest closing).
Proof.
  apply Index_pass. intros i Hi.
  apply (no_instance_in_bytes "}"%char ["}"%char] keyword); [|exact Hi].
  destruct (keyword_bytes keyword keyword_ok) as [_ H].
  eapply Forall_impl; [exact H|]. intros c [_ Hc]. exact Hc.
Qed.

Lemma expandRand_found (fuel : nat) (s expr args : gostring)
  (start e : nat) (rng : Rand) :
  Index s keyword = Some start ->
  Index (drop start s) closing = Some e ->
  slice s start (e + start + 2) = Some expr ->
  slice expr (length keyword) (length expr - 2) = Some args ->
  expandRand keyword fallback (S fuel) s rng
  = match replacement fallback (Fields args) rng with
    | Done (repl, rng') =>
        expandRand keyword fallback fuel
          (take start s ++ repl ++ drop (e + start + 2) s) rng'
    | Panicked => Panicked
    | OutOfFuel => OutOfFuel
    end.
Proof.
  intros Hk Hc Hexpr Hargs. rewrite expandRand_S. unfold Contains.
  rewrite Hk. cbn [negb]. rewrite Hc, Hexpr, Hargs.
  unfold bind.
  destruct (replacement fallback (Fields args) rng) as [[repl rng']| |];
    reflexivity.
Qed.

(** One round of the loop on a string whose first expression is laid
    out. *)
Lemma expandRand_round (fuel : nat) (pre args post : gostring) (rng : Rand) :
  Index (pre ++ keyword) keyword = Some (length pre) ->
  Index (args ++ closing) closing = Some (length args) ->
  expandRand keyword fallback (S fuel)
    (pre ++ keyword ++ args ++ closing ++ post) rng
  = match replacement fallback (Fields args) rng with
    | Done (repl, rng') =>
        expandRand keyword fallback fuel (pre ++ repl ++ post) rng'
    | Panicked => Panicked
    | OutOfFuel => OutOfFuel
    end.
Proof.
  intros H1 H2.
  rewrite (expandRand_found fuel _ (keyword ++ args ++ closing) args
             (length pre) (length keyword + length args)).
  - rewrite take_app_length.
    replace (pre ++ keyword ++ args ++ closing ++ post)
      with ((pre ++ keyword ++ args ++ closing) ++ post)
      by (by rewrite <- !app_assoc).
    rewrite drop_app_length'
      by (rewrite !length_app, length_closing; lia).
    reflexivity.
  - apply Index_first_app. exact H1.
  - rewrite drop_app_length, Index_closing_after_keyword.
    by rewrite (Index_first_app closing args post H2).
  - replace (pre ++ keyword ++ args ++ closing ++ post)
      with (pre ++ (keyword ++ args ++ closing) ++ post)
      by (by rewrite <- !app_assoc).
    apply slice_middle; [reflexivity|].
    rewrite !length_app, length_closing. lia.
  - apply slice_middle; [reflexivity|].
    rewrite !length_app, length_closing. lia.
Qed.

(** The loop passes over a text in which no instance of the keyword
    begins. *)
Lemma expandRand_pass (x : gostring) :
  (forall y i, (i < length x)%nat ->
     HasPrefix (drop i (x ++ y)) keyword = false) ->
  forall fuel y rng,
    expandRand keyword fallback fuel (x ++ y) rng
    = prepend x (expandRand keyword fallback fuel y rng).
Proof.
  intros Hx. induction fuel as [|fuel IH]; intros y rng; [reflexivity|].
  rewrite !expandRand_S. unfold Contains.
  rewrite (Index_pass keyword x y (Hx y)).
  destruct (Index y keyword) as [start|]; [|reflexivity].
  cbn [option_map negb].
  rewrite drop_app_add.
  destruct (Index (drop start y) closing) as [e|]; [|reflexivity].
  assert (Hslice :
    slice (x ++ y) (length x + start) (e + (length x + start) + 2)
    = slice y start (e + start + 2)).
  { unfold slice. rewrite length_app, drop_app_add.
    replace (e + (length x + start) + 2 - (length x + start))%nat
      with (e + start + 2 - start)%nat by lia.
    destruct (Nat.leb_spec start (e + start + 2));
      destruct (Nat.leb_spec (length x + start)
                  (e + (length x + start) + 2)); try lia.
    destruct (Nat.leb_spec (e + start + 2) (length y));
      destruct (Nat.leb_spec (e + (length x + start) + 2)
                  (length x + length y)); try lia; reflexivity. }
  rewrite Hslice.
  destruct (slice y start (e + start + 2)) as [expr|]; [|reflexivity].
  destruct (slice expr (length keyword) (length expr - 2)) as [args|];
    [|reflexivity].
  unfold bind.
  destruct (replacement fallback (Fields args) rng) as [[repl rng']| |];
    try reflexivity.
  rewrite take_app_add.
  replace (e + (length x + start) + 2)%nat
    with (length x + (e + start + 2))%nat by lia.
  rewrite drop_app_add, <- app_assoc. apply IH.
Qed.

(** A round writes the replacement and goes on with what follows the
    expression. *)
Lemma expandRand_expression (fuel : nat) (pre args post : gostring)
  (rng : Rand) :
  Index (pre ++ keyword) keyword = Some (length pre) ->
  Index (args ++ closing) closing = Some (length args) ->
  expandRand keyword fallback (S fuel)
    (pre ++ keyword ++ args ++ closing ++ post) rng
  = match replacement fallback (Fields args) rng with
    | Done (repl, rng') =>
        prepend (pre ++ repl) (expandRand keyword fallback fuel post rng')
    | Panicked => Panicked
    | OutOfFuel => OutOfFuel
    end.
Proof.
  intros H1 H2. rewrite expandRand_round by assumption.
  pose proof (replacement_numeric (Fields args) rng) as Hrepl.
  destruct (replacement fallback (Fields args) rng) as [[repl rng']| |];
    try reflexivity.
  destruct Hrepl as [Hne Hnum].
  rewrite app_assoc. apply expandRand_pass.
  destruct (keyword_bytes keyword keyword_ok) as [HK _].
  apply no_instance_in_prefix; auto.
  by apply numeric_not_in_keyword.
Qed.

Lemma expandRand_no_keyword (fuel : nat) (s : gostring) (rng : Rand) :
  Index s keyword = None ->
  expandRand keyword fallback (S fuel) s rng = Done (s, rng).
Proof.
  intros H. rewrite expandRand_S. unfold Contains. by rewrite H.
Qed.

(** The string as the loop reads it: either the loop is over, or the first
    expression is laid out. *)
Lemma expandRand_reads (s : gostring) :
  (forall fuel rng,
     expandRand keyword fallback (S fuel) s rng = Done (s, rng))
  \/ exists pre args post,
       s = pre ++ keyword ++ args ++ closing ++ post
       /\ Index (pre ++ keyword) keyword = Some (length pre)
       /\ Index (args ++ closing) closing = Some (length args).
Proof.
  destruct (Index s keyword) as [start|] eqn:Hk.
  2:{ left. intros. by apply expandRand_no_keyword. }
  destruct (Index_Some _ _ _ Hk) as (Hs & Hfirst & Hle).
  set (pre := take start s) in *.
  set (rest := drop (start + length keyword) s) in *.
  assert (Hpre : length pre = start) by (subst pre; rewrite length_take; lia).
  destruct (Index rest closing) as [e|] eqn:Hc.
  - right. destruct (Index_Some _ _ _ Hc) as (Hr & Hfirst' & Hle').
    exists pre, (take e rest), (drop (e + length closing) rest).
    split; [|split].
    + rewrite <- Hr. exact Hs.
    + by rewrite Hpre.
    + rewrite length_take. replace (e `min` length rest)%nat with e by lia.
      exact Hfirst'.
  - left. intros fuel rng. rewrite expandRand_S. unfold Contains.
    rewrite Hk. cbn [negb].
    assert (Hdrop : drop start s = keyword ++ rest).
    { rewrite Hs at 1. rewrite <- Hpre. apply drop_app_length. }
    rewrite Hdrop, Index_closing_after_keyword, Hc. reflexivity.
Qed.

Lemma expandRand_unclosed (fuel : nat) (s : gostring) (start : nat)
  (rng : Rand) :
  Index s keyword = Some start ->
  Index (drop start s) closing = None ->
  expandRand keyword fallback (S fuel) s rng = Done (s, rng).
Proof.
  intros Hk Hc. rewrite expandRand_S. unfold Contains.
  rewrite Hk. cbn [negb]. by rewrite Hc.
Qed.

Lemma prepend_not_out_of_fuel x o : o <> OutOfFuel -> prepend x o <> OutOfFuel.
Proof. destruct o as [[out r]| |]; simpl; congruence. Qed.

(** With more fuel than the string is long the loop comes to its end, and
    the amount of fuel beyond that makes no difference. *)
Lemma expandRand_enough_fuel : forall fuel s rng,
  (length s < fuel)%nat ->
  expandRand keyword fallback fuel s rng <> OutOfFuel
  /\ forall fuel', (length s < fuel')%nat ->
       expandRand keyword fallback fuel' s rng
       = expandRand keyword fallback fuel s rng.
Proof.
  induction fuel as [|fuel IH]; intros s rng Hlen; [lia|].
  destruct (expandRand_reads s) as [Hend|(pre & args & post & -> & H1 & H2)].
  - split; [by rewrite Hend|].
    intros [|fuel'] H'; [lia|]. by rewrite !Hend.
  - assert (Hpost : (length post < fuel)%nat).
    { rewrite !length_app, length_closing in Hlen. lia. }
    rewrite expandRand_expression by assumption.
    pose proof (replacement_numeric (Fields args) rng) as Hrepl.
    split.
    + destruct (replacement fallback (Fields args) rng)
        as [[repl rng']| |]; [|discriminate|contradiction].
      apply prepend_not_out_of_fuel. by apply IH.
    + intros [|fuel'] H'; [lia|].
      rewrite expandRand_expression by assumption.
      destruct (replacement fallback (Fields args) rng)
        as [[repl rng']| |]; try reflexivity.
      f_equal. apply IH; [exact Hpost|].
      rewrite !length_app, length_closing in H'. lia.
Qed.

End ExpandLoop.

Section DecimalRoundTrip.

Import Go Loop.

Lemma parseDigits_acc (d : Decimal.uint) : forall acc : positive,
  parseDigits (Zpos acc) (uintChars d) = Some (Zpos (Pos.of_uint_acc d acc)).
Proof.
  induction d; intros acc; simpl; try reflexivity;
    rewrite <- IHd; f_equal; vm_compute digitVal; lia.
Qed.

Lemma parseDigits_uint (d : Decimal.uint) :
  parseDigits 0 (uintChars d) = Some (Z.of_N (Pos.of_uint d)).
Proof.
  induction d; simpl; try reflexivity; try exact IHd;
    apply (parseDigits_acc d).
Qed.

Lemma parseDigits_pos (p : positive) :
  parseDigits 0 (uintChars (Pos.to_uint p)) = Some (Zpos p).
Proof. by rewrite parseDigits_uint, Unsigned.of_to. Qed.

(** [Atoi] reads back what [Itoa] writes. *)
Lemma Atoi_Itoa (z : Z) : inInt64 z = true -> Atoi (Itoa z) = Some z.
Proof.
  intros Hz. destruct z as [|p|p].
  - reflexivity.
  - unfold Itoa, Atoi.
    pose proof (Unsigned.to_uint_nonnil p) as Hnil.
    pose proof (uintChars_digits (Pos.to_uint p)) as Hdig.
    pose proof (parseDigits_pos p) as Hparse.
    destruct (uintChars (Pos.to_uint p)) as [|c cs] eqn:E.
    { apply uintChars_nil in E. contradiction. }
    inversion Hdig as [|? ? Hc _]; subst.
    assert (Hminus : Ascii.eqb c "-" = false).
    { destruct (Ascii.eqb_spec c "-") as [->|]; [discriminate|reflexivity]. }
    assert (Hplus : Ascii.eqb c "+" = false).
    { destruct (Ascii.eqb_spec c "+") as [->|]; [discriminate|reflexivity]. }
    rewrite Hminus, Hplus, Hparse, Hz. reflexivity.
  - unfold Itoa, Atoi. rewrite Ascii.eqb_refl.
    pose proof (Unsigned.to_uint_nonnil p) as Hnil.
    pose proof (parseDigits_pos p) as Hparse.
    destruct (uintChars (Pos.to_uint p)) as [|c cs] eqn:E.
    { apply uintChars_nil in E. contradiction. }
    rewrite Hparse. change (- Z.pos p) with (Z.neg p). rewrite Hz.
    reflexivity.
Qed.

Lemma Atoi_range (s : gostring) (v : Z) :
  Atoi s = Some v -> minInt64 <= v <= maxInt64.
Proof.
  unfold Atoi.
  destruct (match s with
            | [] => (false, s)
            | c :: r =>
                if Ascii.eqb c "-" then (true, r)
                else if Ascii.eqb c "+" then (false, r) else (false, s)
            end) as [neg ds].
  destruct ds as [|d ds]; [discriminate|].
  destruct (parseDigits 0 (d :: ds)) as [n|]; [|discriminate].
  destruct (inInt64 (if neg then - n else n)) eqn:Hin; [|discriminate].
  intros [= <-]. unfold inInt64 in Hin.
  apply andb_true_iff in Hin as [H1 H2]. lia.
Qed.

Lemma numeric_no_space (c : ascii) (s : gostring) :
  numeric c = true -> spaceWidth (c :: s) = O.
Proof.
  destruct c as [[] [] [] [] [] [] [] []]; try discriminate; reflexivity.
Qed.

(** A numeric text is read as one stretch of a field. *)
Lemma fieldsFrom_numeric (x : gostring) : forall cur rest,
  Forall (fun c => numeric c = true) x ->
  fieldsFrom O cur (x ++ rest) = fieldsFrom O (rev x ++ cur) rest.
Proof.
  induction x as [|c x IH]; intros cur rest Hx; [reflexivity|].
  inversion Hx as [|? ? Hc Hx']; subst.
  simpl. rewrite (numeric_no_space c _ Hc), IH by exact Hx'.
  by rewrite <- app_assoc.
Qed.

End DecimalRoundTrip.

Section RandIntExpansion.

Import Go Script Loop RandInt.

Lemma randInt_keyword_ok : keywordOK keyword = true.
Proof. reflexivity. Qed.

Lemma randInt_fallback_ok : fallbackOK (str "1") = true.
Proof. reflexivity. Qed.

Lemma flushField_rev (x : gostring) : x <> [] -> flushField (rev x) = [x].
Proof.
  intros Hx. unfold flushField.
  destruct (rev x) as [|c r] eqn:E.
  - apply (f_equal (@rev ascii)) in E. rewrite rev_involutive in E.
    simpl in E. congruence.
  - by rewrite <- E, rev_involutive.
Qed.

Lemma Fields_arguments (A B : Z) :
  Fields (arguments A B) = [Itoa A; Itoa B].
Proof.
  destruct (Itoa_numeric A) as [HA HAn], (Itoa_numeric B) as [HB HBn].
  unfold Fields, arguments.
  change (str " " ++ Itoa A ++ str " " ++ Itoa B)
    with (" "%char :: Itoa A ++ " "%char :: Itoa B).
  change (fieldsFrom 0 [] (" "%char :: Itoa A ++ " "%char :: Itoa B))
    with (fieldsFrom 0 [] (Itoa A ++ " "%char :: Itoa B)).
  rewrite fieldsFrom_numeric by exact HAn. rewrite app_nil_r.
  change (fieldsFrom 0 (rev (Itoa A)) (" "%char :: Itoa B))
    with (flushField (rev (Itoa A)) ++ fieldsFrom 0 [] (Itoa B)).
  rewrite flushField_rev by exact HA.
  rewrite <- (app_nil_r (Itoa B)) at 1.
  rewrite fieldsFrom_numeric by exact HBn. rewrite app_nil_r.
  simpl fieldsFrom. by rewrite flushField_rev.
Qed.

Lemma numeric_not_brace (c : ascii) : numeric c = true -> c <> "}"%char.
Proof. intros H ->. discriminate. Qed.

(** The arguments hold no closing braces: the ones after them are the
    first. *)
Lemma arguments_closed (A B : Z) :
  Index (arguments A B ++ closing) closing = Some (length (arguments A B)).
Proof.
  destruct (Itoa_numeric A) as [_ HAn], (Itoa_numeric B) as [_ HBn].
  rewrite (Index_pass closing (arguments A B) closing).
  - change (Index closing closing) with (Some O). simpl. f_equal. lia.
  - intros i Hi.
    apply (no_instance_in_bytes "}"%char ["}"%char]); [|exact Hi].
    unfold arguments. rewrite !Forall_app. repeat split.
    + by constructor.
    + eapply Forall_impl; [exact HAn|]. apply numeric_not_brace.
    + by constructor.
    + eapply Forall_impl; [exact HBn|]. apply numeric_not_brace.
Qed.

(** Two integers [min < max] whose distance fits an [int]: the number
    written is drawn from [[min, max]]. *)
Lemma replacement_in_range (fallback p0 p1 : gostring) (min max : Z)
  (rng : Rand) :
  Atoi p0 = Some min -> Atoi p1 = Some max ->
  min < max -> max - min < 2 ^ 63 - 1 ->
  exists v,
    min <= v <= max
    /\ replacement fallback [p0; p1] rng = Done (Itoa v, afterDraw rng).
Proof.
  intros H0 H1 Hlt Hfit.
  pose proof (Atoi_range _ _ H0) as Hmin.
  pose proof (Atoi_range _ _ H1) as Hmax.
  unfold minInt64, maxInt64 in *.
  unfold replacement. rewrite H0, H1.
  destruct (Z.ltb_spec min max); [|lia].
  unfold bind, randIntn, Intn.
  rewrite (wrap64_small (max - min)) by (unfold minInt64, maxInt64; lia).
  rewrite (wrap64_small (max - min + 1))
    by (unfold minInt64, maxInt64; lia).
  destruct (Z.leb_spec (max - min + 1) 0); [lia|].
  pose proof (Z.mod_pos_bound (draws rng (drawn rng)) (max - min + 1)
                ltac:(lia)) as Hv.
  exists (draws rng (drawn rng) mod (max - min + 1) + min).
  split; [lia|].
  unfold ret. rewrite wrap64_small by (unfold minInt64, maxInt64; lia).
  reflexivity.
Qed.

Lemma replacement_fallback (fallback args : gostring) (rng : Rand) :
  invalidArgs args ->
  replacement fallback (Fields args) rng = Done (fallback, rng).
Proof.
  unfold invalidArgs, replacement.
  destruct (Fields args) as [|p0 [|p1 [|p2 parts]]]; try reflexivity.
  destruct (Atoi p0) as [min|]; [|reflexivity].
  destruct (Atoi p1) as [max|]; [|reflexivity].
  intros H. destruct (Z.ltb_spec min max); [lia|reflexivity].
Qed.

(** The first loop on a string whose first expression is laid out: the
    replacement is written and the loop goes on after the expression. *)
Lemma expandRandInt_expression (pre args post : gostring) (rng : Rand) :
  Index (pre ++ keyword) keyword = Some (length pre) ->
  Index (args ++ closing) closing = Some (length args) ->
  expandRandInt (pre ++ keyword ++ args ++ closing ++ post) rng
  = match replacement (str "1") (Fields args) rng with
    | Done (repl, rng') => prepend (pre ++ repl) (expandRandInt post rng')
    | Panicked => Panicked
    | OutOfFuel => OutOfFuel
    end.
Proof.
  intros H1 H2. unfold expandRandInt. fold keyword.
  rewrite (expandRand_expression keyword (str "1") randInt_keyword_ok
             randInt_fallback_ok) by assumption.
  destruct (replacement (str "1") (Fields args) rng) as [[repl rng']| |];
    try reflexivity.
  f_equal.
  apply (expandRand_enough_fuel keyword (str "1") randInt_keyword_ok
           randInt_fallback_ok (S (length post)) post rng' ltac:(lia)).
  rewrite !length_app, length_closing. lia.
Qed.

Lemma replaceFrom_absent (old new : gostring) : forall s,
  Index s old = None -> replaceFrom old new O s = s.
Proof.
  induction s as [|c s IH]; intros H; [reflexivity|].
  rewrite replaceFrom_cons. rewrite Index_cons in H.
  destruct (HasPrefix (c :: s) old); [discriminate|].
  f_equal. apply IH. by destruct (Index s old).
Qed.

Lemma ReplaceAll_absent (s old new : gostring) :
  Index s old = None -> ReplaceAll s old new = s.
Proof.
  intros H. unfold ReplaceAll. destruct old; [reflexivity|].
  by apply replaceFrom_absent.
Qed.

(** A template with none of the other placeholders, neither before nor
    after the first loop: [expandString] is the first loop. *)
Lemma expandString_randInt_only (now : Time) (userID : Z)
  (s t : gostring) (rng rng' : Rand) :
  Index s (str "{{userId}}") = None ->
  Index s (str "{{epochms}}") = None ->
  expandRandInt s rng = Done (t, rng') ->
  Index t (str "{{pick movies}}") = None ->
  Index t (str "{{randDelay") = None ->
  expandString now s userID rng = Done (t, rng').
Proof.
  intros Hu He Hloop Hp Hd. unfold expandString.
  rewrite (ReplaceAll_absent s _ _ Hu), (ReplaceAll_absent s _ _ He).
  unfold bind. rewrite Hloop. unfold Contains. rewrite Hp.
  unfold ret, expandRandDelay.
  apply expandRand_no_keyword. exact Hd.
Qed.

(** C8, as the code has it. The first loop of [expandString] takes the
    leftmost [{{randInt] and reads up to the next closing braces, whatever
    stands in between. Let [pre] hold no [{{randInt] before the one that
    follows it. Then:
    - for the expression [{{randInt A B}}] of two integers [A < B] with
      [B - A + 1] an [int], a decimal integer from [[A, B]] is written;
      so it is whenever the text up to the closing braces splits into two
      fields that [Atoi] reads as such [A] and [B];
    - when that text is not two fields, or a field is not an [int], or
      [A >= B], the text [1] is written, also for a sequence that only
      begins like the keyword, such as [{{randInteger 1 5}}];
    - the loop goes on after the expression, what it wrote is not read
      again, it comes to its end, and a string without [{{randInt], or
      with no closing braces after the first one, is left as it is;
    - a template with none of the other placeholders is expanded by this
      loop alone. *)
Theorem expandRandInt_expressions (pre post : gostring) (rng : Rand) :
  Index (pre ++ keyword) keyword = Some (length pre) ->
  (forall A B,
      inInt64 A = true -> inInt64 B = true ->
      A < B -> B - A < 2 ^ 63 - 1 ->
      exists v,
        A <= v <= B
        /\ expandRandInt (pre ++ expression A B ++ post) rng
           = prepend (pre ++ Itoa v) (expandRandInt post (afterDraw rng)))
  /\ (forall args p0 p1 A B,
        Index (args ++ closing) closing = Some (length args) ->
        Fields args = [p0; p1] -> Atoi p0 = Some A -> Atoi p1 = Some B ->
        A < B -> B - A < 2 ^ 63 - 1 ->
        exists v,
          A <= v <= B
          /\ expandRandInt (pre ++ keyword ++ args ++ closing ++ post) rng
             = prepend (pre ++ Itoa v)
                 (expandRandInt post (afterDraw rng)))
  /\ (forall args,
        Index (args ++ closing) closing = Some (length args) ->
        invalidArgs args ->
        expandRandInt (pre ++ keyword ++ args ++ closing ++ post) rng
        = prepend (pre ++ str "1") (expandRandInt post rng))
  /\ (forall s r, expandRandInt s r <> OutOfFuel)
  /\ (forall s r, Index s keyword = None -> expandRandInt s r = Done (s, r))
  /\ (forall s start r,
        Index s keyword = Some start ->
        Index (drop start s) closing = None ->
        expandRandInt s r = Done (s, r))
  /\ (forall now userID s t r r',
        Index s (str "{{userId}}") = None ->
        Index s (str "{{epochms}}") = None ->
        expandRandInt s r = Done (t, r') ->
        Index t (str "{{pick movies}}") = None ->
        Index t (str "{{randDelay") = None ->
        expandString now s userID r = Done (t, r')).
Proof.
  intros H1. split; [|split; [|split; [|split; [|split; [|split]]]]].
  - intros A B HA HB Hlt Hfit.
    destruct (replacement_in_range (str "1") (Itoa A) (Itoa B) A B rng
                (Atoi_Itoa A HA) (Atoi_Itoa B HB) Hlt Hfit)
      as (v & Hv & Hrepl).
    exists v. split; [exact Hv|].
    unfold expression. rewrite <- !app_assoc.
    rewrite expandRandInt_expression
      by (exact H1 || apply arguments_closed).
    by rewrite Fields_arguments, Hrepl.
  - intros args p0 p1 A B H2 Hf H0 Hp1 Hlt Hfit.
    destruct (replacement_in_range (str "1") p0 p1 A B rng H0 Hp1 Hlt Hfit)
      as (v & Hv & Hrepl).
    exists v. split; [exact Hv|].
    rewrite expandRandInt_expression by assumption.
    by rewrite Hf, Hrepl.
  - intros args H2 Hinv. rewrite expandRandInt_expression by assumption.
    by rewrite replacement_fallback.
  - intros s r. unfold expandRandInt.
    apply (expandRand_enough_fuel (str "{{randInt") (str "1")
             randInt_keyword_ok randInt_fallback_ok). lia.
  - intros s r H. unfold expandRandInt.
    by apply expandRand_no_keyword.
  - intros s start r Hk Hc. unfold expandRandInt.
    by apply (expandRand_unclosed _ _ _ _ start).
  - intros now userID s t r r'. apply expandString_randInt_only.
Qed.

End RandIntExpansion.

Lemma expandRandInt_expressions_witness :
  exists v,
    1 <= v <= 5
    /\ Script.expandRandInt
         (str "p=" ++ RandInt.expression 1 5 ++ str "&x") ScenarioS4.noDraws
       = Loop.prepend (str "p=" ++ Go.Itoa v)
           (Script.expandRandInt (str "&x")
              (RandInt.afterDraw ScenarioS4.noDraws)).
Proof.
  apply (expandRandInt_expressions (str "p=") (str "&x")
           ScenarioS4.noDraws);
    [vm_compute; reflexivity | reflexivity | reflexivity | lia | lia].
Defined.

Section RandIntExamples.

Import Go Script.

(** C8 fails: [{{randInteger 1 5}}] is not a placeholder of the expander,
    and it is not left as it is: the first loop takes it for a [randInt]
    expression with three fields and writes [1]. *)
Lemma expandString_randInteger :
  expandString 0 (str "{{randInteger 1 5}}") 1 ScenarioS4.noDraws
  = Done (str "1", ScenarioS4.noDraws).
Proof. vm_compute. reflexivity. Qed.

(** A run of [expandString] on a URL of the documentation, with the draw
    3: [3 mod 20 + 1]. *)
Example expandString_catalog :
  expandString 0 (str "https://site/api/v1/catalog?page={{randInt 1 20}}")
    1 {| draws := fun _ => 3; drawn := 0 |}
  = Done (str "https://site/api/v1/catalog?page=4",
          {| draws := fun _ => 3; drawn := 1 |}).
Proof. vm_compute. reflexivity. Qed.

(** Two bounds further apart than an [int] can tell: [max - min + 1] wraps
    to a negative number and [rand.Intn] panics. *)
Example expandString_wide_range :
  expandString 0
    (str "{{randInt -5000000000000000000 5000000000000000000}}")
    1 ScenarioS4.noDraws
  = Panicked.
Proof. vm_compute. reflexivity. Qed.

End RandIntExamples.

Lemma expandedAction_credentials_witness :
  exists creds,
    nth_error (Util.credentials Sample.twoCredentials)
      (Z.to_nat (Worker.id ScenarioS4.worker1
                 mod Util.len (Util.credentials Sample.twoCredentials)))
      = Some creds
    /\ match Script.ExpandTemplates 0 ScenarioS4.profile
               (Worker.id ScenarioS4.worker1) ScenarioS4.noDraws,
             Worker.expandedAction ScenarioS4.worker1 0 ScenarioS4.profile
               ScenarioS4.noDraws with
       | Script.Done (e, r), Script.Done (a, r') =>
           r' = r
           /\ Script.URL a = Script.URL e
           /\ Script.Headers a = Script.Headers e
           /\ Script.Body a
              = Worker.replaceCredentialPlaceholders (Script.Body e) creds
           /\ Script.JSONBody a
              = Worker.replaceCredentialPlaceholders (Script.JSONBody e)
                  creds
           /\ (Pieces.braceFree (Util.Username creds) = true ->
               Pieces.braceFree (Util.Password creds) = true ->
               forall ps, forallb Pieces.plainPiece ps = true ->
                 (Script.Body e = Pieces.render ps ->
                  Script.Body a = flat_map (Pieces.fill creds) ps)
                 /\ (Script.JSONBody e = Pieces.render ps ->
                     Script.JSONBody a = flat_map (Pieces.fill creds) ps))
       | Script.Panicked, Script.Panicked => True
       | Script.OutOfFuel, Script.OutOfFuel => True
       | _, _ => False
       end.
Proof.
  apply (expandedAction_credentials ScenarioS4.worker1 0 ScenarioS4.profile
           ScenarioS4.noDraws Sample.twoCredentials);
    [reflexivity | simpl; lia | simpl; lia].
Defined.

Section Pool.

Import Go Util Loader.

Lemma GetCredentials_next (cm : CredentialsManager) :
  1 <= len (credentials cm) <= maxInt64 ->
  0 <= current cm < len (credentials cm) ->
  exists creds,
    nth_error (credentials cm) (Z.to_nat (current cm)) = Some creds
    /\ GetCredentials cm
       = Some (creds,
               {| credentials := credentials cm;
                  current := (current cm + 1) mod len (credentials cm) |}).
Proof.
  intros HN Hcur. unfold maxInt64 in HN.
  destruct (nth_error (credentials cm) (Z.to_nat (current cm)))
    as [creds|] eqn:E.
  2:{ apply nth_error_None in E. unfold len in *. lia. }
  exists creds. split; [reflexivity|].
  unfold GetCredentials. rewrite at_index_nth by exact Hcur. rewrite E.
  destruct (Z.eqb_spec (len (credentials cm)) 0); [lia|].
  rewrite wrap64_small by (unfold minInt64, maxInt64; lia).
  rewrite Z.rem_mod_nonneg by lia. reflexivity.
Qed.

(** X1. Round robin. On a manager with at least one credential and its cursor
    in range, [n] calls of [GetCredentials] in a row do not panic and hand
    out the entries at the cursor, the cursor plus one, and so on, modulo
    the number of credentials; the cursor ends [n] places further, modulo
    that number. *)
Theorem GetCredentials_round_robin (n : nat) : forall cm : CredentialsManager,
  1 <= len (credentials cm) <= maxInt64 ->
  0 <= current cm < len (credentials cm) ->
  exists handed,
    GetCredentialsTimes n cm
    = Some (handed,
            {| credentials := credentials cm;
               current := (current cm + Z.of_nat n)
                          mod len (credentials cm) |})
    /\ length handed = n
    /\ forall i, (i < n)%nat ->
         nth_error handed i
         = nth_error (credentials cm)
             (Z.to_nat ((current cm + Z.of_nat i)
                        mod len (credentials cm))).
Proof.
  induction n as [|n IH]; intros cm HN Hcur.
  - exists []. simpl. repeat split.
    + rewrite Z.add_0_r, Z.mod_small by lia. by destruct cm.
    + intros i Hi. lia.
  - destruct (GetCredentials_next cm HN Hcur) as (creds & Hnth & Hget).
    set (cm' := {| credentials := credentials cm;
                   current := (current cm + 1) mod len (credentials cm) |}).
    assert (Hcur' : 0 <= current cm' < len (credentials cm')).
    { simpl. apply Z.mod_pos_bound. lia. }
    destruct (IH cm' HN Hcur') as (rest & Hrest & Hlen & Hidx).
    exists (creds :: rest). simpl GetCredentialsTimes.
    rewrite Hget. fold cm'. rewrite Hrest. simpl. repeat split.
    + do 3 f_equal. rewrite Zplus_mod_idemp_l. f_equal. lia.
    + by rewrite Hlen.
    + intros [|i] Hi.
      * simpl. rewrite Z.add_0_r, Z.mod_small by lia. by rewrite Hnth.
      * simpl. rewrite Hidx by lia. simpl.
        rewrite Zplus_mod_idemp_l. do 3 f_equal. lia.
Qed.

Lemma NoDup_map_eq {A B} (f : A -> B) (l : list A) (x y : A) :
  NoDup (map f l) -> In x l -> In y l -> f x = f y -> x = y.
Proof.
  induction l as [|a l IH]; intros Hnd Hx Hy Hf; [destruct Hx|].
  simpl in Hnd. inversion Hnd as [|? ? Hnot Hnd']; subst.
  rewrite list_elem_of_In in Hnot.
  destruct Hx as [->|Hx], Hy as [->|Hy]; auto.
  - exfalso. apply Hnot. rewrite Hf. by apply in_map.
  - exfalso. apply Hnot. rewrite <- Hf. by apply in_map.
Qed.

Lemma In_userIDs (cfg : Orchestrator.Config) (u : Z) :
  In u (Orchestrator.userIDs cfg) <-> 1 <= u <= Orchestrator.Users cfg.
Proof.
  unfold Orchestrator.userIDs. rewrite in_map_iff. split.
  - intros (i & <- & Hi). apply in_seq in Hi. lia.
  - intros Hu. exists (Z.to_nat (u - 1)). split; [lia|].
    apply in_seq. lia.
Qed.

Lemma NoDup_map_on {A B} (f : A -> B) (l : list A) :
  (forall x y, In x l -> In y l -> f x = f y -> x = y) ->
  NoDup l -> NoDup (map f l).
Proof.
  induction l as [|a l IH]; intros Hinj Hnd; simpl; [constructor|].
  inversion Hnd as [|? ? Hnot Hnd']; subst. constructor.
  - rewrite list_elem_of_In, in_map_iff. intros (x & Hfx & Hx).
    apply Hnot. rewrite list_elem_of_In.
    rewrite (Hinj a x); auto; [by left|by right].
  - apply IH; [|exact Hnd']. intros x y Hx Hy. apply Hinj; by right.
Qed.

Lemma NoDup_userIDs (cfg : Orchestrator.Config) :
  NoDup (Orchestrator.userIDs cfg).
Proof.
  unfold Orchestrator.userIDs.
  apply NoDup_map_on; [|apply NoDup_seq].
  intros a b _ _ H. lia.
Qed.

(** X2. [Validate] and sharing. With at least one credential, [Validate]
    returns no error for the configured number of users exactly when the
    workers the orchestrator starts, numbered from 1, are given pairwise
    different positions of the list, [u mod N], by
    [GetCredentialsForUser]. *)
Theorem Validate_iff_no_sharing (cm : CredentialsManager)
  (cfg : Orchestrator.Config) :
  1 <= len (credentials cm) ->
  Validate cm (Orchestrator.Users cfg) = None
  <-> NoDup (map (fun u => u mod len (credentials cm))
                    (Orchestrator.userIDs cfg)).
Proof.
  intros HN. set (N := len (credentials cm)) in *.
  unfold Validate. fold N. split.
  - destruct (Z.ltb_spec N (Orchestrator.Users cfg)); [discriminate|].
    intros _.
    apply NoDup_map_on; [|apply NoDup_userIDs].
    intros u v Hu Hv Huv.
    apply In_userIDs in Hu. apply In_userIDs in Hv.
    assert (Hcase : forall w, 1 <= w <= N ->
              w mod N = if w =? N then 0 else w).
    { intros w Hw. destruct (Z.eqb_spec w N) as [->|].
      - apply Z_mod_same_full.
      - apply Z.mod_small. lia. }
    rewrite !Hcase in Huv by lia.
    destruct (Z.eqb_spec u N), (Z.eqb_spec v N); lia.
  - intros Hnd.
    destruct (Z.ltb_spec N (Orchestrator.Users cfg)) as [Hlt|]; [|reflexivity].
    exfalso.
    assert (H1 : In 1 (Orchestrator.userIDs cfg))
      by (apply In_userIDs; lia).
    assert (H2 : In (N + 1) (Orchestrator.userIDs cfg))
      by (apply In_userIDs; lia).
    pose proof (NoDup_map_eq _ _ 1 (N + 1) Hnd H1 H2) as Heq.
    assert (1 mod N = (N + 1) mod N).
    { replace (N + 1) with (1 + 1 * N) by lia. by rewrite Z_mod_plus_full. }
    specialize (Heq H). lia.
Qed.

End Pool.

Section Bucket.

Import Go Util Loader.

(** The processor the program runs on. *)
Variable arch : GOARCH.

Lemma Sub_nonpos (t u : Time) : t <= u -> Sub t u <= 0.
Proof.
  intros H. unfold Sub, minInt64, maxInt64.
  destruct (Z.ltb_spec (t - u) (- 2 ^ 63)); [lia|].
  destruct (Z.ltb_spec (2 ^ 63 - 1) (t - u)); lia.
Qed.

(** A clock that has not moved on, or has gone back, adds no token. *)
Lemma tokensToAdd_nonpos (elapsed : Duration) (rate : Z) :
  elapsed <= 0 -> 0 <= rate -> tokensToAdd arch elapsed rate <= 0.
Proof.
  intros He Hr. unfold tokensToAdd. apply toInt_notPositive.
  apply fmul_notPositive; [by apply Seconds_notPositive|].
  by apply Float64_notNegative.
Qed.

Lemma Allow_no_refill (now : Time) (rl : RateLimiter) :
  now <= lastTime rl -> 0 <= rate rl ->
  Allow arch now rl
  = if 0 <? tokens rl
    then (true, {| rate := rate rl; capacity := capacity rl;
                   tokens := tokens rl - 1; lastTime := lastTime rl |})
    else (false, rl).
Proof.
  intros Hnow Hrate. unfold Allow.
  pose proof (tokensToAdd_nonpos _ _ (Sub_nonpos _ _ Hnow) Hrate) as H.
  destruct (Z.ltb_spec 0 (tokensToAdd arch (Sub now (lastTime rl)) (rate rl)));
    [lia|reflexivity].
Qed.

Lemma answers_shift (T : Z) (n : nat) :
  map (fun k => Z.of_nat k <? T) (seq 0 (S n))
  = (0 <? T) :: map (fun k => Z.of_nat k <? T - 1) (seq 0 n).
Proof.
  change (seq 0 (S n)) with (O :: seq 1 n).
  rewrite <- seq_shift. cbn [map]. rewrite List.map_map. f_equal.
  apply map_ext. intros k.
  destruct (Z.ltb_spec (Z.of_nat (S k)) T),
           (Z.ltb_spec (Z.of_nat k) (T - 1)); lia || reflexivity.
Qed.

Lemma answers_none (T : Z) (n : nat) :
  T <= 0 -> map (fun k => Z.of_nat k <? T) (seq 0 n) = map (fun _ => false) (seq 0 n).
Proof.
  intros HT. apply map_ext. intros k.
  destruct (Z.ltb_spec (Z.of_nat k) T); lia || reflexivity.
Qed.

Lemma AllowTimes_no_refill (clock : nat -> Time) (n : nat) :
  forall (i : nat) (rl : RateLimiter),
    (forall j, clock j <= lastTime rl) -> 0 <= rate rl -> 0 <= tokens rl ->
    AllowTimes arch n clock i rl
    = (map (fun k => Z.of_nat k <? tokens rl) (seq 0 n),
       {| rate := rate rl; capacity := capacity rl;
          tokens := Z.max 0 (tokens rl - Z.of_nat n);
          lastTime := lastTime rl |}).
Proof.
  induction n as [|n IH]; intros i rl Hclock Hrate Htok.
  - simpl. rewrite Z.sub_0_r, Z.max_r by lia. by destruct rl.
  - rewrite answers_shift.
    change (AllowTimes arch (S n) clock i rl)
      with (let '(ok, rl') := Allow arch (clock i) rl in
            let '(rest, rl'') := AllowTimes arch n clock (S i) rl' in
            (ok :: rest, rl'')).
    rewrite (Allow_no_refill _ _ (Hclock i) Hrate).
    destruct (Z.ltb_spec 0 (tokens rl)) as [Hpos|Hzero].
    + rewrite IH by (simpl; auto; lia). simpl. do 2 f_equal. lia.
    + rewrite IH by auto.
      assert (tokens rl = 0) as -> by lia.
      rewrite (answers_none 0), (answers_none (0 - 1)) by lia.
      do 2 f_equal. lia.
Qed.

(** X3. The burst. A limiter made with [R >= 0] starts with a full bucket of
    [R] tokens: while the clock does not move past the time the limiter
    was made, the first [R] calls of [Allow] answer [true] and every later
    call answers [false]; the tokens left are [R - n], or 0. *)
Theorem Allow_burst (rps : Z) (t0 : Time) (clock : nat -> Time) (n i : nat) :
  0 <= rps ->
  (forall j, clock j <= t0) ->
  AllowTimes arch n clock i (NewRateLimiter rps t0)
  = (map (fun k => Z.of_nat k <? rps) (seq 0 n),
     {| rate := rps; capacity := rps;
        tokens := Z.max 0 (rps - Z.of_nat n); lastTime := t0 |}).
Proof.
  intros Hrps Hclock.
  apply (AllowTimes_no_refill clock n i (NewRateLimiter rps t0)); auto.
Qed.

Lemma Allow_bounded (now : Time) (rl : RateLimiter) :
  tokens rl <= capacity rl ->
  tokens (snd (Allow arch now rl)) <= capacity rl
  /\ capacity (snd (Allow arch now rl)) = capacity rl
  /\ rate (snd (Allow arch now rl)) = rate rl
  /\ (fst (Allow arch now rl) = true ->
      0 <= tokens (snd (Allow arch now rl)) < capacity rl).
Proof.
  intros H. unfold Allow.
  destruct (0 <? tokensToAdd arch (Sub now (lastTime rl)) (rate rl)); simpl.
  - destruct (Z.ltb_spec (capacity rl)
                (wrap64 (tokens rl
                         + tokensToAdd arch (Sub now (lastTime rl)) (rate rl))));
      simpl.
    + destruct (Z.ltb_spec 0 (capacity rl)); simpl;
        repeat split; try lia; discriminate.
    + match goal with
      | |- context [0 <? ?t] => destruct (Z.ltb_spec 0 t)
      end; simpl; repeat split; try lia; discriminate.
  - destruct (Z.ltb_spec 0 (tokens rl)); simpl;
      repeat split; try lia; discriminate.
Qed.

(** X4. The bucket never overflows. Whatever the clock reads and on
    either processor, after any number of calls of [Allow] on a limiter
    made with [R] the bucket holds at most [R] tokens, and capacity and
    rate are still [R]. *)
Theorem Allow_never_above_capacity (rps : Z) (t0 : Time)
  (clock : nat -> Time) (n i : nat) :
  let rl := snd (AllowTimes arch n clock i (NewRateLimiter rps t0)) in
  tokens rl <= rps /\ capacity rl = rps /\ rate rl = rps.
Proof.
  simpl.
  assert (H : forall n i rl0,
             tokens rl0 <= capacity rl0 ->
             let rl := snd (AllowTimes arch n clock i rl0) in
             tokens rl <= capacity rl0 /\ capacity rl = capacity rl0
             /\ rate rl = rate rl0).
  { clear n i. induction n as [|n IH]; intros i rl0 Hle; simpl; [auto|].
    pose proof (Allow_bounded (clock i) rl0 Hle) as (Hb & Hc & Hr & _).
    destruct (Allow arch (clock i) rl0) as [ok rl1]. simpl in *.
    specialize (IH (S i) rl1 ltac:(lia)).
    destruct (AllowTimes arch n clock (S i) rl1) as [rest rl2]. simpl in *.
    destruct IH as (? & ? & ?). repeat split; congruence || lia. }
  apply (H n i (NewRateLimiter rps t0)). simpl. lia.
Qed.

(** The refill as the source computes it: 0.29 s at 100 tokens a second
    is 28.999999999999996 in [float64] and gives 28 tokens; 1.5 s at 3 a
    second gives 4; and a product beyond the [int] range gives no token
    on amd64 and the largest [int] on arm64. *)
Example tokensToAdd_float64 :
  tokensToAdd amd64 290000000 100 = 28
  /\ tokensToAdd arm64 290000000 100 = 28
  /\ tokensToAdd arch 1500000000 3 = 4
  /\ tokensToAdd amd64 maxInt64 maxInt64 = minInt64
  /\ tokensToAdd arm64 maxInt64 maxInt64 = maxInt64.
Proof. destruct arch; vm_compute; repeat split; reflexivity. Qed.

End Bucket.

Section LoadFile.

Import Go GoText Util Loader Loaded.

Lemma trimWith_suffix (width : gostring -> nat) : forall s skip,
  exists pre, s = pre ++ trimWith width skip s.
Proof.
  induction s as [|c s IH]; intros skip; [by exists []|].
  simpl. destruct skip as [|k].
  - destruct (width (c :: s)) as [|w].
    + by exists [].
    + destruct (IH w) as [pre Hpre]. exists (c :: pre). simpl. by f_equal.
  - destruct (IH k) as [pre Hpre]. exists (c :: pre). simpl. by f_equal.
Qed.

(** Trimming only takes bytes away. *)
Lemma TrimSpace_In (s : gostring) (c : ascii) :
  In c (TrimSpace s) -> In c s.
Proof.
  unfold TrimSpace, TrimRightSpace, TrimLeftSpace. intros H.
  apply in_rev in H.
  destruct (trimWith_suffix spaceWidthRev (rev (trimWith spaceWidth 0 s)) 0)
    as [pre Hpre].
  assert (H' : In c (rev (trimWith spaceWidth 0 s))).
  { rewrite Hpre. apply in_or_app. by right. }
  apply in_rev in H'.
  destruct (trimWith_suffix spaceWidth s 0) as [pre' Hpre'].
  rewrite Hpre'. apply in_or_app. by right.
Qed.

(** No stretch of a split holds the separator. *)
Lemma splitFrom_no_sep (sep : ascii) : forall s cur,
  ~ In sep cur ->
  Forall (fun p => ~ In sep p) (splitFrom sep cur s).
Proof.
  induction s as [|c s IH]; intros cur Hcur; simpl.
  - constructor; [|constructor]. intros H. apply Hcur. by apply in_rev.
  - destruct (Ascii.eqb_spec c sep) as [->|Hne].
    + constructor.
      * intros H. apply Hcur. by apply in_rev.
      * apply IH. intros [].
    + apply IH. intros [H|H]; [congruence|contradiction].
Qed.

Lemma isEmpty_false (s : gostring) : isEmpty s = false -> s <> [].
Proof. destruct s; [discriminate|discriminate]. Qed.

Lemma scanLines_cons text todo lineNum acc :
  scanLines (text :: todo) lineNum acc
  = if skipped text then scanLines todo (lineNum + 1) acc
    else
      match Split (TrimSpace text) ","%char with
      | [p0; p1] =>
          if isEmpty (TrimSpace p0) || isEmpty (TrimSpace p1)
          then inl (EmptyField (lineNum + 1))
          else scanLines todo (lineNum + 1)
                 (acc ++ [{| Username := TrimSpace p0;
                             Password := TrimSpace p1 |}])
      | _ => inl (InvalidFormat (lineNum + 1) (TrimSpace text))
      end.
Proof. reflexivity. Qed.

Lemma scanLines_well_formed : forall todo lineNum acc creds,
  Forall wellFormed acc ->
  scanLines todo lineNum acc = inr creds ->
  Forall wellFormed creds.
Proof.
  induction todo as [|text todo IH]; intros lineNum acc creds Hacc H.
  - simpl in H. by injection H as <-.
  - rewrite scanLines_cons in H.
    destruct (skipped text); [eapply IH; [exact Hacc|exact H]|].
    pose proof (splitFrom_no_sep ","%char (TrimSpace text) []
                  ltac:(intros [])) as Hsplit.
    fold (Split (TrimSpace text) ",") in Hsplit.
    destruct (Split (TrimSpace text) ",") as [|p0 [|p1 [|p2 ps]]];
      try discriminate.
    destruct (isEmpty (TrimSpace p0)) eqn:E0; [discriminate|].
    destruct (isEmpty (TrimSpace p1)) eqn:E1; [discriminate|].
    simpl in H. eapply IH; [|exact H].
    apply Forall_app. split; [exact Hacc|].
    constructor; [|constructor].
    inversion Hsplit as [|? ? H0 Hrest]; subst.
    inversion Hrest as [|? ? H1 _]; subst.
    repeat split; simpl.
    + by apply isEmpty_false.
    + by apply isEmpty_false.
    + intros Hin. apply H0. by apply TrimSpace_In.
    + intros Hin. apply H1. by apply TrimSpace_In.
Qed.

(** X5. A file that loads. When [LoadCredentials] returns a manager, the
    manager has at least one credential, its cursor is at the start, and
    every credential has a user name and a password that are not empty and
    hold no comma. *)
Theorem LoadCredentials_well_formed (file : option File)
  (cm : CredentialsManager) :
  LoadCredentials file = inr cm ->
  1 <= len (credentials cm)
  /\ current cm = 0
  /\ Forall wellFormed (credentials cm).
Proof.
  unfold LoadCredentials. destruct file as [f|]; [|discriminate].
  destruct (scanLines (lines f) 0 []) as [e|creds] eqn:Hscan; [discriminate|].
  destruct (scanFailed f); [discriminate|].
  destruct (Z.eqb_spec (len creds) 0) as [|Hlen]; [discriminate|].
  intros [= <-]. simpl. repeat split.
  - unfold len in *. lia.
  - eapply scanLines_well_formed; [|exact Hscan]. constructor.
Qed.


Lemma scanLines_line_number : forall todo n m acc,
  match scanLines todo n acc, scanLines todo m acc with
  | inr c1, inr c2 => c1 = c2
  | inl _, inl _ => True
  | _, _ => False
  end.
Proof.
  induction todo as [|text todo IH]; intros n m acc; [reflexivity|].
  rewrite !scanLines_cons.
  destruct (skipped text); [apply IH|].
  destruct (Split (TrimSpace text) ",") as [|p0 [|p1 [|p2 ps]]];
    try exact I.
  destruct (isEmpty (TrimSpace p0) || isEmpty (TrimSpace p1));
    [exact I|apply IH].
Qed.

Lemma scanLines_skip : forall before text after n acc,
  skipped text = true ->
  match scanLines (before ++ text :: after) n acc,
        scanLines (before ++ after) n acc with
  | inr c1, inr c2 => c1 = c2
  | inl _, inl _ => True
  | _, _ => False
  end.
Proof.
  induction before as [|l before IH]; intros text after n acc Hskip.
  - simpl app. rewrite scanLines_cons, Hskip.
    apply scanLines_line_number.
  - rewrite <- !app_comm_cons, !scanLines_cons.
    destruct (skipped l); [by apply IH|].
    destruct (Split (TrimSpace l) ",") as [|p0 [|p1 [|p2 ps]]];
      try exact I.
    destruct (isEmpty (TrimSpace p0) || isEmpty (TrimSpace p1));
      [exact I|by apply IH].
Qed.

(** X6. Blank lines and comments do not count. Among the lines that the
    scanner hands to the loop, a line that is empty after trimming, or
    starts with [#] after trimming, can be put anywhere, or taken out,
    and the loader returns the same credentials, or fails as it did
    before, the scanner ending with or without an error as before. This
    is about lines the scanner delivers: a line too long for it (the
    default limit of [bufio.Scanner] is 64 KiB) is not delivered, ends
    the scan with an error and so changes the outcome of the scan. *)
Theorem LoadCredentials_skips_comments (before after : list gostring)
  (text : gostring) (failed : bool) :
  skipped text = true ->
  credentialsOf (LoadCredentials (fileOf (before ++ text :: after) failed))
  = credentialsOf (LoadCredentials (fileOf (before ++ after) failed)).
Proof.
  intros Hskip. unfold LoadCredentials, fileOf. simpl lines. simpl scanFailed.
  pose proof (scanLines_skip before text after 0 [] Hskip) as H.
  destruct (scanLines (before ++ text :: after) 0 []) as [e1|c1],
           (scanLines (before ++ after) 0 []) as [e2|c2];
    try contradiction; [reflexivity|].
  subst c2. destruct failed; [reflexivity|].
  destruct (len c1 =? 0); reflexivity.
Qed.

Lemma scanLines_error_line : forall todo n acc,
  match scanLines todo n acc with
  | inl (InvalidFormat k line) =>
      n < k <= n + len todo
      /\ exists text,
           nth_error todo (Z.to_nat (k - n - 1)) = Some text
           /\ TrimSpace text = line
           /\ skipped text = false
           /\ length (Split line ","%char) <> 2%nat
  | inl (EmptyField k) =>
      n < k <= n + len todo
      /\ exists text p0 p1,
           nth_error todo (Z.to_nat (k - n - 1)) = Some text
           /\ skipped text = false
           /\ Split (TrimSpace text) ","%char = [p0; p1]
           /\ (TrimSpace p0 = [] \/ TrimSpace p1 = [])
  | inl _ => False
  | inr _ => True
  end.
Proof.
  induction todo as [|text todo IH]; intros n acc; [exact I|].
  rewrite scanLines_cons.
  assert (Hlen : len (text :: todo) = len todo + 1)
    by (unfold len; simpl length; lia).
  assert (Hnext : forall acc',
    match scanLines todo (n + 1) acc' with
    | inl (InvalidFormat k line) =>
        n < k <= n + len (text :: todo)
        /\ exists text0,
             nth_error (text :: todo) (Z.to_nat (k - n - 1)) = Some text0
             /\ TrimSpace text0 = line
             /\ skipped text0 = false
             /\ length (Split line ","%char) <> 2%nat
    | inl (EmptyField k) =>
        n < k <= n + len (text :: todo)
        /\ exists text0 p0 p1,
             nth_error (text :: todo) (Z.to_nat (k - n - 1)) = Some text0
             /\ skipped text0 = false
             /\ Split (TrimSpace text0) ","%char = [p0; p1]
             /\ (TrimSpace p0 = [] \/ TrimSpace p1 = [])
    | inl _ => False
    | inr _ => True
    end).
  { intros acc'. specialize (IH (n + 1) acc').
    destruct (scanLines todo (n + 1) acc') as [[| k line | k | |]|];
      try exact IH.
    - destruct IH as (Hk & t & Hnth & Hrest).
      split; [lia|]. exists t. split; [|exact Hrest].
      replace (Z.to_nat (k - n - 1)) with (S (Z.to_nat (k - (n + 1) - 1)))
        by lia. exact Hnth.
    - destruct IH as (Hk & t & p0 & p1 & Hnth & Hrest).
      split; [lia|]. exists t, p0, p1. split; [|exact Hrest].
      replace (Z.to_nat (k - n - 1)) with (S (Z.to_nat (k - (n + 1) - 1)))
        by lia. exact Hnth. }
  destruct (skipped text) eqn:Hskip; [apply Hnext|].
  assert (Hhere : Z.to_nat (n + 1 - n - 1) = O) by lia.
  assert (Hpos : 0 <= len todo) by (unfold len; lia).
  destruct (Split (TrimSpace text) ",") as [|p0 [|p1 [|p2 ps]]] eqn:Hsplit.
  - split; [lia|]. exists text. rewrite Hhere, Hsplit. by repeat split.
  - split; [lia|]. exists text. rewrite Hhere, Hsplit. by repeat split.
  - destruct (isEmpty (TrimSpace p0)) eqn:E0.
    + split; [lia|]. exists text, p0, p1. rewrite Hhere.
      repeat split; auto. left. by destruct (TrimSpace p0).
    + destruct (isEmpty (TrimSpace p1)) eqn:E1; [|apply Hnext].
      split; [lia|]. exists text, p0, p1. rewrite Hhere.
      repeat split; auto. right. by destruct (TrimSpace p1).
  - split; [lia|]. exists text. rewrite Hhere, Hsplit. by repeat split.
Qed.

(** X7. The line an error names. When [LoadCredentials] reports a line that is
    not of the form [username,password], or one with an empty user name or
    password, the number it gives is that of the line in the file, counted
    from 1 with blank lines and comments included, and the line is not one
    that is skipped. A file that is opened fails with one of these two
    errors, with a read error, or for want of any credential. *)
Theorem LoadCredentials_error_line (ls : list gostring) (failed : bool) :
  match LoadCredentials (fileOf ls failed) with
  | inl (InvalidFormat k line) =>
      1 <= k <= len ls
      /\ exists text,
           nth_error ls (Z.to_nat (k - 1)) = Some text
           /\ TrimSpace text = line
           /\ skipped text = false
           /\ length (Split line ","%char) <> 2%nat
  | inl (EmptyField k) =>
      1 <= k <= len ls
      /\ exists text p0 p1,
           nth_error ls (Z.to_nat (k - 1)) = Some text
           /\ skipped text = false
           /\ Split (TrimSpace text) ","%char = [p0; p1]
           /\ (TrimSpace p0 = [] \/ TrimSpace p1 = [])
  | inl OpenFailed => False
  | inl ReadFailed => failed = true
  | inl NoCredentials => failed = false
  | inr cm => failed = false
  end.
Proof.
  unfold LoadCredentials, fileOf. simpl lines. simpl scanFailed.
  pose proof (scanLines_error_line ls 0 []) as H.
  destruct (scanLines ls 0 []) as [[| k line | k | |]|creds];
    try contradiction.
  - destruct H as (Hk & text & Hnth & Hrest). split; [lia|].
    exists text. rewrite Z.sub_0_r in Hnth. by split.
  - destruct H as (Hk & text & p0 & p1 & Hnth & Hrest). split; [lia|].
    exists text, p0, p1. rewrite Z.sub_0_r in Hnth. by split.
  - destruct failed; [reflexivity|].
    destruct (len creds =? 0); reflexivity.
Qed.

End LoadFile.

Lemma GetCredentials_round_robin_witness :
  exists handed,
    Loader.GetCredentialsTimes 3 Sample.twoCredentials
    = Some (handed,
            {| Util.credentials := Util.credentials Sample.twoCredentials;
               Util.current :=
                 (Util.current Sample.twoCredentials + Z.of_nat 3)
                 mod Util.len (Util.credentials Sample.twoCredentials) |})
    /\ length handed = 3%nat
    /\ forall i, (i < 3)%nat ->
         nth_error handed i
         = nth_error (Util.credentials Sample.twoCredentials)
             (Z.to_nat ((Util.current Sample.twoCredentials + Z.of_nat i)
                        mod Util.len
                              (Util.credentials Sample.twoCredentials))).
Proof.
  apply (GetCredentials_round_robin 3 Sample.twoCredentials);
    unfold Go.maxInt64, Util.len; simpl; lia.
Defined.

Lemma Validate_iff_no_sharing_witness :
  Loader.Validate Sample.twoCredentials
    (Orchestrator.Users SampleFile.threeUsers) = None
  <-> NoDup (map (fun u => u mod Util.len
                                  (Util.credentials Sample.twoCredentials))
               (Orchestrator.userIDs SampleFile.threeUsers)).
Proof.
  apply (Validate_iff_no_sharing Sample.twoCredentials
           SampleFile.threeUsers).
  unfold Util.len. simpl. lia.
Defined.

Lemma Allow_burst_witness :
  Loader.AllowTimes Go.amd64 3 SampleFile.frozen 0 (Util.NewRateLimiter 2 0)
  = (map (fun k => Z.of_nat k <? 2) (seq 0 3),
     {| Util.rate := 2; Util.capacity := 2;
        Util.tokens := Z.max 0 (2 - Z.of_nat 3); Util.lastTime := 0 |}).
Proof.
  apply (Allow_burst Go.amd64 2 0 SampleFile.frozen 3 0).
  - lia.
  - intros j. unfold SampleFile.frozen. lia.
Defined.

Lemma LoadCredentials_well_formed_witness :
  1 <= Util.len (Util.credentials Sample.twoCredentials)
  /\ Util.current Sample.twoCredentials = 0
  /\ Forall Loaded.wellFormed (Util.credentials Sample.twoCredentials).
Proof.
  apply (LoadCredentials_well_formed
           (Loaded.fileOf SampleFile.usersFile false)
           Sample.twoCredentials).
  vm_compute. reflexivity.
Defined.

Lemma LoadCredentials_skips_comments_witness :
  Loaded.credentialsOf
    (Loader.LoadCredentials
       (Loaded.fileOf ([str "a@x,pw1"] ++ str " # more" :: [str "b@x,pw2"])
          false))
  = Loaded.credentialsOf
      (Loader.LoadCredentials
         (Loaded.fileOf ([str "a@x,pw1"] ++ [str "b@x,pw2"]) false)).
Proof.
  apply (LoadCredentials_skips_comments [str "a@x,pw1"] [str "b@x,pw2"]
           (str " # more") false).
  vm_compute. reflexivity.
Defined.

(** The sample file loads as the two credentials of scenario S4; the
    broken one fails at its third line. *)
Example LoadCredentials_samples :
  Loader.LoadCredentials (Loaded.fileOf SampleFile.usersFile false)
  = inr Sample.twoCredentials
  /\ Loader.LoadCredentials (Loaded.fileOf SampleFile.brokenFile false)
     = inl (Loader.InvalidFormat 3 (str "b@x;pw2")).
Proof. split; vm_compute; reflexivity. Qed.

(* ------------------------------------------------------------------ *)
(** ** The sink: what is taken, what is counted                         *)
(* ------------------------------------------------------------------ *)

Section SinkBounds.

Import Go Metrics Tally Sink.
Local Open Scope Z_scope.

Lemma run_cons c s sched : run c (s :: sched) = run (runStep c s) sched.
Proof. reflexivity. Qed.

Lemma receive_length c :
  (length (metrics (receive c)) <= length (metrics c))%nat.
Proof. destruct c as [[|m rest] acts]; simpl; lia. Qed.

Lemma accepted_all sched : forall c,
  Z.of_nat (length (metrics c)) + Z.of_nat (length (sends sched))
  <= capacity ->
  accepted c sched = sends sched.
Proof.
  induction sched as [|s sched IH]; intros c Hroom; [reflexivity|].
  destruct s as [m|]; simpl in *.
  - unfold Record_.
    destruct (Z.ltb_spec (Z.of_nat (length (metrics c))) capacity)
      as [_|Hfull]; [|lia].
    simpl. f_equal. apply IH. simpl. rewrite length_app. simpl. lia.
  - apply IH. pose proof (receive_length c). lia.
Qed.

(** X8. A run in which the workers send at most 10000 events loses none
    of them: the sink takes every event, in the order sent, however
    rarely the aggregator is scheduled. *)
Theorem sink_keeps_all_within_capacity (sched : list step) :
  Z.of_nat (length (sends sched)) <= 10000 ->
  accepted NewCollector sched = sends sched.
Proof.
  intros Hfew. apply accepted_all. simpl. unfold capacity. lia.
Qed.

Lemma run_queue_bounded sched : forall c,
  Z.of_nat (length (metrics c)) <= capacity ->
  Z.of_nat (length (metrics (run c sched))) <= capacity.
Proof.
  induction sched as [|s sched IH]; intros c Hc; [exact Hc|].
  rewrite run_cons. apply IH. destruct s as [m|]; simpl.
  - unfold Record_.
    destruct (Z.ltb_spec (Z.of_nat (length (metrics c))) capacity)
      as [Hlt|_]; simpl; [|exact Hc].
    rewrite length_app. simpl. lia.
  - pose proof (receive_length c). lia.
Qed.

Lemma accepted_sublist sched : forall c,
  sublist (accepted c sched) (sends sched).
Proof.
  induction sched as [|s sched IH]; intros c; simpl; [constructor|].
  destruct s as [m|]; [|apply IH].
  destruct (snd (Record_ c m)).
  - apply sublist_skip, IH.
  - apply sublist_cons, IH.
Qed.

(** X9. In every interleaving of sends and receives the queue of the
    sink never holds more than 10000 events, and the events the sink
    takes are events that were sent, in the order sent: [Record] drops
    an event or appends it, and nothing else. *)
Theorem sink_queue_bounded (sched : list step) :
  Z.of_nat (length (metrics (run NewCollector sched))) <= 10000
  /\ sublist (accepted NewCollector sched) (sends sched).
Proof.
  split.
  - apply (run_queue_bounded sched NewCollector). simpl.
    unfold capacity. lia.
  - apply accepted_sublist.
Qed.

Lemma wrap64_add_r (a b : Z) : wrap64 (a + wrap64 b) = wrap64 (a + b).
Proof. rewrite Z.add_comm, wrap64_add_l. f_equal. lia. Qed.

Lemma sum_from (l : list Z) : forall z,
  fold_right Z.add z l = fold_right Z.add 0 l + z.
Proof.
  induction l as [|x l IH]; intros z; simpl; [lia|]. rewrite IH. lia.
Qed.

Lemma BytesTotal_update (stats : ActionStats) (m : RequestMetric) :
  BytesTotal (update stats m) = wrap64 (BytesTotal stats + BytesRead m).
Proof. unfold update. destruct (isSuccess m); reflexivity. Qed.

Lemma bytesTotal_statsFor acts name :
  bytesTotal acts name = BytesTotal (statsFor acts name).
Proof. unfold bytesTotal, statsFor. destruct (acts !! name); reflexivity. Qed.

Lemma bytes_after_drain name evs :
  bytesTotal (fold_left collectOne evs ∅) name = wrap64 (bytesRead name evs).
Proof.
  rewrite bytesTotal_statsFor.
  induction evs as [|m evs IH] using rev_ind; [reflexivity|].
  rewrite fold_collectOne_snoc. unfold bytesRead in *.
  rewrite named_snoc, map_app, fold_right_app.
  case_bool_decide as Hname.
  - subst name. rewrite statsFor_collectOne_same.
    rewrite sum_from. simpl map. cbn [fold_right].
    rewrite BytesTotal_update, IH, wrap64_add_l.
    apply (f_equal wrap64). lia.
  - rewrite statsFor_collectOne_other by exact Hname. simpl. exact IH.
Qed.

(** X10. After any interleaving of sends and receives and the final
    drain, the byte total of an action is the sum, in 64-bit arithmetic,
    of the bytes read by the events of that name that the sink took,
    successes and failures alike. *)
Theorem bytes_total_of_accepted (sched : list step) (name : gostring) :
  bytesTotal (actions (Stop (run NewCollector sched))) name
  = wrap64 (bytesRead name (accepted NewCollector sched)).
Proof. rewrite Stop_run_drains. simpl. apply bytes_after_drain. Qed.

(** X11. The statistics of an action depend on the events of that
    action alone: draining a sequence of events gives an action the
    counters, the histogram and the byte total that draining only its
    own events gives, whatever events of other actions come in
    between. *)
Theorem stats_of_own_events (evs : list RequestMetric) (name : gostring) :
  statsFor (fold_left collectOne evs ∅) name
  = statsFor (fold_left collectOne (named name evs) ∅) name.
Proof.
  induction evs as [|m evs IH] using rev_ind; [reflexivity|].
  rewrite named_snoc, fold_collectOne_snoc.
  case_bool_decide as Hname.
  - subst name. rewrite fold_collectOne_snoc, !statsFor_collectOne_same.
    by rewrite IH.
  - rewrite app_nil_r, statsFor_collectOne_other by exact Hname. exact IH.
Qed.

End SinkBounds.

Lemma sink_keeps_all_within_capacity_witness :
  Metrics.accepted Metrics.NewCollector SampleExchange.twoPings
  = Sink.sends SampleExchange.twoPings.
Proof.
  apply (sink_keeps_all_within_capacity SampleExchange.twoPings).
  simpl. lia.
Defined.

(* ------------------------------------------------------------------ *)
(** ** The reports: totals, names, and what they have seen              *)
(* ------------------------------------------------------------------ *)

Section ReportTotals.

Import Go Metrics Tally Sink Reporter.
Local Open Scope Z_scope.

Lemma addStat_comm a b t : addStat a (addStat b t) = addStat b (addStat a t).
Proof.
  unfold addStat. simpl. rewrite !wrap64_add_l.
  f_equal; apply (f_equal wrap64); lia.
Qed.

Lemma totals_insert stats k st :
  stats !! k = None ->
  totals (<[k := st]> stats) = addStat st (totals stats).
Proof.
  intros Hk. unfold totals.
  rewrite map_fold_insert_L; [reflexivity| |exact Hk].
  intros. apply addStat_comm.
Qed.

(** One more event drained: one more request in the totals, a success or
    an error, and its bytes. *)
Lemma totals_collectOne acts m :
  totals (collectOne acts m)
  = {| totalOK :=
         wrap64 (totalOK (totals acts) + (if isSuccess m then 1 else 0));
       totalErr :=
         wrap64 (totalErr (totals acts) + (if isSuccess m then 0 else 1));
       totalBytes := wrap64 (totalBytes (totals acts) + BytesRead m) |}.
Proof.
  unfold collectOne, statsFor.
  destruct (acts !! Name m) as [st|] eqn:Hk.
  - assert (Hacts : acts = <[Name m := st]> (delete (Name m) acts))
      by (symmetry; apply insert_delete_id, Hk).
    assert (Hd : delete (Name m) acts !! Name m = None)
      by apply lookup_delete_eq.
    remember (delete (Name m) acts) as d eqn:Heqd. clear Heqd Hk.
    subst acts. rewrite insert_insert_eq, !totals_insert by exact Hd.
    unfold addStat, update. destruct (isSuccess m); simpl;
      rewrite ?wrap64_add_l, ?wrap64_add_r;
      f_equal; apply (f_equal wrap64); lia.
  - rewrite totals_insert by exact Hk.
    unfold addStat, update, newStats. destruct (isSuccess m); simpl;
      rewrite ?wrap64_add_l, ?wrap64_add_r;
      f_equal; apply (f_equal wrap64); lia.
Qed.

Lemma totals_after_drain evs :
  let t := totals (fold_left collectOne evs ∅) in
  totalOK t = wrap64 (Z.of_nat (allSuccesses evs))
  /\ totalErr t = wrap64 (Z.of_nat (allFailures evs))
  /\ totalBytes t = wrap64 (allBytes evs).
Proof.
  simpl. induction evs as [|m evs IH] using rev_ind.
  - repeat split.
  - rewrite fold_collectOne_snoc, totals_collectOne. simpl.
    destruct IH as (Hok & Herr & Hbytes). rewrite Hok, Herr, Hbytes.
    unfold allSuccesses, allFailures, allBytes.
    rewrite !List.filter_app, !length_app, map_app, fold_right_app. simpl.
    rewrite (sum_from _ (BytesRead m + 0)), !wrap64_add_l.
    destruct (isSuccess m); simpl; repeat split;
      apply (f_equal wrap64); lia.
Qed.

(** X12. The totals of a report. For the statistics the aggregator has
    after draining any sequence of events, the sums that
    [PrintFinalReport] and [SaveReport] make over the actions are, in
    64-bit arithmetic: total requests, the number of events drained;
    total OK, the number of successes among them; total errors, the
    number of the others; total bytes, the sum of the bytes read. The
    order in which the actions are summed makes no difference. *)
Theorem report_totals (evs : list RequestMetric) :
  let t := totals (fold_left collectOne evs ∅) in
  totalRequests t = wrap64 (Z.of_nat (length evs))
  /\ totalOK t = wrap64 (Z.of_nat (allSuccesses evs))
  /\ totalErr t = wrap64 (Z.of_nat (allFailures evs))
  /\ totalBytes t = wrap64 (allBytes evs).
Proof.
  destruct (totals_after_drain evs) as (Hok & Herr & Hbytes). simpl in *.
  split; [|auto]. unfold totalRequests. rewrite Hok, Herr.
  rewrite wrap64_add_l, wrap64_add_r. apply (f_equal wrap64).
  pose proof (filter_split_length isSuccess evs).
  unfold allSuccesses, allFailures. lia.
Qed.

(** X13. [truncateString] returns a name that fits as it is; a longer
    name is cut to its first [maxLen - 3] bytes followed by three dots,
    [maxLen] bytes in all, when [maxLen] is at least 3; for a [maxLen]
    below 3 and a longer name the slice expression panics. *)
Theorem truncateString_fits (s : gostring) (maxLen : Z) :
  match truncateString s maxLen with
  | Some r =>
      (Util.len s <= maxLen /\ r = s)
      \/ (maxLen < Util.len s /\ 3 <= maxLen /\ Util.len r = maxLen
          /\ r = take (Z.to_nat (maxLen - 3)) s ++ str "...")
  | None => maxLen < Util.len s /\ maxLen < 3
  end.
Proof.
  unfold truncateString, Util.len.
  destruct (Z.leb_spec (Z.of_nat (length s)) maxLen) as [Hle|Hgt].
  - left. split; [exact Hle | reflexivity].
  - destruct (Z.ltb_spec (maxLen - 3) 0) as [Hlow|Hok]; simpl.
    + split; lia.
    + destruct (Z.ltb_spec (Z.of_nat (length s)) (maxLen - 3)) as [?|_];
        [lia|].
      right. rewrite length_app, length_take. simpl.
      repeat split; lia.
Qed.

End ReportTotals.

Section ReportsAndDrain.

Import Metrics Orchestrator Progress.

(** The aggregator is always somewhere in the sequence of the events
    queued at the start and those the sink took since. *)
Lemma run_position sched : forall c,
  exists k,
    (k <= length (metrics c ++ accepted c sched))%nat
    /\ actions (run c sched)
       = fold_left collectOne (take k (metrics c ++ accepted c sched))
           (actions c)
    /\ metrics (run c sched) = drop k (metrics c ++ accepted c sched).
Proof.
  induction sched as [|s sched IH]; intros c.
  - exists O. simpl. rewrite app_nil_r. repeat split. lia.
  - rewrite run_cons. destruct s as [m|]; simpl.
    + unfold Record_.
      destruct (Z.of_nat (length (metrics c)) <? capacity); simpl.
      * destruct (IH {| metrics := metrics c ++ [m]; actions := actions c |})
          as (k & Hk & Ha & Hm).
        simpl in *. rewrite <- app_assoc in *. simpl in *. by exists k.
      * apply IH.
    + destruct c as [[|m0 rest] acts]; simpl.
      * apply (IH {| metrics := []; actions := acts |}).
      * destruct (IH {| metrics := rest; actions := collectOne acts m0 |})
          as (k & Hk & Ha & Hm).
        simpl in *. exists (S k). simpl.
        change (receive {| metrics := m0 :: rest; actions := acts |})
          with {| metrics := rest; actions := collectOne acts m0 |}.
        repeat split; [lia | exact Ha | exact Hm].
Qed.

Lemma run_drained sched :
  exists k,
    (k <= length (accepted NewCollector sched))%nat
    /\ drained (accepted NewCollector sched) k (run NewCollector sched).
Proof.
  destruct (run_position sched NewCollector) as (k & Hk & Ha & Hm).
  exists k. split; [exact Hk|]. split; [exact Ha | exact Hm].
Qed.

Lemma receive_drained evs k c :
  (k <= length evs)%nat -> drained evs k c ->
  exists k',
    (k <= k' <= length evs)%nat /\ drained evs k' (receive c).
Proof.
  intros Hk [Ha Hm]. destruct c as [q acts]. simpl in *.
  destruct q as [|m rest].
  - exists k. split; [lia|]. split; assumption.
  - assert (Hat : evs !! k = Some m).
    { rewrite <- (Nat.add_0_r k), <- lookup_drop, <- Hm. reflexivity. }
    exists (S k). split.
    + apply lookup_lt_Some in Hat. lia.
    + split; simpl.
      * rewrite (take_S_r _ _ _ Hat), fold_left_app, <- Ha. reflexivity.
      * rewrite (drop_S _ _ _ Hat) in Hm. congruence.
Qed.

Lemma receiveN_drained evs n : forall k c,
  (k <= length evs)%nat -> drained evs k c ->
  exists k',
    (k <= k' <= length evs)%nat /\ drained evs k' (receiveN n c).
Proof.
  induction n as [|n IH]; intros k c Hk Hd.
  - exists k. split; [lia | exact Hd].
  - destruct (IH k c Hk Hd) as (k1 & Hk1 & Hd1).
    destruct (receive_drained evs k1 (receiveN n c) ltac:(lia) Hd1)
      as (k2 & Hk2 & Hd2).
    exists k2. split; [lia | exact Hd2].
Qed.

Lemma Stop_drained evs k c :
  drained evs k c ->
  fold_left collectOne (metrics c) (actions c) = fold_left collectOne evs ∅.
Proof.
  intros [Ha Hm].
  rewrite Ha, Hm, <- fold_left_app, take_drop. reflexivity.
Qed.

End ReportsAndDrain.

Section ReportRows.

Import Go Metrics Tally Orchestrator Progress.

Lemma In_insertString x y l : In y (insertString x l) <-> y = x \/ In y l.
Proof.
  induction l as [|z l IH]; simpl; [intuition|].
  destruct (lessString x z); simpl; [intuition|].
  rewrite IH. intuition.
Qed.

Lemma In_sortStrings y l : In y (sortStrings l) <-> In y l.
Proof.
  unfold sortStrings. induction l as [|x l IH]; simpl; [reflexivity|].
  rewrite In_insertString, IH. intuition.
Qed.

Lemma NoDup_insertString x l :
  List.NoDup l -> ~ In x l -> List.NoDup (insertString x l).
Proof.
  induction l as [|z l IH]; intros Hl Hx; simpl.
  - constructor; [intros []|constructor].
  - destruct (lessString x z).
    + by constructor.
    + inversion Hl as [|? ? Hz Hl']; subst. constructor.
      * rewrite In_insertString. intros [->|Hin]; [|contradiction].
        apply Hx. by left.
      * apply IH; [exact Hl'|]. intros Hin. apply Hx. by right.
Qed.

Lemma NoDup_sortStrings l : List.NoDup l -> List.NoDup (sortStrings l).
Proof.
  unfold sortStrings. induction l as [|x l IH]; intros Hl; simpl.
  - constructor.
  - inversion Hl as [|? ? Hx Hl']; subst.
    apply NoDup_insertString; [by apply IH|].
    fold (sortStrings l). by rewrite In_sortStrings.
Qed.

(** The names that have statistics: those of the events drained. *)
Lemma names_after_drain (name : gostring) : forall evs acts,
  is_Some (fold_left collectOne evs acts !! name)
  <-> is_Some (acts !! name) \/ In name (map Name evs).
Proof.
  induction evs as [|m evs IH]; intros acts; simpl; [tauto|].
  rewrite IH. unfold collectOne.
  destruct (decide (Name m = name)) as [->|Hne].
  - rewrite lookup_insert_eq. split; [intros _|eauto]. right. by left.
  - rewrite lookup_insert_ne by exact Hne. tauto.
Qed.

Lemma In_GetStats (c : Collector) (name : gostring) :
  In name (GetStats c) <-> is_Some (actions c !! name).
Proof.
  unfold GetStats. rewrite in_map_iff. split.
  - intros [[k v] [<- Hin]]. apply list_elem_of_In in Hin.
    apply elem_of_map_to_list in Hin. simpl. eauto.
  - intros [v Hv]. exists (name, v). split; [reflexivity|].
    apply list_elem_of_In. by apply elem_of_map_to_list.
Qed.

Lemma GetStats_drained evs k c name :
  drained evs k c ->
  In name (GetStats c) <-> In name (map Name (take k evs)).
Proof.
  intros [Ha _]. rewrite In_GetStats, Ha, names_after_drain.
  rewrite lookup_empty. split; [intros [[? ?]|?]; [discriminate|auto] | auto].
Qed.

Lemma NoDup_GetStats (c : Collector) : List.NoDup (GetStats c).
Proof.
  unfold GetStats. apply NoDup_ListNoDup.
  apply (NoDup_fst_map_to_list (actions c)).
Qed.

(** A counter read through a pointer when the first [k] events are
    drained. *)
Lemma live_drained evs k c name :
  drained evs k c ->
  TotalOK (live c name) = wrap64 (Z.of_nat (successes name (take k evs)))
  /\ TotalErrors (live c name)
     = wrap64 (Z.of_nat (failures name (take k evs))).
Proof.
  intros [Ha _]. unfold live. rewrite Ha.
  destruct (counters_after_drain name (take k evs)) as [Hok Herr].
  simpl in Hok, Herr.
  by rewrite <- okCount_statsFor, <- errCount_statsFor.
Qed.

Lemma readRows_reads evs gaps names : forall i k c,
  (k <= length evs)%nat -> drained evs k c ->
  exists k',
    (k <= k' <= length evs)%nat
    /\ drained evs k' (snd (readRows names gaps i c))
    /\ map fst (fst (readRows names gaps i c)) = names
    /\ forall name row,
         In (name, row) (fst (readRows names gaps i c)) ->
         exists k1 k2,
           (k <= k1 <= k2)%nat /\ (k2 <= length evs)%nat
           /\ shownOK row
              = wrap64 (Z.of_nat (successes name (take k1 evs)))
           /\ shownErr row
              = wrap64 (Z.of_nat (failures name (take k2 evs))).
Proof.
  induction names as [|name names IH]; intros i k c Hk Hd.
  - exists k. simpl. repeat split; [lia | lia | apply Hd | apply Hd |].
    intros name row [].
  - destruct (receiveN_drained evs (gaps i) k c Hk Hd) as (k1 & Hk1 & Hd1).
    destruct (receiveN_drained evs (gaps (S i)) k1 _ ltac:(lia) Hd1)
      as (k2 & Hk2 & Hd2).
    destruct (IH (S (S i)) k2 _ ltac:(lia) Hd2)
      as (k' & Hk' & Hd' & Hnames & Hrows).
    change (readRows (name :: names) gaps i c)
      with (let c1 := receiveN (gaps i) c in
            let ok := TotalOK (live c1 name) in
            let c2 := receiveN (gaps (S i)) c1 in
            let err := TotalErrors (live c2 name) in
            let '(rows, c3) := readRows names gaps (S (S i)) c2 in
            ((name, {| shownOK := ok; shownErr := err |}) :: rows, c3)).
    cbv zeta.
    destruct (readRows names gaps (S (S i))
                (receiveN (gaps (S i)) (receiveN (gaps i) c)))
      as [rows c3].
    simpl in *. exists k'. split; [lia|]. split; [exact Hd'|].
    split; [by rewrite Hnames|].
    intros n row [Heq|Hin].
    + injection Heq as <- <-. exists k1, k2. simpl.
      destruct (live_drained evs k1 _ name Hd1) as [Hok _].
      destruct (live_drained evs k2 _ name Hd2) as [_ Herr].
      repeat split; [lia | lia | lia | exact Hok | exact Herr].
    + destruct (Hrows n row Hin) as (j1 & j2 & Hj & Hj2 & Hok & Herr).
      exists j1, j2. repeat split; [lia | lia | lia | exact Hok | exact Herr].
Qed.

Lemma lookup_rows (rows : list (gostring * Row)) (name : gostring) :
  List.NoDup (map fst rows) ->
  match (list_to_map rows : gmap gostring Row) !! name with
  | Some row => In (name, row) rows
  | None => ~ In name (map fst rows)
  end.
Proof.
  intros Hnd. apply NoDup_ListNoDup in Hnd.
  destruct ((list_to_map rows : gmap gostring Row) !! name) as [row|] eqn:E.
  - apply list_elem_of_In. by apply elem_of_list_to_map_2.
  - apply not_elem_of_list_to_map in E. intros Hin. apply E.
    by apply list_elem_of_In.
Qed.

(** A report, started when the first [k] events are drained. *)
Lemma report_shows evs sorted before gaps k c :
  (k <= length evs)%nat -> drained evs k c ->
  exists k0 k',
    (k <= k0 <= k')%nat /\ (k' <= length evs)%nat
    /\ shows evs k0 (fst (report sorted before gaps c))
    /\ drained evs k' (snd (report sorted before gaps c)).
Proof.
  intros Hk Hd. unfold report.
  destruct (receiveN_drained evs before k c Hk Hd) as (k0 & Hk0 & Hd0).
  set (c0 := receiveN before c) in *.
  set (names := if sorted then sortStrings (GetStats c0) else GetStats c0).
  assert (Hin : forall name,
             In name names <-> In name (map Name (take k0 evs))).
  { intros name. subst names. destruct sorted.
    - rewrite In_sortStrings. by apply GetStats_drained.
    - by apply GetStats_drained. }
  assert (Hnd : List.NoDup names).
  { subst names. destruct sorted.
    - apply NoDup_sortStrings, NoDup_GetStats.
    - apply NoDup_GetStats. }
  destruct (readRows_reads evs gaps names O k0 c0 ltac:(lia) Hd0)
    as (k' & Hk' & Hd' & Hnames & Hrows).
  destruct (readRows names gaps 0 c0) as [rows c1]. simpl in *.
  exists k0, k'. split; [lia|]. split; [lia|]. split; [|exact Hd'].
  intros name. rewrite <- Hnames in Hnd.
  pose proof (lookup_rows rows name Hnd) as Hl.
  destruct ((list_to_map rows : gmap gostring Row) !! name) as [row|].
  - split.
    + apply Hin. rewrite <- Hnames. apply in_map_iff.
      by exists (name, row).
    + destruct (Hrows name row Hl) as (k1 & k2 & H1 & H2 & Hok & Herr).
      exists k1, k2.
      repeat split; [lia | lia | lia | lia | exact Hok | exact Herr].
  - rewrite Hnames in Hl. intros Hname. apply Hl, Hin, Hname.
Qed.

(** X14. What the reports of a run show. A report reads the counters
    through the pointers [GetStats] gave it while the aggregator, stopped
    only when [Run] returns, goes on receiving. Whatever the workers send
    and whenever the aggregator is scheduled: [PrintFinalReport] has a
    row for exactly the actions with an event among the first [k] events
    the sink took, for some [k], and each count it shows is the count
    over a first part of the events taken that is at least that long; so
    has [SaveReport], when an output file is set, for some
    [k' >= k]; and the deferred [Stop] leaves the collector with an empty
    queue and the statistics of all the events taken. The counts of
    different rows may come from different parts. *)
Theorem reports_show_counts_of_prefixes (cfg : Config) (sched : Schedule) :
  let sys := runSystem cfg sched in
  let evs := accepted NewCollector (whileWorkersRun sched) in
  exists k k',
    (k <= k' <= length evs)%nat
    /\ (exists rows, printed sys = Some rows /\ shows evs k rows)
    /\ (if Go.isEmpty (OutputFile cfg) then saved sys = None
        else exists rows, saved sys = Some rows /\ shows evs k' rows)
    /\ actions (collector sys) = fold_left collectOne evs ∅
    /\ metrics (collector sys) = [].
Proof.
  intros sys evs. subst sys.
  destruct (run_drained (whileWorkersRun sched)) as (k0 & Hk0 & Hd0).
  fold evs in Hk0, Hd0.
  destruct (report_shows evs true (beforePrint sched) (duringPrint sched)
              k0 _ Hk0 Hd0) as (k & kp & Hk & Hkp & Hshow & Hdp).
  destruct (report_shows evs false (beforeSave sched) (duringSave sched)
              kp _ Hkp Hdp) as (k' & ks & Hk' & Hks & Hshow' & Hds).
  exists k, k'. split; [lia|].
  unfold runSystem, Run, RunBody.
  destruct (Go.isEmpty (OutputFile cfg)); simpl.
  - destruct (report true (beforePrint sched) (duringPrint sched)
                (run NewCollector (whileWorkersRun sched)))
      as [rows c] eqn:E.
    simpl in *. split; [by exists rows|]. split; [reflexivity|].
    split; [exact (Stop_drained evs kp c Hdp) | reflexivity].
  - destruct (report true (beforePrint sched) (duringPrint sched)
                (run NewCollector (whileWorkersRun sched)))
      as [rows c] eqn:E.
    simpl in *.
    destruct (report false (beforeSave sched) (duringSave sched) c)
      as [rows' c'] eqn:E'.
    simpl in *. split; [by exists rows|]. split; [by exists rows'|].
    split; [exact (Stop_drained evs ks c' Hds) | reflexivity].
Qed.

(** Events A, B, A, B, all taken before the reports; the first report
    calls [GetStats] when two are drained and reads the row of A at
    once, and the aggregator drains the other two before the row of B is
    read: the report shows one success for A and two for B, which the
    statistics never held together. *)
Example rows_from_different_moments :
  printed (runSystem Scenario.withOutputFile SampleExchange.interleaved)
  = Some {[ str "A" := {| shownOK := 1; shownErr := 0 |};
            str "B" := {| shownOK := 2; shownErr := 0 |} ]}.
Proof. vm_compute. reflexivity. Qed.

End ReportRows.


(* ------------------------------------------------------------------ *)
(** ** Templates without arguments                                      *)
(* ------------------------------------------------------------------ *)

Section Templates.

Import Go Script Loop Pieces Template.

(** No instance of a text that starts with two opening braces starts in
    plain text. *)
Lemma plain_no_prefix (old : gostring) : forall t rest i,
  plain t = true -> (i < length t)%nat ->
  HasPrefix (drop i (t ++ rest)) ("{"%char :: "{"%char :: old) = false.
Proof.
  induction t as [|c t IH]; intros rest i Hplain Hi; [simpl in Hi; lia|].
  assert (Htail : plain t = true \/ t = []).
  { simpl in Hplain. destruct (isOpen c); [|by left].
    destruct t as [|c2 t']; [by right|].
    apply andb_true_iff in Hplain as [_ Ht]. by left. }
  destruct i as [|i].
  - simpl drop. simpl in Hplain. destruct (isOpen c) eqn:Hc.
    + destruct t as [|c2 t']; [discriminate|].
      apply andb_true_iff in Hplain as [Hc2 _].
      apply negb_true_iff in Hc2.
      rewrite <- !app_comm_cons, HasPrefix_cons,
        (HasPrefix_not_open c2 _ _ Hc2), andb_false_r.
      reflexivity.
    + apply HasPrefix_not_open, Hc.
  - simpl in Hi. destruct Htail as [Ht | ->]; [|simpl in Hi; lia].
    rewrite <- app_comm_cons. simpl drop. apply IH; [exact Ht | lia].
Qed.

Lemma plain_no_instance (old t : gostring) :
  plain t = true -> Index t ("{"%char :: "{"%char :: old) = None.
Proof.
  intros Hplain. rewrite <- (app_nil_r t).
  rewrite Index_pass by (intros i Hi; by apply plain_no_prefix).
  reflexivity.
Qed.

Lemma plain_app (a b : gostring) :
  plain a = true -> plain b = true -> plain (a ++ b) = true.
Proof.
  intros Ha Hb. induction a as [|c a IH]; [exact Hb|].
  simpl in Ha. rewrite <- app_comm_cons.
  change (plain (c :: a ++ b))
    with (if isOpen c
          then match a ++ b with
               | [] => false
               | c2 :: _ => negb (isOpen c2) && plain (a ++ b)
               end
          else plain (a ++ b)).
  destruct (isOpen c).
  - destruct a as [|c2 a']; [discriminate|].
    apply andb_true_iff in Ha as [Hc2 Ha].
    rewrite <- app_comm_cons, Hc2. simpl negb. cbn [andb].
    rewrite app_comm_cons. apply IH, Ha.
  - apply IH, Ha.
Qed.

Lemma replaceFrom_plain_text (old v : gostring) : forall t rest,
  plain t = true ->
  replaceFrom ("{"%char :: "{"%char :: old) v O (t ++ rest)
  = t ++ replaceFrom ("{"%char :: "{"%char :: old) v O rest.
Proof.
  induction t as [|c t IH]; intros rest Hplain; [reflexivity|].
  simpl in Hplain.
  rewrite <- !app_comm_cons, replaceFrom_cons.
  destruct (isOpen c) eqn:Hc.
  - destruct t as [|c2 t']; [discriminate|].
    apply andb_true_iff in Hplain as [Hc2 Ht].
    apply negb_true_iff in Hc2.
    rewrite HasPrefix_cons, <- app_comm_cons,
      (HasPrefix_not_open c2 _ _ Hc2), andb_false_r.
    f_equal. rewrite app_comm_cons. apply IH. exact Ht.
  - rewrite (HasPrefix_not_open c _ _ Hc). f_equal. apply IH. exact Hplain.
Qed.

Lemma tagText_shape (g : tag) :
  exists old, tagText g = "{"%char :: "{"%char :: old.
Proof. destruct g; eexists; reflexivity. Qed.

Lemma replaceFrom_tag (g h : tag) (v rest : gostring) :
  replaceFrom (tagText g) v O (tagText h ++ rest)
  = renderPiece (subst g v (Tag h)) ++ replaceFrom (tagText g) v O rest.
Proof. destruct g, h; reflexivity. Qed.

Lemma ReplaceAll_template (g : tag) (v : gostring) (ps : list piece) :
  forallb plainPiece ps = true ->
  ReplaceAll (render ps) (tagText g) v = render (map (subst g v) ps).
Proof.
  intros Hps.
  assert (Hdef : forall s,
             ReplaceAll s (tagText g) v = replaceFrom (tagText g) v O s)
    by (intros s; destruct g; reflexivity).
  rewrite Hdef. clear Hdef.
  induction ps as [|p ps IH]; [reflexivity|].
  simpl in Hps. apply andb_true_iff in Hps as [Hp Hps].
  change (render (p :: ps)) with (renderPiece p ++ render ps).
  change (render (map (subst g v) (p :: ps)))
    with (renderPiece (subst g v p) ++ render (map (subst g v) ps)).
  destruct p as [t|h].
  - simpl renderPiece. destruct (tagText_shape g) as [old Hg].
    rewrite Hg in *. rewrite replaceFrom_plain_text by exact Hp.
    by rewrite IH.
  - change (renderPiece (Tag h)) with (tagText h).
    rewrite replaceFrom_tag. by rewrite IH.
Qed.

Lemma subst_plainPiece (g : tag) (v : gostring) (ps : list piece) :
  braceFree v = true ->
  forallb plainPiece ps = true ->
  forallb plainPiece (map (subst g v) ps) = true.
Proof.
  intros Hv. induction ps as [|p ps IH]; [reflexivity|]. simpl.
  intros H. apply andb_true_iff in H as [Hp Hps].
  rewrite IH by exact Hps. rewrite andb_true_r.
  destruct p as [t|h]; [exact Hp|].
  destruct g, h; simpl; auto using braceFree_plain.
Qed.

Lemma numeric_not_open (c : ascii) : numeric c = true -> isOpen c = false.
Proof.
  intros H. unfold isOpen. destruct (Ascii.eqb_spec c "{"%char) as [->|];
    [discriminate | reflexivity].
Qed.

Lemma Itoa_braceFree (z : Z) : braceFree (Itoa z) = true.
Proof.
  destruct (Itoa_numeric z) as [_ H]. unfold braceFree.
  apply forallb_forall. intros c Hc.
  rewrite List.Forall_forall in H.
  by rewrite (numeric_not_open c (H c Hc)).
Qed.

Lemma movie_braceFree (i : nat) : braceFree (nth i movieList []) = true.
Proof. do 5 (destruct i as [|i]; [reflexivity|]). by destruct i. Qed.

(** No placeholder without an argument holds the start of an expression
    of a loop. *)
Lemma tag_no_prefix (g : tag) (K rest : gostring) (i : nat) :
  K = str "{{randInt" \/ K = str "{{randDelay" ->
  (i < length (tagText g))%nat ->
  HasPrefix (drop i (tagText g ++ rest)) K = false.
Proof.
  intros [-> | ->] Hi; destruct g; simpl in Hi;
    repeat (destruct i as [|i]; [reflexivity|]); lia.
Qed.

Lemma render_no_keyword (K : gostring) (ps : list piece) :
  K = str "{{randInt" \/ K = str "{{randDelay" ->
  forallb plainPiece ps = true ->
  Index (render ps) K = None.
Proof.
  intros HK. induction ps as [|p ps IH]; intros Hps.
  - destruct HK as [-> | ->]; reflexivity.
  - simpl in Hps. apply andb_true_iff in Hps as [Hp Hps].
    change (render (p :: ps)) with (renderPiece p ++ render ps).
    rewrite Index_pass; [by rewrite IH|].
    intros i Hi. destruct p as [t|g].
    + destruct HK as [-> | ->]; by apply plain_no_prefix.
    + by apply tag_no_prefix.
Qed.

Lemma pick_no_prefix (g : tag) (rest : gostring) (i : nat) :
  isPick (Tag g) = false ->
  (i < length (tagText g))%nat ->
  HasPrefix (drop i (tagText g ++ rest)) (str "{{pick movies}}") = false.
Proof.
  intros Hg Hi. destruct g; [| |discriminate]; simpl in Hi;
    repeat (destruct i as [|i]; [reflexivity|]); lia.
Qed.

Lemma Contains_pick (ps : list piece) :
  forallb plainPiece ps = true ->
  Contains (render ps) (str "{{pick movies}}") = existsb isPick ps.
Proof.
  unfold Contains. induction ps as [|p ps IH]; intros Hps; [reflexivity|].
  simpl in Hps. apply andb_true_iff in Hps as [Hp Hps].
  change (render (p :: ps)) with (renderPiece p ++ render ps).
  cbn [existsb]. destruct (isPick p) eqn:Hpick.
  - destruct p as [t|[]]; try discriminate.
    by rewrite Index_here by apply HasPrefix_app_self.
  - cbn [orb]. rewrite <- IH by exact Hps.
    rewrite Index_pass.
    + by destruct (Index (render ps) (str "{{pick movies}}")).
    + intros i Hi. destruct p as [t|g].
      * by apply plain_no_prefix.
      * by apply pick_no_prefix.
Qed.

Lemma template_filled (userID : Z) (now : Time) (movie : gostring)
  (ps : list piece) :
  render (map (subst PickMovies movie)
            (map (subst EpochMs (Itoa (UnixMilli now)))
               (map (subst UserId (Itoa userID)) ps)))
  = flat_map (fill userID now movie) ps.
Proof.
  induction ps as [|p ps IH]; [reflexivity|].
  simpl. unfold render in IH. rewrite <- IH.
  destruct p as [t|[]]; reflexivity.
Qed.

Lemma filled_plain (userID : Z) (now : Time) (movie : gostring)
  (ps : list piece) :
  braceFree movie = true ->
  forallb plainPiece ps = true ->
  plain (flat_map (fill userID now movie) ps) = true.
Proof.
  intros Hm. induction ps as [|p ps IH]; intros Hps; [reflexivity|].
  simpl in Hps. apply andb_true_iff in Hps as [Hp Hps].
  simpl. apply plain_app; [|by apply IH].
  destruct p as [t|[]]; simpl;
    auto using braceFree_plain, Itoa_braceFree.
Qed.

Lemma nextMovie_listed (r : Rand) : In (nextMovie r) movieList.
Proof.
  unfold nextMovie.
  pose proof (Z.mod_pos_bound (draws r (drawn r)) 5 ltac:(lia)) as H.
  apply nth_In. simpl. lia.
Qed.

(** X15. A template made of plain text and of the placeholders
    [{{userId}}], [{{epochms}}] and [{{pick movies}}]: every [{{userId}}]
    becomes the user id in decimal and every [{{epochms}}] the clock in
    milliseconds; when the template holds a [{{pick movies}}], one movie
    of the list is drawn, once, and every [{{pick movies}}] of the string
    becomes that movie; otherwise the random source is not touched. The
    text between the placeholders is kept as it is. *)
Theorem expandString_template (now : Time) (userID : Z)
  (ps : list piece) (rng : Rand) :
  forallb plainPiece ps = true ->
  In (nextMovie rng) movieList
  /\ expandString now (render ps) userID rng
     = if existsb isPick ps
       then Done (flat_map (fill userID now (nextMovie rng)) ps,
                  RandInt.afterDraw rng)
       else Done (flat_map (fill userID now []) ps, rng).
Proof.
  intros Hps. split; [apply nextMovie_listed|].
  set (ps1 := map (subst UserId (Itoa userID)) ps).
  set (ps2 := map (subst EpochMs (Itoa (UnixMilli now))) ps1).
  assert (Hps1 : forallb plainPiece ps1 = true)
    by (apply subst_plainPiece; [apply Itoa_braceFree | exact Hps]).
  assert (Hps2 : forallb plainPiece ps2 = true)
    by (apply subst_plainPiece; [apply Itoa_braceFree | exact Hps1]).
  assert (Hpick : existsb isPick ps2 = existsb isPick ps).
  { subst ps2 ps1. clear. induction ps as [|p ps IH]; [reflexivity|].
    simpl. rewrite IH. by destruct p as [t|[]]. }
  assert (Hfilled : forall movie, braceFree movie = true ->
            ReplaceAll (render ps2) (str "{{pick movies}}") movie
            = flat_map (fill userID now movie) ps
            /\ Index (flat_map (fill userID now movie) ps)
                 (str "{{randDelay") = None).
  { intros movie Hm. split.
    - rewrite (ReplaceAll_template PickMovies) by exact Hps2.
      apply template_filled.
    - apply plain_no_instance. by apply filled_plain. }
  unfold expandString.
  rewrite (ReplaceAll_template UserId) by exact Hps. fold ps1.
  rewrite (ReplaceAll_template EpochMs) by exact Hps1. fold ps2.
  unfold bind at 1. unfold expandRandInt.
  rewrite expandRand_no_keyword by (apply render_no_keyword; auto).
  unfold bind at 1.
  rewrite Contains_pick by exact Hps2. rewrite Hpick.
  destruct (existsb isPick ps) eqn:Hex.
  - unfold bind, randIntn, Intn, ret.
    change (Z.of_nat (length movieList)) with 5.
    change (5 <=? 0) with false. cbv iota.
    destruct (Hfilled (nextMovie rng) (movie_braceFree _)) as [Hr Hd].
    unfold nextMovie in *. rewrite Hr.
    unfold expandRandDelay. by apply expandRand_no_keyword.
  - unfold ret.
    destruct (Hfilled [] eq_refl) as [Hr Hd].
    rewrite ReplaceAll_absent in Hr.
    + rewrite Hr. unfold expandRandDelay. by apply expandRand_no_keyword.
    + pose proof (Contains_pick ps2 Hps2) as Hc. rewrite Hpick in Hc.
      unfold Contains in Hc.
      by destruct (Index (render ps2) (str "{{pick movies}}")).
Qed.

Lemma Index_None_longer (p q : gostring) : forall s,
  Index s p = None -> Index s (p ++ q) = None.
Proof.
  induction s as [|c s IH]; intros H.
  - destruct p; [discriminate|reflexivity].
  - rewrite Index_cons in *.
    destruct (HasPrefix (c :: s) p) eqn:Hp; [discriminate|].
    assert (Hpq : HasPrefix (c :: s) (p ++ q) = false).
    { clear -Hp. revert Hp. generalize (c :: s). clear.
      induction p as [|x p IHp]; intros s Hp; [discriminate|].
      destruct s as [|y s]; [reflexivity|].
      rewrite <- app_comm_cons, HasPrefix_cons in *.
      destruct (Ascii.eqb x y); [|reflexivity]. simpl in *. by apply IHp. }
    rewrite Hpq. destruct (Index s p); [discriminate|]. by rewrite IH.
Qed.

Lemma expandString_verbatim (now : Time) (userID : Z) (s : gostring)
  (rng : Rand) :
  Index s (str "{{") = None ->
  expandString now s userID rng = Done (s, rng).
Proof.
  intros H.
  assert (Hno : forall q, Index s (str "{{" ++ q) = None)
    by (intros q; by apply Index_None_longer).
  unfold expandString.
  rewrite (ReplaceAll_absent s _ _ (Hno (str "userId}}"))).
  rewrite (ReplaceAll_absent s _ _ (Hno (str "epochms}}"))).
  unfold bind at 1. unfold expandRandInt.
  rewrite expandRand_no_keyword by apply (Hno (str "randInt")).
  unfold bind at 1. unfold Contains.
  assert (Hp : Index s (str "{{pick movies}}") = None)
    by apply (Hno (str "pick movies}}")).
  rewrite Hp. unfold ret, expandRandDelay.
  apply expandRand_no_keyword. apply (Hno (str "randDelay")).
Qed.

(** X16. A string with no two opening braces in a row is returned by
    [expandString] as it is, for every user and clock, without a draw
    from the random source and without a panic. *)
Theorem expandString_no_braces (now : Time) (userID : Z) (s : gostring)
  (rng : Rand) :
  Index s (str "{{") = None ->
  expandString now s userID rng = Done (s, rng).
Proof. apply expandString_verbatim. Qed.

End Templates.

Lemma expandString_template_witness :
  In (Template.nextMovie ScenarioS4.noDraws) Script.movieList
  /\ Script.expandString 0 (Template.render SampleExchange.catalog) 7
       ScenarioS4.noDraws
     = if existsb Template.isPick SampleExchange.catalog
       then Script.Done
              (flat_map
                 (Template.fill 7 0 (Template.nextMovie ScenarioS4.noDraws))
                 SampleExchange.catalog,
               RandInt.afterDraw ScenarioS4.noDraws)
       else Script.Done
              (flat_map (Template.fill 7 0 []) SampleExchange.catalog,
               ScenarioS4.noDraws).
Proof.
  apply (expandString_template 0 7 SampleExchange.catalog
           ScenarioS4.noDraws).
  reflexivity.
Defined.

Lemma expandString_no_braces_witness :
  Script.expandString 0 (str "https://example/health") 7
    ScenarioS4.noDraws
  = Script.Done (str "https://example/health", ScenarioS4.noDraws).
Proof.
  apply (expandString_no_braces 0 7 (str "https://example/health")
           ScenarioS4.noDraws).
  vm_compute. reflexivity.
Defined.

(** The URL of the example: user 7, and the first movie for a random
    source that gives 0. *)
Example expandString_catalog_movie :
  Script.expandString 0 (Template.render SampleExchange.catalog) 7
    ScenarioS4.noDraws
  = Script.Done (str "https://example/users/7/movies/movie1",
                 RandInt.afterDraw ScenarioS4.noDraws).
Proof. vm_compute. reflexivity. Qed.

(* ------------------------------------------------------------------ *)
(** ** The second loop, whole actions, delays                           *)
(* ------------------------------------------------------------------ *)

Section RandDelayExpansion.

Import Go Script Loop RandDelay.

Lemma randDelay_keyword_ok : keywordOK keyword = true.
Proof. reflexivity. Qed.

Lemma randDelay_fallback_ok : fallbackOK (str "1000") = true.
Proof. reflexivity. Qed.

Lemma expandRandDelay_expression (pre args post : gostring) (rng : Rand) :
  Index (pre ++ keyword) keyword = Some (length pre) ->
  Index (args ++ closing) closing = Some (length args) ->
  expandRandDelay (pre ++ keyword ++ args ++ closing ++ post) rng
  = match replacement (str "1000") (Fields args) rng with
    | Done (repl, rng') => prepend (pre ++ repl) (expandRandDelay post rng')
    | Panicked => Panicked
    | OutOfFuel => OutOfFuel
    end.
Proof.
  intros H1 H2. unfold expandRandDelay. fold keyword.
  rewrite (expandRand_expression keyword (str "1000") randDelay_keyword_ok
             randDelay_fallback_ok) by assumption.
  destruct (replacement (str "1000") (Fields args) rng) as [[repl rng']| |];
    try reflexivity.
  f_equal.
  apply (expandRand_enough_fuel keyword (str "1000") randDelay_keyword_ok
           randDelay_fallback_ok (S (length post)) post rng' ltac:(lia)).
  rewrite !length_app, length_closing. lia.
Qed.

(** X17. The second loop of [expandString], over [{{randDelay]. Let
    [pre] hold no [{{randDelay] before the one that follows it. For the
    expression [{{randDelay A B}}] of two integers [A < B] with
    [B - A + 1] an [int], a decimal integer drawn from [[A, B]] is
    written; when the text up to the closing braces is not two fields, or
    a field is not an [int], or [A >= B], the text [1000] is written and
    nothing is drawn. The loop goes on after the expression. *)
Theorem expandRandDelay_expressions (pre post : gostring) (rng : Rand) :
  Index (pre ++ keyword) keyword = Some (length pre) ->
  (forall A B,
      inInt64 A = true -> inInt64 B = true ->
      A < B -> B - A < 2 ^ 63 - 1 ->
      exists v,
        A <= v <= B
        /\ expandRandDelay (pre ++ expression A B ++ post) rng
           = prepend (pre ++ Itoa v)
               (expandRandDelay post (RandInt.afterDraw rng)))
  /\ (forall args,
        Index (args ++ closing) closing = Some (length args) ->
        invalidArgs args ->
        expandRandDelay (pre ++ keyword ++ args ++ closing ++ post) rng
        = prepend (pre ++ str "1000") (expandRandDelay post rng)).
Proof.
  intros H1. split.
  - intros A B HA HB Hlt Hfit.
    destruct (replacement_in_range (str "1000") (Itoa A) (Itoa B) A B rng
                (Atoi_Itoa A HA) (Atoi_Itoa B HB) Hlt Hfit)
      as (v & Hv & Hrepl).
    exists v. split; [exact Hv|].
    unfold expression. rewrite <- !app_assoc.
    rewrite expandRandDelay_expression
      by (exact H1 || apply arguments_closed).
    by rewrite Fields_arguments, Hrepl.
  - intros args H2 Hinv. rewrite expandRandDelay_expression by assumption.
    by rewrite replacement_fallback.
Qed.

Lemma expandRandInt_ends s r : expandRandInt s r <> OutOfFuel.
Proof.
  unfold expandRandInt.
  apply (expandRand_enough_fuel (str "{{randInt") (str "1")
           randInt_keyword_ok randInt_fallback_ok). lia.
Qed.

Lemma expandRandDelay_ends s r : expandRandDelay s r <> OutOfFuel.
Proof.
  unfold expandRandDelay.
  apply (expandRand_enough_fuel (str "{{randDelay") (str "1000")
           randDelay_keyword_ok randDelay_fallback_ok). lia.
Qed.

Lemma expandString_total now s userID r :
  expandString now s userID r <> OutOfFuel.
Proof.
  unfold expandString, bind.
  match goal with
  | |- context [expandRandInt ?x r] =>
      pose proof (expandRandInt_ends x r) as H1;
      destruct (expandRandInt x r) as [[t r1]| |]
  end; [|discriminate|congruence].
  destruct (Contains t (str "{{pick movies}}")).
  - unfold randIntn. destruct (Intn r1 _) as [[v r2]|]; [|discriminate].
    unfold ret. apply expandRandDelay_ends.
  - unfold ret. apply expandRandDelay_ends.
Qed.

Lemma expandHeaders_ends now userID entries : forall acc r,
  expandHeaders now userID entries acc r <> OutOfFuel.
Proof.
  induction entries as [|[key value] entries IH]; intros acc r;
    [discriminate|].
  simpl. unfold bind.
  pose proof (expandString_total now value userID r) as H.
  destruct (expandString now value userID r) as [[v r1]| |];
    [apply IH | discriminate | congruence].
Qed.

Lemma expandHeaders_keys now userID entries : forall acc r m r',
  expandHeaders now userID entries acc r = Done (m, r') ->
  forall k, is_Some (m !! k) <-> is_Some (acc !! k) \/ In k (map fst entries).
Proof.
  induction entries as [|[key value] entries IH]; intros acc r m r' H k.
  - injection H as <- <-. simpl. tauto.
  - simpl in H. unfold bind in H.
    destruct (expandString now value userID r) as [[v r1]| |];
      try discriminate.
    rewrite (IH _ _ _ _ H k). simpl.
    destruct (decide (key = k)) as [->|Hne].
    + rewrite lookup_insert_eq. split; [|eauto]. intros _. right. by left.
    + rewrite lookup_insert_ne by exact Hne.
      split; intros [Hk|Hk]; auto.
      destruct Hk as [Hk|Hk]; [congruence | auto].
Qed.

Lemma In_map_to_list_keys (m : gmap gostring gostring) (k : gostring) :
  In k (map fst (map_to_list m)) <-> is_Some (m !! k).
Proof.
  rewrite in_map_iff. split.
  - intros [[k' v] [<- Hin]]. apply list_elem_of_In in Hin.
    apply elem_of_map_to_list in Hin. simpl. eauto.
  - intros [v Hv]. exists (k, v). split; [reflexivity|].
    apply list_elem_of_In. by apply elem_of_map_to_list.
Qed.

(** X18. [ExpandTemplates] comes to its end for every action: the loops
    over the expressions do not run for ever. When it returns, the
    expanded action has the name, the method, the expected status, the
    timeout and the three delay fields of the action, and a header for
    exactly the header names of the action. *)
Theorem ExpandTemplates_keeps (now : Time) (a : Action) (userID : Z)
  (rng : Rand) :
  match ExpandTemplates now a userID rng with
  | Done (e, _) =>
      Name e = Name a /\ Method e = Method a
      /\ ExpectStatus e = ExpectStatus a /\ Timeout e = Timeout a
      /\ Delay e = Delay a /\ DelayMin e = DelayMin a
      /\ DelayMax e = DelayMax a
      /\ forall k, is_Some (Headers e !! k) <-> is_Some (Headers a !! k)
  | Panicked => True
  | OutOfFuel => False
  end.
Proof.
  unfold ExpandTemplates, bind.
  pose proof (expandString_total now (URL a) userID rng) as H1.
  destruct (expandString now (URL a) userID rng) as [[url r1]| |];
    [|exact I|congruence].
  pose proof (expandString_total now (JSONBody a) userID r1) as H2.
  destruct (expandString now (JSONBody a) userID r1) as [[json r2]| |];
    [|exact I|congruence].
  pose proof (expandString_total now (Body a) userID r2) as H3.
  destruct (expandString now (Body a) userID r2) as [[body r3]| |];
    [|exact I|congruence].
  pose proof (expandHeaders_ends now userID (map_to_list (Headers a)) ∅ r3)
    as H4.
  destruct (expandHeaders now userID (map_to_list (Headers a)) ∅ r3)
    as [[headers r4]| |] eqn:E; [|exact I|congruence].
  unfold ret. simpl. repeat split; try reflexivity.
  - intros Hk. apply (expandHeaders_keys _ _ _ _ _ _ _ E k) in Hk.
    destruct Hk as [Hk|Hk]; [by rewrite lookup_empty in Hk; destruct Hk|].
    by apply In_map_to_list_keys.
  - intros Hk. apply (expandHeaders_keys _ _ _ _ _ _ _ E k).
    right. by apply In_map_to_list_keys.
Qed.

Lemma expandHeaders_verbatim now userID entries : forall acc r,
  (forall k v, In (k, v) entries -> Index v (str "{{") = None) ->
  expandHeaders now userID entries acc r
  = Done (fold_left (fun m e => <[fst e := snd e]> m) entries acc, r).
Proof.
  induction entries as [|[key value] entries IH]; intros acc r Hall;
    [reflexivity|].
  simpl. unfold bind.
  rewrite expandString_verbatim by (apply (Hall key); by left).
  apply IH. intros k v Hin. apply (Hall k). by right.
Qed.

Lemma fold_insert_map_to_list (m : gmap gostring gostring) :
  fold_left (fun acc e => <[fst e := snd e]> acc) (map_to_list m) ∅ = m.
Proof.
  rewrite <- fold_left_rev_right.
  transitivity (list_to_map (rev (map_to_list m)) : gmap gostring gostring).
  - generalize (rev (map_to_list m)). intros l.
    induction l as [|[k v] l IH]; [reflexivity|]. simpl. by rewrite IH.
  - rewrite <- (list_to_map_to_list m) at 2.
    apply list_to_map_proper.
    + assert (Hp : rev (map_to_list m) ≡ₚ map_to_list m)
        by (symmetry; apply Permutation_rev).
      rewrite Hp. apply NoDup_fst_map_to_list.
    + symmetry. apply Permutation_rev.
Qed.

(** X19. An action with no two opening braces in a row in its URL, its
    bodies and its header values is returned by [ExpandTemplates] as it
    is, headers included, with no draw from the random source. *)
Theorem ExpandTemplates_no_braces (now : Time) (a : Action) (userID : Z)
  (rng : Rand) :
  Index (URL a) (str "{{") = None ->
  Index (JSONBody a) (str "{{") = None ->
  Index (Body a) (str "{{") = None ->
  (forall k v, Headers a !! k = Some v -> Index v (str "{{") = None) ->
  ExpandTemplates now a userID rng = Done (a, rng).
Proof.
  intros Hu Hj Hb Hh. unfold ExpandTemplates, bind.
  rewrite !expandString_verbatim by assumption.
  rewrite expandHeaders_verbatim.
  - rewrite fold_insert_map_to_list. unfold ret. by destruct a.
  - intros k v Hin. apply (Hh k).
    apply list_elem_of_In in Hin. by apply elem_of_map_to_list.
Qed.

End RandDelayExpansion.

Lemma expandRandDelay_expressions_witness :
  exists v,
    100 <= v <= 500
    /\ Script.expandRandDelay
         (str "d=" ++ RandDelay.expression 100 500 ++ str "ms")
         ScenarioS4.noDraws
       = Loop.prepend (str "d=" ++ Go.Itoa v)
           (Script.expandRandDelay (str "ms")
              (RandInt.afterDraw ScenarioS4.noDraws)).
Proof.
  apply (expandRandDelay_expressions (str "d=") (str "ms")
           ScenarioS4.noDraws);
    [vm_compute; reflexivity | reflexivity | reflexivity | lia | lia].
Defined.

Lemma ExpandTemplates_no_braces_witness :
  Script.ExpandTemplates 0
    (Scenario.formPost (str "https://example/submit") (str "a=1")) 7
    ScenarioS4.noDraws
  = Script.Done
      (Scenario.formPost (str "https://example/submit") (str "a=1"),
       ScenarioS4.noDraws).
Proof.
  apply (ExpandTemplates_no_braces 0
           (Scenario.formPost (str "https://example/submit") (str "a=1")) 7
           ScenarioS4.noDraws);
    [vm_compute; reflexivity | vm_compute; reflexivity
    | vm_compute; reflexivity |].
  intros k v H. simpl in H. rewrite lookup_empty in H. discriminate.
Defined.

Section Delays.

Import Go Script Delay.

Variable ParseDuration : gostring -> option Duration.

(** X20. [GetDelay], for any [time.ParseDuration]. A fixed delay that
    parses is the delay, whatever the range, and nothing is drawn. With
    no fixed delay, or one that does not parse, and a range of which both
    ends parse: for [min < max] with [max - min + 1] an [int64], that is
    [max - min < 2^63 - 1], the delay is drawn from [[min, max]]; for
    [min < max] further apart, [maxNanos - minNanos + 1] wraps to a
    number that is not positive and [rand.Int63n] panics; for
    [min >= max] the delay is 0. With an end of the range missing or not
    parsing it is 0. *)
Theorem GetDelay_fixed_or_range (a : Action) (rng : Rand) :
  (forall d,
      Delay a <> [] -> ParseDuration (Delay a) = Some d ->
      GetDelay ParseDuration a rng = Done (d, rng))
  /\ (Delay a = [] \/ ParseDuration (Delay a) = None ->
      (forall mn mx,
          DelayMin a <> [] -> DelayMax a <> [] ->
          ParseDuration (DelayMin a) = Some mn ->
          ParseDuration (DelayMax a) = Some mx ->
          inInt64 mn = true -> inInt64 mx = true ->
          (mn < mx -> mx - mn < 2 ^ 63 - 1 ->
           exists d,
             mn <= d <= mx
             /\ GetDelay ParseDuration a rng
                = Done (d, RandInt.afterDraw rng))
          /\ (mn < mx -> 2 ^ 63 - 1 <= mx - mn ->
              GetDelay ParseDuration a rng = Panicked)
          /\ (mx <= mn -> GetDelay ParseDuration a rng = Done (0, rng)))
      /\ (DelayMin a = [] \/ DelayMax a = []
          \/ ParseDuration (DelayMin a) = None
          \/ ParseDuration (DelayMax a) = None ->
          GetDelay ParseDuration a rng = Done (0, rng))).
Proof.
  unfold GetDelay. split; [|intros H; split].
  - intros d Hne Hd. destruct (Delay a); [congruence|]. simpl.
    by rewrite Hd.
  - intros mn mx Hmin Hmax Hpmin Hpmax Hrmin Hrmax.
    assert (Hfix : (if negb (isEmpty (Delay a))
                    then ParseDuration (Delay a) else None) = None).
    { destruct H as [-> | ->]; [reflexivity|]. by destruct (Delay a). }
    rewrite Hfix. destruct (DelayMin a); [congruence|].
    destruct (DelayMax a); [congruence|]. simpl.
    rewrite Hpmin, Hpmax.
    unfold inInt64, minInt64, maxInt64 in *.
    apply andb_true_iff in Hrmin as [Hm1 Hm2].
    apply andb_true_iff in Hrmax as [Hx1 Hx2].
    apply Z.leb_le in Hm1, Hm2, Hx1, Hx2.
    split; [|split].
    + intros Hlt Hfit. destruct (Z.ltb_spec mn mx); [|lia].
      unfold bind, randIntn, Intn.
      rewrite (wrap64_small (mx - mn)) by (unfold minInt64, maxInt64; lia).
      rewrite (wrap64_small (mx - mn + 1))
        by (unfold minInt64, maxInt64; lia).
      destruct (Z.leb_spec (mx - mn + 1) 0); [lia|].
      pose proof (Z.mod_pos_bound (draws rng (drawn rng)) (mx - mn + 1)
                    ltac:(lia)) as Hv.
      exists (draws rng (drawn rng) mod (mx - mn + 1) + mn).
      split; [lia|].
      unfold ret. rewrite wrap64_small by (unfold minInt64, maxInt64; lia).
      reflexivity.
    + intros Hlt Hfar. destruct (Z.ltb_spec mn mx); [|lia].
      unfold bind, randIntn, Intn. rewrite wrap64_add_l.
      assert (Hwrap : wrap64 (mx - mn + 1) = mx - mn + 1 - 2 ^ 64).
      { unfold wrap64.
        replace (mx - mn + 1 + 2 ^ 63)
          with (mx - mn + 1 - 2 ^ 63 + 1 * 2 ^ 64) by lia.
        rewrite Z_mod_plus_full, Z.mod_small by lia. lia. }
      rewrite Hwrap.
      destruct (Z.leb_spec (mx - mn + 1 - 2 ^ 64) 0); [reflexivity|lia].
    + intros Hge. destruct (Z.ltb_spec mn mx); [lia|reflexivity].
  - intros Hnone.
    assert (Hfix : (if negb (isEmpty (Delay a))
                    then ParseDuration (Delay a) else None) = None).
    { destruct H as [-> | ->]; [reflexivity|]. by destruct (Delay a). }
    rewrite Hfix.
    destruct (DelayMin a) as [|c1 s1] eqn:E1; [reflexivity|].
    destruct (DelayMax a) as [|c2 s2] eqn:E2; [reflexivity|].
    simpl.
    destruct Hnone as [?|[?|[-> | Hx]]]; try discriminate; [reflexivity|].
    rewrite Hx. by destruct (ParseDuration (c1 :: s1)).
Qed.

End Delays.

(* ------------------------------------------------------------------ *)
(** ** The worker: tokens, responses, request headers                   *)
(* ------------------------------------------------------------------ *)

Section Tokens.

Import Go Regexp Worker.

Lemma greedy_taken {R} (c : ascii) (k : gostring -> option R) :
  forall s n r,
    greedy c k s = Some (n, r) ->
    (n <= length s)%nat /\ Forall (fun x => x <> c) (take n s).
Proof.
  induction s as [|x s IH]; intros n r; simpl.
  - destruct (k []); simpl; [|discriminate].
    intros [= <- <-]. split; [lia | constructor].
  - destruct (Ascii.eqb_spec x c) as [->|Hne].
    + destruct (k (c :: s)); simpl; [|discriminate].
      intros [= <- <-]. split; [lia | constructor].
    + destruct (greedy c k s) as [[n' r']|] eqn:E.
      * intros [= <- <-]. destruct (IH _ _ eq_refl) as [Hn Hall].
        split; [lia|]. simpl. by constructor.
      * destruct (k (x :: s)); simpl; [|discriminate].
        intros [= <- <-]. split; [lia | constructor].
Qed.

(** The group of a match: text without the byte its expression
    excludes, and not empty when the expression has a group. *)
Lemma matchHere_group (q : ascii) (re : Regexp) :
  (forall c, In (GroupPlusNot c) re -> c = q) ->
  forall s n group,
    matchHere re s = Some (n, group) ->
    Forall (fun x => x <> q) group
    /\ ((exists c, In (GroupPlusNot c) re) -> group <> []).
Proof.
  induction re as [|nd re IH]; intros Hq s n group.
  - simpl. intros [= <- <-]. split; [constructor|]. by intros [c []].
  - assert (Hq' : forall c, In (GroupPlusNot c) re -> c = q)
      by (intros c Hc; apply Hq; by right).
    destruct nd as [text|c|c]; simpl.
    + destruct (HasPrefix s text); [|discriminate].
      destruct (matchHere re (drop (length text) s)) as [[m g]|] eqn:E;
        [|discriminate].
      intros [= <- <-]. destruct (IH Hq' _ _ _ E) as [Hall Hne].
      split; [exact Hall|]. intros [c [Hc|Hc]]; [discriminate|]. eauto.
    + destruct (greedy c (matchHere re) s) as [[k [m g]]|] eqn:E;
        [|discriminate].
      intros [= <- <-].
      assert (Hk : exists s', matchHere re s' = Some (m, g)).
      { clear -E. revert k E. induction s as [|x s IHs]; intros k; simpl.
        - destruct (matchHere re []) as [[m' g']|] eqn:E'; simpl;
            [|discriminate].
          intros [= <- <- <-]. eauto.
        - destruct (Ascii.eqb x c).
          + destruct (matchHere re (x :: s)) as [[m' g']|] eqn:E'; simpl;
              [|discriminate].
            intros [= <- <- <-]. eauto.
          + destruct (greedy c (matchHere re) s) as [[k' [m' g']]|] eqn:E2.
            * intros [= <- <- <-]. eapply IHs. reflexivity.
            * destruct (matchHere re (x :: s)) as [[m' g']|] eqn:E';
                simpl; [|discriminate].
              intros [= <- <- <-]. eauto. }
      destruct Hk as [s' Hs']. destruct (IH Hq' _ _ _ Hs') as [Hall Hne].
      split; [exact Hall|]. intros [c' [Hc|Hc]]; [discriminate|]. eauto.
    + destruct (greedy c (matchHere re) s) as [[[|k] [m g]]|] eqn:E;
        try discriminate.
      intros [= <- <-].
      destruct (greedy_taken _ _ _ _ _ E) as [Hk Hall].
      rewrite (Hq c (or_introl eq_refl)) in Hall.
      split; [exact Hall|]. intros _.
      destruct s as [|x s]; [simpl in Hk; lia | discriminate].
Qed.

Lemma FindStringSubmatch_group (q : ascii) (re : Regexp) :
  (forall c, In (GroupPlusNot c) re -> c = q) ->
  (exists c, In (GroupPlusNot c) re) ->
  forall s whole group,
    FindStringSubmatch re s = Some [whole; group] ->
    group <> [] /\ ~ In q group.
Proof.
  intros Hq Hex. induction s as [|x s IH]; intros whole group; simpl.
  - destruct (matchHere re []) as [[n g]|] eqn:E; [|discriminate].
    intros [= <- <-]. destruct (matchHere_group q re Hq _ _ _ E) as [Ha Hn].
    split; [auto|]. rewrite List.Forall_forall in Ha. intros Hin.
    by apply (Ha q Hin).
  - destruct (matchHere re (x :: s)) as [[n g]|] eqn:E; [|apply IH].
    intros [= <- <-]. destruct (matchHere_group q re Hq _ _ _ E) as [Ha Hn].
    split; [auto|]. rewrite List.Forall_forall in Ha. intros Hin.
    by apply (Ha q Hin).
Qed.

Lemma submatch_token (re : Regexp) (html token : gostring) :
  re = metaPattern \/ re = formPattern \/ re = authPattern ->
  submatch re html = Some token ->
  token <> [] /\ ~ In dquote token.
Proof.
  intros Hre. unfold submatch.
  destruct (FindStringSubmatch re html) as [l|] eqn:E; [|discriminate].
  destruct (FindStringSubmatch_shape _ _ _ E) as (whole & group & ->).
  simpl. intros [= <-].
  apply (FindStringSubmatch_group dquote re) with (s := html) (whole := whole);
    [| |exact E].
  - intros c Hc. destruct Hre as [-> | [-> | ->]]; simpl in Hc;
      repeat (destruct Hc as [Hc|Hc]; [congruence|]); destruct Hc.
  - exists dquote. destruct Hre as [-> | [-> | ->]]; simpl; tauto.
Qed.

Lemma extractCSRFTokenFromHTML_token (w : Worker) (html : gostring) :
  let w' := fst (extractCSRFTokenFromHTML w html) in
  w' = w
  \/ (w' = withToken w (csrfToken w')
      /\ csrfToken w' <> [] /\ ~ In dquote (csrfToken w')).
Proof.
  simpl. unfold extractCSRFTokenFromHTML.
  destruct (submatch metaPattern html) as [t|] eqn:E1.
  { right. simpl. split; [reflexivity|].
    apply (submatch_token metaPattern html); auto. }
  destruct (submatch formPattern html) as [t|] eqn:E2.
  { right. simpl. split; [reflexivity|].
    apply (submatch_token formPattern html); auto. }
  destruct (submatch authPattern html) as [t|] eqn:E3.
  { right. simpl. split; [reflexivity|].
    apply (submatch_token authPattern html); auto. }
  by left.
Qed.

(** X21. [extractCSRFTokenFromHTML] either leaves the worker as it is or
    changes its token alone, to a text that is not empty and holds no
    double quote: the group of the expression that matched. A token is
    never cleared by a page. *)
Theorem extracted_token_shape (w : Worker) (html : gostring) :
  let w' := fst (extractCSRFTokenFromHTML w html) in
  w' = w
  \/ (w' = withToken w (csrfToken w')
      /\ csrfToken w' <> [] /\ ~ In dquote (csrfToken w')).
Proof. apply extractCSRFTokenFromHTML_token. Qed.

End Tokens.

(* ------------------------------------------------------------------ *)
(** ** The three expressions on pages with a token                      *)
(* ------------------------------------------------------------------ *)

Section CsrfPages.

Import Go Regexp Worker CsrfPage.

(** Where [Index] finds nothing, or has not yet come, no instance
    begins. *)
Lemma Index_None_nowhere (p : gostring) : forall s i,
  Index s p = None -> HasPrefix (drop i s) p = false.
Proof.
  induction s as [|c s IH]; intros i H.
  - rewrite drop_nil. simpl in H.
    by destruct (HasPrefix [] p).
  - rewrite Index_cons in H.
    destruct (HasPrefix (c :: s) p) eqn:Hp; [discriminate|].
    destruct i as [|i]; [exact Hp|]. simpl. apply IH.
    by destruct (Index s p).
Qed.

Lemma Index_Some_before (p : gostring) : forall s n i,
  Index s p = Some n -> (i < n)%nat -> HasPrefix (drop i s) p = false.
Proof.
  induction s as [|c s IH]; intros n i H Hi.
  - simpl in H. destruct (HasPrefix [] p); [|discriminate].
    injection H as <-. lia.
  - rewrite Index_cons in H.
    destruct (HasPrefix (c :: s) p) eqn:Hp.
    + injection H as <-. lia.
    + destruct (Index s p) as [n'|] eqn:E; [|discriminate].
      injection H as <-. destruct i as [|i]; [exact Hp|].
      simpl. apply (IH n'); [reflexivity | lia].
Qed.

(** A text that begins at the head of [s] and nowhere later in it, with
    a byte after [s] that the text does not hold: no instance begins
    later in [s ++ c :: rest]. *)
Lemma onlyAtHead_later (p s rest : gostring) (c : ascii) (j : nat) :
  onlyAtHead p s -> ~ In c p -> (0 < j <= length s)%nat ->
  HasPrefix (drop j (s ++ c :: rest)) p = false.
Proof.
  intros Hs Hc Hj. destruct j as [|j]; [lia|].
  destruct (HasPrefix (drop (S j) (s ++ c :: rest)) p) eqn:E;
    [|reflexivity].
  rewrite drop_app_le in E by lia.
  apply HasPrefix_straddle in E as [E|E]; [|contradiction].
  unfold onlyAtHead in Hs.
  pose proof (Index_None_nowhere p (drop 1 s) j Hs) as Hno.
  rewrite drop_drop in Hno. simpl in Hno. congruence.
Qed.

Lemma greedy_none {R} (c : ascii) (k : gostring -> option R)
  (y2 : gostring) : forall y1,
  Forall (fun x => x <> c) y1 ->
  (forall j, (j <= length y1)%nat -> k (drop j (y1 ++ c :: y2)) = None) ->
  greedy c k (y1 ++ c :: y2) = None.
Proof.
  induction y1 as [|a y1 IH]; intros Hy Hk.
  - pose proof (Hk O ltac:(simpl; lia)) as H0. simpl in *.
    rewrite Ascii.eqb_refl. by rewrite H0.
  - inversion Hy as [|? ? Ha Hy']; subst.
    pose proof (Hk O ltac:(simpl; lia)) as H0. simpl in H0. simpl.
    destruct (Ascii.eqb_spec a c) as [->|_]; [congruence|].
    rewrite IH.
    + by rewrite H0.
    + exact Hy'.
    + intros j Hj. apply (Hk (S j)). simpl. lia.
Qed.

(** The continuation succeeds at the head and at no later place before
    the next [c]: nothing is taken. *)
Lemma greedy_here {R} (c : ascii) (k : gostring -> option R)
  (y1 y2 : gostring) (r : R) :
  Forall (fun x => x <> c) y1 ->
  k (y1 ++ c :: y2) = Some r ->
  (forall j, (0 < j <= length y1)%nat ->
     k (drop j (y1 ++ c :: y2)) = None) ->
  greedy c k (y1 ++ c :: y2) = Some (O, r).
Proof.
  intros Hy Hr Hk. destruct y1 as [|a y1].
  - simpl in *. rewrite Ascii.eqb_refl. by rewrite Hr.
  - inversion Hy as [|? ? Ha Hy']; subst.
    change (greedy c k ((a :: y1) ++ c :: y2))
      with (if Ascii.eqb a c
            then option_map (pair O) (k ((a :: y1) ++ c :: y2))
            else match greedy c k (y1 ++ c :: y2) with
                 | Some (n, r) => Some (S n, r)
                 | None => option_map (pair O) (k ((a :: y1) ++ c :: y2))
                 end).
    destruct (Ascii.eqb_spec a c) as [->|_]; [congruence|].
    rewrite greedy_none.
    + by rewrite Hr.
    + exact Hy'.
    + intros j Hj. apply (Hk (S j)). simpl. lia.
Qed.

(** The same after a stretch [x] without [c]: the stretch is taken. *)
Lemma greedy_last {R} (c : ascii) (k : gostring -> option R)
  (x y1 y2 : gostring) (r : R) :
  Forall (fun a => a <> c) x ->
  Forall (fun a => a <> c) y1 ->
  k (y1 ++ c :: y2) = Some r ->
  (forall j, (0 < j <= length y1)%nat ->
     k (drop j (y1 ++ c :: y2)) = None) ->
  greedy c k (x ++ y1 ++ c :: y2) = Some (length x, r).
Proof.
  intros Hx Hy Hr Hk. induction x as [|a x IH].
  - by apply greedy_here.
  - inversion Hx as [|? ? Ha Hx']; subst.
    change (greedy c k ((a :: x) ++ y1 ++ c :: y2))
      with (if Ascii.eqb a c
            then option_map (pair O) (k ((a :: x) ++ y1 ++ c :: y2))
            else match greedy c k (x ++ y1 ++ c :: y2) with
                 | Some (n, r) => Some (S n, r)
                 | None =>
                     option_map (pair O) (k ((a :: x) ++ y1 ++ c :: y2))
                 end).
    destruct (Ascii.eqb_spec a c) as [->|_]; [congruence|].
    by rewrite IH.
Qed.

Lemma not_In_Forall (c : ascii) (s : gostring) :
  ~ In c s -> Forall (fun a => a <> c) s.
Proof.
  intros H. apply List.Forall_forall. intros a Ha ->. contradiction.
Qed.

Lemma matchHere_Lit (text : gostring) (re : Regexp) (s : gostring) :
  matchHere (Lit text :: re) (text ++ s)
  = match matchHere re s with
    | Some (n, group) => Some ((length text + n)%nat, group)
    | None => None
    end.
Proof.
  simpl. rewrite HasPrefix_app_self, drop_app_length. reflexivity.
Qed.

Lemma matchHere_Lit_none (text : gostring) (re : Regexp) (s : gostring) :
  HasPrefix s text = false -> matchHere (Lit text :: re) s = None.
Proof. simpl. by intros ->. Qed.

(** The group and the closing quote, on a token followed by a quote. *)
Lemma matchHere_token (tok rest : gostring) :
  isToken tok ->
  matchHere [GroupPlusNot dquote; Lit [dquote]] (tok ++ dquote :: rest)
  = Some ((length tok + 1)%nat, tok).
Proof.
  intros [Hne Hq].
  assert (Hg : greedy dquote (matchHere [Lit [dquote]])
                 (tok ++ [] ++ dquote :: rest)
               = Some (length tok, (1%nat, []))).
  { apply greedy_last.
    - by apply not_In_Forall.
    - constructor.
    - reflexivity.
    - simpl. intros j Hj. lia. }
  simpl app in Hg.
  change (matchHere [GroupPlusNot dquote; Lit [dquote]]
            (tok ++ dquote :: rest))
    with (match greedy dquote (matchHere [Lit [dquote]])
                  (tok ++ dquote :: rest) with
          | Some (S n, (m, _)) =>
              Some ((S n + m)%nat, firstn (S n) (tok ++ dquote :: rest))
          | _ => None
          end).
  rewrite Hg. destruct tok as [|t tok]; [congruence|].
  simpl length. f_equal. f_equal.
  rewrite <- (take_app_length (t :: tok) (dquote :: rest)) at 2.
  reflexivity.
Qed.

(** From the value on. *)
Lemma matchHere_value (tok a3 rest : gostring) :
  isToken tok ->
  matchHere [Lit valueLit; GroupPlusNot dquote; Lit [dquote]]
    (valueAttr tok a3 ++ rest)
  = Some ((length valueLit + (length tok + 1))%nat, tok).
Proof.
  intros Htok. unfold valueAttr.
  rewrite <- app_assoc, matchHere_Lit, <- app_assoc, <- app_comm_cons.
  by rewrite matchHere_token.
Qed.

(** The stretch before the value: everything up to the last value of the
    tag is passed over. *)
Lemma matchHere_to_value (a2 tok a3 post : gostring) :
  isToken tok -> inTag a2 -> inTag tok -> inTag a3 ->
  onlyAtHead valueLit (valueAttr tok a3) ->
  matchHere [StarNot ">"%char; Lit valueLit; GroupPlusNot dquote;
             Lit [dquote]]
    ((a2 ++ valueAttr tok a3) ++ ">"%char :: post)
  = Some ((length a2 + (length valueLit + (length tok + 1)))%nat, tok).
Proof.
  intros Htok Ha2 Htag Ha3 Honly.
  change (matchHere [StarNot ">"%char; Lit valueLit; GroupPlusNot dquote;
                     Lit [dquote]]
            ((a2 ++ valueAttr tok a3) ++ ">"%char :: post))
    with (match greedy ">"%char
                  (matchHere [Lit valueLit; GroupPlusNot dquote;
                              Lit [dquote]])
                  ((a2 ++ valueAttr tok a3) ++ ">"%char :: post) with
          | Some (n, (m, group)) => Some ((n + m)%nat, group)
          | None => None
          end).
  rewrite <- app_assoc.
  rewrite (greedy_last _ _ a2 (valueAttr tok a3) post
             ((length valueLit + (length tok + 1))%nat, tok)).
  - reflexivity.
  - by apply not_In_Forall.
  - unfold valueAttr. rewrite Forall_app. split.
    + apply not_In_Forall. vm_compute. intuition discriminate.
    + rewrite Forall_app. split; [by apply not_In_Forall|].
      constructor; [discriminate | by apply not_In_Forall].
  - by apply matchHere_value.
  - intros j Hj. apply matchHere_Lit_none.
    apply onlyAtHead_later; [exact Honly | | exact Hj].
    vm_compute. intuition discriminate.
Qed.

Lemma FindStringSubmatch_at (re : Regexp) : forall s n m group,
  (forall i, (i < n)%nat -> matchHere re (drop i s) = None) ->
  matchHere re (drop n s) = Some (m, group) ->
  (n <= length s)%nat ->
  FindStringSubmatch re s = Some [take m (drop n s); group].
Proof.
  induction s as [|c s IH]; intros n m group Hbefore Hat Hn.
  - simpl in Hn. assert (n = O) as -> by lia. simpl in *. by rewrite Hat.
  - destruct n as [|n].
    + simpl in *. by rewrite Hat.
    + pose proof (Hbefore O ltac:(lia)) as H0. simpl in H0.
      simpl. rewrite H0.
      apply IH; [|exact Hat|simpl in Hn; lia].
      intros i Hi. apply (Hbefore (S i)). lia.
Qed.

Lemma FindStringSubmatch_no_literal (text : gostring) (re : Regexp) :
  forall s, Index s text = None ->
  FindStringSubmatch (Lit text :: re) s = None.
Proof.
  intros s H.
  assert (Hall : forall i, matchHere (Lit text :: re) (drop i s) = None)
    by (intros i; apply matchHere_Lit_none, Index_None_nowhere, H).
  clear H. induction s as [|c s IH].
  - pose proof (Hall O) as H0. simpl drop in H0.
    change (FindStringSubmatch (Lit text :: re) [])
      with (match matchHere (Lit text :: re) [] with
            | Some (n, group) => Some [firstn n []; group]
            | None => None
            end).
    by rewrite H0.
  - pose proof (Hall O) as H0. simpl drop in H0.
    change (FindStringSubmatch (Lit text :: re) (c :: s))
      with (match matchHere (Lit text :: re) (c :: s) with
            | Some (n, group) => Some [firstn n (c :: s); group]
            | None => FindStringSubmatch (Lit text :: re) s
            end).
    rewrite H0. apply IH. intros i. apply (Hall (S i)).
Qed.

(** A match of an expression that begins with a literal, at the first
    instance of the literal. *)
Lemma FindStringSubmatch_first (text : gostring) (re : Regexp)
  (pre rest : gostring) (m : nat) (group : gostring) :
  Index (pre ++ text) text = Some (length pre) ->
  matchHere (Lit text :: re) (text ++ rest) = Some (m, group) ->
  exists whole,
    FindStringSubmatch (Lit text :: re) (pre ++ text ++ rest)
    = Some [whole; group].
Proof.
  intros Hfirst Hat. eexists.
  apply (FindStringSubmatch_at _ _ (length pre) m group).
  - intros i Hi. apply matchHere_Lit_none.
    apply (Index_Some_before text _ (length pre)); [|exact Hi].
    by apply Index_first_app.
  - by rewrite drop_app_length.
  - rewrite length_app. lia.
Qed.

Lemma meta_found (pre tok post : gostring) :
  Index (pre ++ metaLit) metaLit = Some (length pre) ->
  isToken tok ->
  exists whole,
    FindStringSubmatch metaPattern (metaPage pre tok post)
    = Some [whole; tok].
Proof.
  intros Hfirst Htok. unfold metaPage.
  apply (FindStringSubmatch_first metaLit
           [GroupPlusNot dquote; Lit [dquote]] pre (tok ++ dquote :: post)
           (length metaLit + (length tok + 1))%nat tok Hfirst).
  by rewrite matchHere_Lit, matchHere_token.
Qed.

Lemma form_found (pre a1 a2 tok a3 post : gostring) :
  Index (pre ++ inputLit) inputLit = Some (length pre) ->
  isToken tok -> inTag a1 -> inTag a2 -> inTag tok -> inTag a3 ->
  onlyAtHead nameLit (nameLit ++ a2 ++ valueAttr tok a3) ->
  onlyAtHead valueLit (valueAttr tok a3) ->
  exists whole,
    FindStringSubmatch formPattern (inputPage pre a1 a2 tok a3 post)
    = Some [whole; tok].
Proof.
  intros Hfirst Htok Ha1 Ha2 Htag Ha3 Hname Hvalue. unfold inputPage.
  set (m := (length a2 + (length valueLit + (length tok + 1)))%nat).
  apply (FindStringSubmatch_first inputLit
           [StarNot ">"%char; Lit nameLit; StarNot ">"%char; Lit valueLit;
            GroupPlusNot dquote; Lit [dquote]] pre
           (a1 ++ (nameLit ++ a2 ++ valueAttr tok a3) ++ ">"%char :: post)
           (length inputLit + (length a1 + (length nameLit + m)))%nat
           tok Hfirst).
  rewrite matchHere_Lit.
  change (matchHere
            [StarNot ">"%char; Lit nameLit; StarNot ">"%char; Lit valueLit;
             GroupPlusNot dquote; Lit [dquote]]
            (a1 ++ (nameLit ++ a2 ++ valueAttr tok a3) ++ ">"%char :: post))
    with (match greedy ">"%char
                  (matchHere [Lit nameLit; StarNot ">"%char; Lit valueLit;
                              GroupPlusNot dquote; Lit [dquote]])
                  (a1 ++ (nameLit ++ a2 ++ valueAttr tok a3)
                   ++ ">"%char :: post) with
          | Some (n, (m, group)) => Some ((n + m)%nat, group)
          | None => None
          end).
  rewrite (greedy_last _ _ a1 (nameLit ++ a2 ++ valueAttr tok a3) post
             ((length nameLit + m)%nat, tok)).
  - reflexivity.
  - by apply not_In_Forall.
  - rewrite Forall_app. split.
    { apply not_In_Forall. vm_compute. intuition discriminate. }
    rewrite Forall_app. split; [by apply not_In_Forall|].
    unfold valueAttr. rewrite Forall_app. split.
    { apply not_In_Forall. vm_compute. intuition discriminate. }
    rewrite Forall_app. split; [by apply not_In_Forall|].
    constructor; [discriminate | by apply not_In_Forall].
  - rewrite <- app_assoc, matchHere_Lit.
    by rewrite matchHere_to_value.
  - intros j Hj. apply matchHere_Lit_none.
    apply onlyAtHead_later; [exact Hname | | exact Hj].
    vm_compute. intuition discriminate.
Qed.

Lemma auth_found (pre a2 tok a3 post : gostring) :
  Index (pre ++ authLit) authLit = Some (length pre) ->
  isToken tok -> inTag a2 -> inTag tok -> inTag a3 ->
  onlyAtHead valueLit (valueAttr tok a3) ->
  exists whole,
    FindStringSubmatch authPattern (authPage pre a2 tok a3 post)
    = Some [whole; tok].
Proof.
  intros Hfirst Htok Ha2 Htag Ha3 Hvalue. unfold authPage.
  apply (FindStringSubmatch_first authLit
           [StarNot ">"%char; Lit valueLit; GroupPlusNot dquote;
            Lit [dquote]] pre
           ((a2 ++ valueAttr tok a3) ++ ">"%char :: post)
           (length authLit
            + (length a2 + (length valueLit + (length tok + 1))))%nat
           tok Hfirst).
  by rewrite matchHere_Lit, matchHere_to_value.
Qed.

Lemma extract_meta (w : Worker) (html whole token : gostring) :
  FindStringSubmatch metaPattern html = Some [whole; token] ->
  extractCSRFTokenFromHTML w html = (withToken w token, [metaPattern]).
Proof.
  intros H. unfold extractCSRFTokenFromHTML.
  by rewrite (submatch_found _ _ _ _ H).
Qed.

Lemma extract_form (w : Worker) (html whole token : gostring) :
  FindStringSubmatch metaPattern html = None ->
  FindStringSubmatch formPattern html = Some [whole; token] ->
  extractCSRFTokenFromHTML w html
  = (withToken w token, [metaPattern; formPattern]).
Proof.
  intros H1 H2. unfold extractCSRFTokenFromHTML.
  by rewrite (submatch_none _ _ H1), (submatch_found _ _ _ _ H2).
Qed.

Lemma extract_auth (w : Worker) (html whole token : gostring) :
  FindStringSubmatch metaPattern html = None ->
  FindStringSubmatch formPattern html = None ->
  FindStringSubmatch authPattern html = Some [whole; token] ->
  extractCSRFTokenFromHTML w html
  = (withToken w token, [metaPattern; formPattern; authPattern]).
Proof.
  intros H1 H2 H3. unfold extractCSRFTokenFromHTML.
  by rewrite (submatch_none _ _ H1), (submatch_none _ _ H2),
       (submatch_found _ _ _ _ H3).
Qed.

Lemma extract_none (w : Worker) (html : gostring) :
  FindStringSubmatch metaPattern html = None ->
  FindStringSubmatch formPattern html = None ->
  FindStringSubmatch authPattern html = None ->
  extractCSRFTokenFromHTML w html
  = (w, [metaPattern; formPattern; authPattern]).
Proof.
  intros H1 H2 H3. unfold extractCSRFTokenFromHTML.
  by rewrite (submatch_none _ _ H1), (submatch_none _ _ H2),
       (submatch_none _ _ H3).
Qed.

(** C9, as the code has it. The token after [extractCSRFTokenFromHTML]
    is the group of the first of the three expressions (meta tag, input
    named [authenticity_token], any [authenticity_token] followed in its
    tag by a value) that matches the content; the expressions after that
    one are not matched against the content; when none matches the
    worker is left as it is. And what the expressions match: on a page
    whose first meta tag for the token holds a token, the token of the
    worker becomes that token, whatever else the page holds; on a page
    without that meta literal whose first input tag has the name and
    then, as the last value of the tag, a token, it becomes that token,
    by the second expression; on a page with neither literal, where the
    first instance of the name with its closing quote is followed in its
    tag by a last value, it becomes that value, by the third. A token is
    a text that is not empty and holds no double quote. A page with none
    of the three literal texts leaves the worker as it is. *)
Theorem extractCSRFTokenFromHTML_first_match (w : Worker)
  (html : gostring) :
  let result := extractCSRFTokenFromHTML w html in
  (forall whole token,
      FindStringSubmatch metaPattern html = Some [whole; token] ->
      csrfToken (fst result) = token
      /\ result = (withToken w token, [metaPattern]))
  /\ (FindStringSubmatch metaPattern html = None ->
      forall whole token,
        FindStringSubmatch formPattern html = Some [whole; token] ->
        csrfToken (fst result) = token
        /\ result = (withToken w token, [metaPattern; formPattern]))
  /\ (FindStringSubmatch metaPattern html = None ->
      FindStringSubmatch formPattern html = None ->
      forall whole token,
        FindStringSubmatch authPattern html = Some [whole; token] ->
        csrfToken (fst result) = token
        /\ result
           = (withToken w token, [metaPattern; formPattern; authPattern]))
  /\ (FindStringSubmatch metaPattern html = None ->
      FindStringSubmatch formPattern html = None ->
      FindStringSubmatch authPattern html = None ->
      csrfToken (fst result) = csrfToken w
      /\ result = (w, [metaPattern; formPattern; authPattern]))
  /\ (forall re,
        FindStringSubmatch re html = None
        \/ exists whole token,
             FindStringSubmatch re html = Some [whole; token])
  /\ (forall pre tok post,
        html = metaPage pre tok post ->
        Index (pre ++ metaLit) metaLit = Some (length pre) ->
        isToken tok ->
        csrfToken (fst result) = tok /\ snd result = [metaPattern])
  /\ (forall pre a1 a2 tok a3 post,
        html = inputPage pre a1 a2 tok a3 post ->
        Index html metaLit = None ->
        Index (pre ++ inputLit) inputLit = Some (length pre) ->
        isToken tok -> inTag a1 -> inTag a2 -> inTag tok -> inTag a3 ->
        onlyAtHead nameLit (nameLit ++ a2 ++ valueAttr tok a3) ->
        onlyAtHead valueLit (valueAttr tok a3) ->
        csrfToken (fst result) = tok
        /\ snd result = [metaPattern; formPattern])
  /\ (forall pre a2 tok a3 post,
        html = authPage pre a2 tok a3 post ->
        Index html metaLit = None ->
        Index html inputLit = None ->
        Index (pre ++ authLit) authLit = Some (length pre) ->
        isToken tok -> inTag a2 -> inTag tok -> inTag a3 ->
        onlyAtHead valueLit (valueAttr tok a3) ->
        csrfToken (fst result) = tok
        /\ snd result = [metaPattern; formPattern; authPattern])
  /\ (Index html metaLit = None -> Index html inputLit = None ->
      Index html authLit = None ->
      result = (w, [metaPattern; formPattern; authPattern])).
Proof.
  intros result. subst result.
  assert (Hmeta_none : Index html metaLit = None ->
                       FindStringSubmatch metaPattern html = None)
    by apply FindStringSubmatch_no_literal.
  assert (Hform_none : Index html inputLit = None ->
                       FindStringSubmatch formPattern html = None)
    by apply FindStringSubmatch_no_literal.
  assert (Hauth_none : Index html authLit = None ->
                       FindStringSubmatch authPattern html = None)
    by apply FindStringSubmatch_no_literal.
  split; [|split; [|split; [|split; [|split; [|split; [|split;
    [|split]]]]]]].
  - intros whole token H. by rewrite (extract_meta w html whole token H).
  - intros H1 whole token H2.
    by rewrite (extract_form w html whole token H1 H2).
  - intros H1 H2 whole token H3.
    by rewrite (extract_auth w html whole token H1 H2 H3).
  - intros H1 H2 H3. by rewrite (extract_none w html H1 H2 H3).
  - intros re. destruct (FindStringSubmatch re html) as [l|] eqn:E.
    + right. destruct (FindStringSubmatch_shape _ _ _ E) as (a & b & ->).
      eauto.
    + by left.
  - intros pre tok post -> Hfirst Htok.
    destruct (meta_found pre tok post Hfirst Htok) as [whole H].
    by rewrite (extract_meta w _ whole tok H).
  - intros pre a1 a2 tok a3 post Hpage Hm Hfirst Htok Ha1 Ha2 Htag Ha3
      Hname Hvalue.
    destruct (form_found pre a1 a2 tok a3 post Hfirst Htok Ha1 Ha2 Htag Ha3
                Hname Hvalue) as [whole H].
    rewrite <- Hpage in H.
    by rewrite (extract_form w html whole tok (Hmeta_none Hm) H).
  - intros pre a2 tok a3 post Hpage Hm Hi Hfirst Htok Ha2 Htag Ha3 Hvalue.
    destruct (auth_found pre a2 tok a3 post Hfirst Htok Ha2 Htag Ha3
                Hvalue) as [whole H].
    rewrite <- Hpage in H.
    by rewrite (extract_auth w html whole tok (Hmeta_none Hm)
                  (Hform_none Hi) H).
  - intros Hm Hi Ha.
    apply extract_none; auto.
Qed.

End CsrfPages.

Lemma extractCSRFTokenFromHTML_first_match_witness :
  Worker.csrfToken
    (fst (Worker.extractCSRFTokenFromHTML (Scenario.freshWorker 1)
            (CsrfPage.inputPage (str "<form>") (unq (str " type='hidden' "))
               (str " ") (str "F2") (str " /") (str "</form>"))))
  = str "F2"
  /\ snd (Worker.extractCSRFTokenFromHTML (Scenario.freshWorker 1)
            (CsrfPage.inputPage (str "<form>") (unq (str " type='hidden' "))
               (str " ") (str "F2") (str " /") (str "</form>")))
     = [Worker.metaPattern; Worker.formPattern].
Proof.
  pose proof (extractCSRFTokenFromHTML_first_match (Scenario.freshWorker 1)
                (CsrfPage.inputPage (str "<form>")
                   (unq (str " type='hidden' ")) (str " ") (str "F2")
                   (str " /") (str "</form>"))) as H.
  cbv zeta in H. destruct H as (_ & _ & _ & _ & _ & _ & H & _).
  apply (H (str "<form>") (unq (str " type='hidden' ")) (str " ")
           (str "F2") (str " /") (str "</form>"));
    try (vm_compute; reflexivity);
    try (vm_compute; intuition discriminate).
Defined.


Section Exchanges.

Import Go GoText Http Worker Exchange.

Variable canonical : gostring -> gostring.

Lemma statusError_empty (a : Script.Action) (status : Z) :
  statusError a status = []
  <-> (Script.ExpectStatus a <= 0 \/ status = Script.ExpectStatus a).
Proof.
  unfold statusError.
  destruct (Z.ltb_spec 0 (Script.ExpectStatus a)) as [Hpos|Hle];
    destruct (Z.eqb_spec status (Script.ExpectStatus a)) as [Heq|Hne];
    simpl; split; intros H; try reflexivity; try lia; try discriminate.
Qed.

(** X22. The event of a request that got a response is counted as a
    success by the aggregator exactly when the status is in [200, 400)
    and, if the action expects a status (a positive [expect_status]), the
    status is the expected one: an expected 404 that is received is
    counted as an error all the same. The event of a request that failed
    without a response is never a success. The event bears the name of
    the action and the number of bytes read of the body. *)
Theorem response_counts_as_success (a : Script.Action) (start end_ : Time)
  (resp : Response) :
  (Metrics.isSuccess (responseMetric a start end_ resp) = true
   <-> 200 <= StatusCode resp < 400
       /\ (Script.ExpectStatus a <= 0
           \/ StatusCode resp = Script.ExpectStatus a))
  /\ (forall err,
        Metrics.isSuccess (failureMetric a start end_ err) = false)
  /\ Metrics.Name (responseMetric a start end_ resp) = Script.Name a
  /\ Metrics.BytesRead (responseMetric a start end_ resp)
     = Z.of_nat (length (Body resp)).
Proof.
  split; [|split; [|split; reflexivity]].
  - rewrite isSuccess_spec. simpl. rewrite statusError_empty. tauto.
  - intros err. unfold Metrics.isSuccess. simpl.
    by rewrite andb_false_r.
Qed.

Lemma Index_colon (k v : gostring) :
  ~ In ":"%char k ->
  Index (k ++ ":"%char :: v) [":"%char] = Some (length k).
Proof.
  intros Hk. rewrite Index_pass.
  - rewrite Index_here by reflexivity. simpl. f_equal. lia.
  - apply no_instance_in_bytes. apply List.Forall_forall.
    intros c Hc ->. contradiction.
Qed.

Lemma Index_no_colon (h : gostring) :
  ~ In ":"%char h -> Index h [":"%char] = None.
Proof.
  intros Hh. rewrite <- (app_nil_r h). rewrite Index_pass; [reflexivity|].
  apply no_instance_in_bytes. apply List.Forall_forall.
  intros c Hc ->. contradiction.
Qed.

(** X23. The login header is cut at its first colon: the key is what
    stands before it and the value all that follows, further colons
    included, both trimmed of white space. A header with no colon, like
    an empty one, sets nothing. *)
Theorem loginPair_first_colon (k v : gostring) :
  ~ In ":"%char k ->
  loginPair (k ++ ":"%char :: v) = Some (TrimSpace k, TrimSpace v)
  /\ (k <> [] -> loginPair k = None)
  /\ loginPair [] = None.
Proof.
  intros Hk. unfold loginPair, SplitN2. split; [|split; [|reflexivity]].
  - rewrite Index_colon by exact Hk.
    assert (Hne : isEmpty (k ++ ":"%char :: v) = false) by by destruct k.
    rewrite Hne.
    replace (S (length k)) with (length k + 1)%nat by lia.
    rewrite take_app_length, <- drop_drop, drop_app_length. reflexivity.
  - intros Hne. rewrite Index_no_colon by exact Hk. by destruct k.
Qed.

Lemma extractSessionHeaders_token (w : Worker) (resp : Response) :
  csrfToken (extractSessionHeaders canonical w resp)
  = if isEmpty (Get canonical (Header_ resp) (str "X-CSRF-Token"))
    then csrfToken w
    else Get canonical (Header_ resp) (str "X-CSRF-Token").
Proof.
  unfold extractSessionHeaders.
  destruct (isEmpty (Get canonical (Header_ resp) (str "X-CSRF-Token")));
    destruct (isEmpty (Get canonical (Header_ resp) (str "Authorization")));
    reflexivity.
Qed.

Lemma extractSessionHeaders_stored (w : Worker) (resp : Response) c h :
  Get canonical (Header_ resp) (str "X-CSRF-Token") = c :: h ->
  sessionHeaders (extractSessionHeaders canonical w resp)
    !! str "X-CSRF-Token" = Some (c :: h).
Proof.
  intros E. unfold extractSessionHeaders. rewrite E.
  destruct (Get canonical (Header_ resp) (str "Authorization")); simpl.
  - apply lookup_insert_eq.
  - rewrite lookup_insert_ne by discriminate. apply lookup_insert_eq.
Qed.

Lemma handleResponse_csrf (w : Worker) (a : Script.Action)
  (resp : Response) :
  let header := Get canonical (Header_ resp) (str "X-CSRF-Token") in
  let w' := handleResponse canonical w a resp in
  (header <> [] ->
   csrfToken w' = header
   /\ sessionHeaders w' !! str "X-CSRF-Token" = Some header)
  /\ (header = [] ->
      Contains (Script.URL a) (str "sign_in") = false ->
      Contains (Script.URL a) (str "login") = false ->
      csrfToken w' = csrfToken w)
  /\ (header = [] ->
      csrfToken w'
      = csrfToken w
      \/ (csrfToken w' <> [] /\ ~ In dquote (csrfToken w')))
  /\ (csrfToken w <> [] -> csrfToken w' <> []).
Proof.
  intros header w'. subst w'. unfold handleResponse.
  set (w1 := if _ : bool then _ else w).
  assert (H1 : csrfToken w1 = csrfToken w
               \/ (csrfToken w1 <> [] /\ ~ In dquote (csrfToken w1))).
  { subst w1. destruct (_ || _); [|by left].
    destruct (extractCSRFTokenFromHTML_token w (Body resp)) as [-> | (_ & H)];
      [by left | by right]. }
  rewrite extractSessionHeaders_token. fold header.
  split; [|split; [|split]].
  - intros Hne. destruct header as [|c h] eqn:E; [congruence|].
    split; [reflexivity|]. by apply extractSessionHeaders_stored.
  - intros -> Hs Hl. simpl. subst w1. by rewrite Hs, Hl.
  - intros ->. exact H1.
  - intros Hw. destruct header; [|discriminate]. simpl.
    destruct H1 as [-> | [H1 _]]; assumption.
Qed.

(** X24. The token after a response. A response with a non-empty
    [X-CSRF-Token] header makes that header the token of the worker and
    stores it among the session headers, whatever the page holds. With
    no such header, the token is as it was unless the URL of the request
    holds [sign_in] or [login]; then it is as it was or a non-empty text
    without a double quote taken from the page. A worker that has a
    token keeps having one. *)
Theorem handleResponse_token (w : Worker) (a : Script.Action)
  (resp : Response) :
  let header := Get canonical (Header_ resp) (str "X-CSRF-Token") in
  let w' := handleResponse canonical w a resp in
  (header <> [] ->
   csrfToken w' = header
   /\ sessionHeaders w' !! str "X-CSRF-Token" = Some header)
  /\ (header = [] ->
      Contains (Script.URL a) (str "sign_in") = false ->
      Contains (Script.URL a) (str "login") = false ->
      csrfToken w' = csrfToken w)
  /\ (header = [] ->
      csrfToken w'
      = csrfToken w
      \/ (csrfToken w' <> [] /\ ~ In dquote (csrfToken w')))
  /\ (csrfToken w <> [] -> csrfToken w' <> []).
Proof. apply handleResponse_csrf. Qed.

Lemma extractSessionHeaders_keys (w : Worker) (resp : Response) k v :
  sessionHeaders (extractSessionHeaders canonical w resp) !! k = Some v ->
  sessionHeaders w !! k = Some v
  \/ (k = str "X-CSRF-Token" /\ v <> []
      /\ v = Get canonical (Header_ resp) (str "X-CSRF-Token"))
  \/ (k = str "Authorization" /\ v <> []).
Proof.
  unfold extractSessionHeaders.
  destruct (Get canonical (Header_ resp) (str "X-CSRF-Token")) as [|c1 t1];
    destruct (Get canonical (Header_ resp) (str "Authorization"))
      as [|c2 t2]; simpl; auto.
  - destruct (decide (str "Authorization" = k)) as [<-|Hne].
    + rewrite lookup_insert_eq. intros [= <-]. right. right.
      split; [reflexivity | discriminate].
    + rewrite lookup_insert_ne by exact Hne. auto.
  - destruct (decide (str "X-CSRF-Token" = k)) as [<-|Hne].
    + rewrite lookup_insert_eq. intros [= <-]. right. left.
      split; [reflexivity|]. split; [discriminate | reflexivity].
    + rewrite lookup_insert_ne by exact Hne. auto.
  - destruct (decide (str "Authorization" = k)) as [<-|Hne].
    + rewrite lookup_insert_eq. intros [= <-]. right. right.
      split; [reflexivity | discriminate].
    + rewrite lookup_insert_ne by exact Hne.
      destruct (decide (str "X-CSRF-Token" = k)) as [<-|Hne2].
      * rewrite lookup_insert_eq. intros [= <-]. right. left.
        split; [reflexivity|]. split; [discriminate | reflexivity].
      * rewrite lookup_insert_ne by exact Hne2. auto.
Qed.

Lemma extractCSRFTokenFromHTML_session (w : Worker) (html : gostring) :
  sessionHeaders (fst (extractCSRFTokenFromHTML w html)) = sessionHeaders w.
Proof.
  unfold extractCSRFTokenFromHTML.
  destruct (submatch metaPattern html); [reflexivity|].
  destruct (submatch formPattern html); [reflexivity|].
  destruct (submatch authPattern html); reflexivity.
Qed.

(** X25. The session headers of a worker, from its creation through any
    run of responses: only [X-CSRF-Token] and [Authorization] are ever
    stored, never with an empty value, and once an [X-CSRF-Token] header
    is stored the worker has a token. *)
Theorem session_headers_stored (id_ rps : Z) (now : Time)
  (loginHeader_ : gostring) (credentials_ : option Util.CredentialsManager)
  (exchanges : list (Script.Action * Response)) :
  let w := handleResponses canonical
             (New id_ rps now loginHeader_ credentials_) exchanges in
  forall k v,
    sessionHeaders w !! k = Some v ->
    (k = str "X-CSRF-Token" \/ k = str "Authorization") /\ v <> []
    /\ (k = str "X-CSRF-Token" -> csrfToken w <> []).
Proof.
  simpl. unfold handleResponses.
  induction exchanges as [|e exchanges IH] using rev_ind; intros k v.
  - simpl. by rewrite lookup_empty.
  - rewrite fold_left_app. simpl.
    set (w := fold_left _ exchanges _) in *.
    intros Hk.
    pose proof (handleResponse_csrf w (fst e) (snd e)) as Ht.
    cbv zeta in Ht. destruct Ht as (Hhdr & _ & _ & Hkeep).
    unfold handleResponse in Hk.
    apply extractSessionHeaders_keys in Hk.
    assert (Hs : forall b : bool,
               sessionHeaders
                 (if b then fst (extractCSRFTokenFromHTML w (Body (snd e)))
                  else w) = sessionHeaders w)
      by (intros []; [apply extractCSRFTokenFromHTML_session | reflexivity]).
    rewrite Hs in Hk.
    destruct Hk as [Hold | [(-> & Hv & Hval) | (-> & Hv)]].
    + destruct (IH k v Hold) as (Hkey & Hv & Htok).
      split; [exact Hkey|]. split; [exact Hv|].
      intros Hx. apply Hkeep, Htok, Hx.
    + split; [by left|]. split; [exact Hv|]. intros _.
      rewrite <- Hval in Hhdr. destruct (Hhdr Hv) as [Htok _].
      by rewrite Htok.
    + split; [by right|]. split; [exact Hv | discriminate].
Qed.

End Exchanges.

Lemma loginPair_first_colon_witness :
  Exchange.loginPair (str "Authorization" ++ ":"%char :: str " Bearer a:b")
  = Some (GoText.TrimSpace (str "Authorization"),
          GoText.TrimSpace (str " Bearer a:b"))
  /\ (str "Authorization" <> [] ->
      Exchange.loginPair (str "Authorization") = None)
  /\ Exchange.loginPair [] = None.
Proof.
  apply (loginPair_first_colon (str "Authorization") (str " Bearer a:b")).
  simpl. intros H.
  repeat (destruct H as [H|H]; [discriminate|]). exact H.
Defined.

Lemma session_headers_stored_witness :
  (str "X-CSRF-Token" = str "X-CSRF-Token"
   \/ str "X-CSRF-Token" = str "Authorization")
  /\ str "T1" <> []
  /\ (str "X-CSRF-Token" = str "X-CSRF-Token" ->
      Worker.csrfToken
        (Exchange.handleResponses SampleExchange.asWritten
           (Exchange.New 1 1 0 [] None)
           [(Scenario.formPost (str "https://example/submit") (str "a=1"),
             SampleExchange.tokenResponse)])
      <> []).
Proof.
  apply (session_headers_stored SampleExchange.asWritten 1 1 0 [] None
           [(Scenario.formPost (str "https://example/submit") (str "a=1"),
             SampleExchange.tokenResponse)]
           (str "X-CSRF-Token") (str "T1")).
  vm_compute. reflexivity.
Defined.

(** The login header of the documentation, and a response with a token:
    the next request carries the token. *)
Example login_header_and_token :
  Exchange.loginPair (str "Authorization: Bearer abc")
  = Some (str "Authorization", str "Bearer abc")
  /\ Worker.csrfToken
       (Exchange.handleResponse SampleExchange.asWritten
          (Scenario.freshWorker 1)
          (Scenario.formPost (str "https://example/submit") (str "a=1"))
          SampleExchange.tokenResponse)
     = str "T1".
Proof. split; vm_compute; reflexivity. Qed.

Section RequestHeaders.

Import Go GoText Http Worker Exchange.

Variable canonical : gostring -> gostring.

Lemma Set_singleValued h key value :
  singleValued h -> singleValued (Set_ canonical h key value).
Proof.
  intros Hh k vs. unfold Set_ in *.
  destruct (decide (canonical key = k)) as [<-|Hne].
  - rewrite lookup_insert_eq. intros [= <-]. eauto.
  - rewrite lookup_insert_ne by exact Hne. apply Hh.
Qed.

Lemma fold_singleValued (f : Header -> gostring * gostring -> Header)
  entries :
  (forall h e, singleValued h -> singleValued (f h e)) ->
  forall h, singleValued h -> singleValued (fold_left f entries h).
Proof.
  intros Hf. induction entries as [|e entries IH]; intros h Hh;
    [exact Hh|].
  simpl. apply IH, Hf, Hh.
Qed.

(** X26. The headers of a request, for any canonical form of the keys.
    The login header is set last: its value is what the request carries
    under its key, whatever the script, the session or the token set
    there. A worker with a token sends it as [X-CSRF-Token], in place of
    what the script and the stored session headers set, unless the login
    header has that key. Every header has a single value. *)
Theorem request_header_precedence (w : Worker) (a : Script.Action) :
  let h := requestHeaders canonical w a in
  (forall key value,
      loginPair (loginHeader w) = Some (key, value) ->
      h !! canonical key = Some [value])
  /\ (csrfToken w <> [] ->
      (forall key value,
          loginPair (loginHeader w) = Some (key, value) ->
          canonical key <> canonical (str "X-CSRF-Token")) ->
      h !! canonical (str "X-CSRF-Token") = Some [csrfToken w])
  /\ singleValued h.
Proof.
  intros h. subst h. unfold requestHeaders.
  set (h3 := fold_left (setSessionHeader canonical) _ _).
  assert (H3 : singleValued h3).
  { subst h3. apply fold_singleValued.
    { intros h e. apply Set_singleValued. }
    apply fold_singleValued.
    { intros h e Hh. unfold setScriptHeader.
      case_bool_decide; [exact Hh | by apply Set_singleValued]. }
    destruct (negb (isEmpty (Script.JSONBody a))).
    - apply Set_singleValued. intros k vs. by rewrite lookup_empty.
    - intros k vs. by rewrite lookup_empty. }
  unfold Set_ in *. split; [|split].
  - intros key value ->. apply lookup_insert_eq.
  - intros Htok Hlogin. destruct (csrfToken w) as [|c t] eqn:E;
      [congruence|]. simpl negb. cbv iota.
    destruct (loginPair (loginHeader w)) as [[key value]|] eqn:El.
    + rewrite lookup_insert_ne by (apply (Hlogin key value); reflexivity).
      apply lookup_insert_eq.
    + apply lookup_insert_eq.
  - assert (H4 : singleValued
                   (if negb (isEmpty (csrfToken w))
                    then Set_ canonical h3 (str "X-CSRF-Token") (csrfToken w)
                    else h3))
      by (destruct (negb (isEmpty (csrfToken w)));
          [by apply Set_singleValued | exact H3]).
    destruct (loginPair (loginHeader w)) as [[key value]|].
    + by apply Set_singleValued.
    + exact H4.
Qed.

End RequestHeaders.
